(** * turbogmailify: the per-account synchronisation engine

    A shallow embedding of [main.go] (the multi-account program) and of
    the earlier single-account program of the same repository.  A session
    talks to an IMAP server and to the Gmail API and loops forever, so the
    Go functions are interaction trees over the calls they make; a run of
    a tree against an environment records the calls and their answers in
    a trace, and the properties below are statements about those traces.
    The start-up code of [main.go] ([main], [getGmailService],
    [config.writeTo]) is embedded the same way, over its own calls. *)

From Stdlib Require Import String List ZArith NArith Lia Bool Arith.
From ITree Require Import ITree Eq.Shallow.
Import ITreeNotations ListNotations.
Local Open Scope string_scope.
Local Open Scope list_scope.
Local Open Scope itree_scope.

(* ===================================================================== *)
(** * Data model *)
(* ===================================================================== *)

(** A non-nil Go [error].  The IMAP client, the network and the Gmail
    client produce their own errors; [importToGmail] of [main.go] builds
    one with [fmt.Errorf] from the status code. *)
Inductive errval : Type :=
| ExternalError (msg : string)
| StatusCodeError (code : Z).

(** A Go [error] is nil ([None]) or an error value. *)
Definition error : Type := option errval.
Definition nil : error := None.

(** [type imapCredentials struct { Address; Username; Password string }] *)
Record imapCredentials : Type := {
  Address : string;
  Username : string;
  Password : string
}.

(** [type config struct]: the list of accounts; [Secrets] and [Tokens]
    only feed the OAuth set-up and are kept opaque. *)
Record config : Type := {
  Imap : list imapCredentials;
  Secrets : string;
  Tokens : option string
}.

(** [imap.UID] and [SelectData.NumMessages] are [uint32]; the program
    only compares and copies them. *)
Definition UID : Type := N.

Definition bytes : Type := list Byte.byte.

(** [type message struct { uid imap.UID; contents []byte }] *)
Record message : Type := {
  uid : UID;
  contents : bytes
}.

(** [imap.NumSet]: a sequence-number set or a UID set. *)
Inductive NumSet : Type :=
| SeqSet (nums : list N)
| UIDSet (uids : list UID).

Definition SeqSetNum (n : N) : NumSet := SeqSet [n].
Definition UIDSetNum (u : UID) : NumSet := UIDSet [u].

(** [imap.FetchItemBodySection]; the zero value [{}] asks for the raw
    contents of the whole message. *)
Record FetchItemBodySection : Type := {
  Specifier : string;
  Peek : bool
}.

Definition zeroBodySection : FetchItemBodySection :=
  {| Specifier := ""; Peek := false |}.

(** [imap.FetchOptions{BodySection: ...}] *)
Record FetchOptions : Type := {
  BodySection : list FetchItemBodySection
}.

(** [imapclient.FetchMessageBuffer]: the fields read by the program.
    [BodySectionData] lists the section contents in the order in which
    [range msg.BodySection] yields them. *)
Record FetchMessageBuffer : Type := {
  BufUID : UID;
  BodySectionData : list bytes
}.

(** [imap.SelectData]: the field read by the program. *)
Record SelectData : Type := {
  NumMessages : N
}.

(** [imap.StoreFlags] *)
Inductive StoreFlagsOp : Type := StoreFlagsSet | StoreFlagsAdd | StoreFlagsDel.

Record StoreFlags : Type := {
  Op : StoreFlagsOp;
  Silent : bool;
  Flags : list string
}.

Definition FlagDeleted : string := "\Deleted".

(** The call built by [mail.Users.Messages.Import(...)....Do()]. *)
Record ImportCall : Type := {
  userId : string;
  LabelIds : list string;
  internalDateSource : string;
  neverMarkSpam : bool;
  processForCalendar : bool;
  deleted : bool;
  media : bytes;
  contentType : string
}.

(** [gmail.Message] as returned by [Do]: the field read by the program. *)
Record ImportResponse : Type := {
  HTTPStatusCode : Z
}.

(** [time.Duration] counts nanoseconds. *)
Definition Duration : Type := Z.
Definition Second : Duration := 1000000000%Z.
Definition Minute : Duration := (60 * Second)%Z.

(** [const maxPollTime = 5 * time.Minute] *)
Definition maxPollTime : Duration := (5 * Minute)%Z.

(** Which case of the [select] in [doIdle] fired. *)
Inductive wake : Type :=
| Notified      (* case <-mailboxUpdate *)
| TimedOut.     (* case <-timer.C *)

(** The [log.Printf] lines of the program. *)
Inductive logline : Type :=
| LogConnect (e : errval)          (* "Error connecting to IMAP server: %v" *)
| LogLogin (e : errval)            (* "LOGIN error: %v" *)
| LogSelect (e : errval)           (* "SELECT error: %v" *)
| LogFetch (e : errval)            (* "FETCH error: %v" *)
| LogImporting (user : string) (size : nat)
                                   (* "Importing message received by %s (size %.1fK)" *)
| LogImportingEmail (size : nat)   (* "Importing email (size %.1fK)" *)
| LogUpload (e : errval)           (* "Error uploading to Gmail: %v" *)
| LogStatus (e : errval)           (* "%v" of the status-code error *)
| LogStatusCode (code : Z)         (* "Gmail returned status code: %v" *)
| LogStore (e : errval)            (* "STORE error: %v" *)
| LogExpunge (e : errval)          (* "EXPUNGE error: %v" *)
| LogIdle (e : errval).            (* "IDLE error: %v" *)

(* ===================================================================== *)
(** * The calls of a session *)
(* ===================================================================== *)

(** Every call the program makes on its collaborators, indexed by the
    type of the answer.  A command and the [Wait] (or [Collect]) on it
    are one call. *)
Variant sessionE : Type -> Type :=
| DialTLS (address : string) : sessionE error
| ClientClose : sessionE unit
| Login (username password : string) : sessionE error
| Select (mailbox : string) : sessionE (SelectData + errval)
| Fetch (set : NumSet) (opts : FetchOptions)
    : sessionE (list FetchMessageBuffer + errval)
| FetchClose : sessionE unit
| Import (call : ImportCall) : sessionE (ImportResponse + errval)
| Store (set : NumSet) (flags : StoreFlags) : sessionE error
| Expunge : sessionE error
| Idle : sessionE error
| AwaitUpdate (deadline : Duration) : sessionE wake
| TimerStop : sessionE unit
| IdleClose : sessionE error
| IdleWait : sessionE error
| Log (l : logline) : sessionE unit
| Sleep (d : Duration) : sessionE unit.

(** A call together with its answer, as it appears in a trace. *)
Inductive event : Type :=
| EvDialTLS (address : string) (r : error)
| EvClientClose
| EvLogin (username password : string) (r : error)
| EvSelect (mailbox : string) (r : SelectData + errval)
| EvFetch (set : NumSet) (opts : FetchOptions)
    (r : list FetchMessageBuffer + errval)
| EvFetchClose
| EvImport (call : ImportCall) (r : ImportResponse + errval)
| EvStore (set : NumSet) (flags : StoreFlags) (r : error)
| EvExpunge (r : error)
| EvIdle (r : error)
| EvAwaitUpdate (deadline : Duration) (r : wake)
| EvTimerStop
| EvIdleClose (r : error)
| EvIdleWait (r : error)
| EvLog (l : logline)
| EvSleep (d : Duration).

Definition trace : Type := list event.

Definition record {X} (e : sessionE X) : X -> event :=
  match e in sessionE X return X -> event with
  | DialTLS a => EvDialTLS a
  | ClientClose => fun _ => EvClientClose
  | Login u p => EvLogin u p
  | Select m => EvSelect m
  | Fetch s o => EvFetch s o
  | FetchClose => fun _ => EvFetchClose
  | Import c => EvImport c
  | Store s f => EvStore s f
  | Expunge => EvExpunge
  | Idle => EvIdle
  | AwaitUpdate d => EvAwaitUpdate d
  | TimerStop => fun _ => EvTimerStop
  | IdleClose => EvIdleClose
  | IdleWait => EvIdleWait
  | Log l => fun _ => EvLog l
  | Sleep d => fun _ => EvSleep d
  end.

Definition call {X} (e : sessionE X) : itree sessionE X := ITree.trigger e.

(* ===================================================================== *)
(** * The functions of [main.go] *)
(* ===================================================================== *)

(** [fetchFirstMessage]: fetch sequence number 1 with the whole body.
    The result is the Go pair [( *message, error)]. *)
Definition fetchFirstMessage : itree sessionE (option message * error) :=
  let entireMessage := [zeroBodySection] in
  res <- (collected <- call (Fetch (SeqSetNum 1)
                                   {| BodySection := entireMessage |});;
          match collected with
          | inr err =>
              call (Log (LogFetch err));;
              Ret (None, Some err)
          | inl messages =>
              if (length messages <=? 0)%nat then Ret (None, nil)
              else
                match messages with
                | [] => Ret (None, nil)
                | msg :: _ =>
                    let data := concat (BodySectionData msg) in
                    Ret (Some {| uid := BufUID msg; contents := data |}, nil)
                end
          end);;
  call FetchClose;;                       (* defer fetch.Close() *)
  Ret res.

(** The call that both versions of [importToGmail] build from a message. *)
Definition importCall (m : message) : ImportCall :=
  {| userId := "me";
     LabelIds := ["INBOX"; "UNREAD"];
     internalDateSource := "dateHeader";
     neverMarkSpam := false;
     processForCalendar := true;
     deleted := false;
     media := contents m;
     contentType := "message/rfc822" |}.

(** [importToGmail] of [main.go]. *)
Definition importToGmail (m : message) : itree sessionE error :=
  res <- call (Import (importCall m));;
  match res with
  | inr err =>
      call (Log (LogUpload err));;
      Ret (Some err)
  | inl r =>
      if negb (HTTPStatusCode r =? 200)%Z then
        let err := StatusCodeError (HTTPStatusCode r) in
        call (Log (LogStatus err));;
        Ret (Some err)
      else Ret nil
  end.

(** [deleteMessage]: flag the UID as deleted, then expunge. *)
Definition addDeleted : StoreFlags :=
  {| Op := StoreFlagsAdd; Silent := true; Flags := [FlagDeleted] |}.

Definition deleteMessage (u : UID) : itree sessionE error :=
  let setNum := UIDSetNum u in
  err <- call (Store setNum addDeleted);;
  match err with
  | Some e =>
      call (Log (LogStore e));;
      Ret (Some e)
  | None =>
      err <- call Expunge;;
      match err with
      | Some e =>
          call (Log (LogExpunge e));;
          Ret (Some e)
      | None => Ret nil
      end
  end.

(** [doIdle]: enter IDLE, wait for an update or for the timer, leave
    IDLE.  The [select] over the update channel and the timer is one
    call, answered by the case that fired. *)
Definition doIdle (deadline : Duration) : itree sessionE error :=
  err <- call Idle;;
  match err with
  | Some e =>
      call (Log (LogIdle e));;
      Ret (Some e)
  | None =>
      fired <- call (AwaitUpdate deadline);;
      match fired with
      | Notified => call TimerStop
      | TimedOut => Ret tt
      end;;
      err <- call IdleClose;;
      match err with
      | Some e =>
          call (Log (LogIdle e));;
          Ret (Some e)
      | None =>
          err <- call IdleWait;;
          match err with
          | Some e =>
              call (Log (LogIdle e));;
              Ret (Some e)
          | None => Ret nil
          end
      end
  end.

(** How one pass through the body of the inner [for] ends, when it does
    not fall through to the next pass. *)
Inductive exit : Type :=
| Break
| Return (err : error).

Section Session.

(** The two versions of [doSession] differ in the [importToGmail] they
    call and in the progress line they log; everything else is the
    same text. *)
Variable importMessage : message -> itree sessionE error.
Variable progressLine : imapCredentials -> message -> logline.

(** One pass through the body of the inner [for] of [doSession]. *)
Definition drainPass (imap : imapCredentials)
  : itree sessionE (unit + exit) :=
  selected <- call (Select "INBOX");;
  match selected with
  | inr err =>
      call (Log (LogSelect err));;
      Ret (inr (Return (Some err)))
  | inl inbox =>
      if (NumMessages inbox <=? 0)%N then Ret (inr Break)
      else
        fetched <- fetchFirstMessage;;
        match fetched with
        | (_, Some err) => Ret (inr (Return (Some err)))
        | (None, None) => Ret (inr Break)
        | (Some msg, None) =>
            call (Log (progressLine imap msg));;
            err <- importMessage msg;;
            match err with
            | Some e => Ret (inr (Return (Some e)))
            | None =>
                err <- deleteMessage (uid msg);;
                match err with
                | Some e => Ret (inr (Return (Some e)))
                | None => Ret (inl tt)
                end
            end
        end
  end.

(** One pass through the body of the outer [for]: drain the inbox,
    then idle. *)
Definition sessionPass (imap : imapCredentials)
  : itree sessionE (unit + error) :=
  drained <- ITree.iter (fun _ : unit => drainPass imap) tt;;
  match drained with
  | Return err => Ret (inr err)
  | Break =>
      err <- doIdle maxPollTime;;
      match err with
      | Some e => Ret (inr (Some e))
      | None => Ret (inl tt)
      end
  end.

(** [doSession]: connect, log in, then drain and idle forever. *)
Definition doSessionWith (imap : imapCredentials) : itree sessionE error :=
  err <- call (DialTLS (Address imap));;
  match err with
  | Some e =>
      call (Log (LogConnect e));;
      Ret (Some e)
  | None =>
      res <- (err <- call (Login (Username imap) (Password imap));;
              match err with
              | Some e =>
                  call (Log (LogLogin e));;
                  Ret (Some e)
              | None => ITree.iter (fun _ : unit => sessionPass imap) tt
              end);;
      call ClientClose;;                (* defer client.Close() *)
      Ret res
  end.

(** The body of the goroutine that [main] starts for an account:
    [for { doSession(...); time.Sleep(maxPollTime) }]. *)
Definition superviseWith (imap : imapCredentials) : itree sessionE void :=
  ITree.forever (doSessionWith imap;; call (Sleep maxPollTime)).

End Session.

(** The progress line of [main.go]:
    ["Importing message received by %s (size %.1fK)"] with the user name
    and [len(msg.contents)]. *)
Definition importingLine (imap : imapCredentials) (msg : message) : logline :=
  LogImporting (Username imap) (length (contents msg)).

(** [doSession] of [main.go]. *)
Definition doSession : imapCredentials -> itree sessionE error :=
  doSessionWith importToGmail importingLine.

Definition supervise : imapCredentials -> itree sessionE void :=
  superviseWith importToGmail importingLine.

(** The goroutines started by [main], one for each entry of [cfg.Imap]
    (each closure with its own [imapCreds], as loop variables are from
    Go 1.22 on).  How they are scheduled is not modelled. *)
Definition mainTasks (cfg : config) : list (itree sessionE void) :=
  map supervise (Imap cfg).

(* ===================================================================== *)
(** * The earlier, single-account program *)
(* ===================================================================== *)

(** The earlier program takes one account from the command line and has
    no goroutines; its [imapCredentials] has the fields [tlsAddress],
    [username] and [password], read here as [Address], [Username] and
    [Password].  [fetchFirstMessage], [deleteMessage], [doIdle] and the
    body of [doSession] are the same text as in [main.go]. *)
Module Legacy.

(** [importToGmail] of the earlier program: a status other than 200 is
    logged and the function still returns nil. *)
Definition importToGmail (msg : message) : itree sessionE error :=
  res <- call (Import (importCall msg));;
  match res with
  | inr err =>
      call (Log (LogUpload err));;
      Ret (Some err)
  | inl r =>
      (if negb (HTTPStatusCode r =? 200)%Z
       then call (Log (LogStatusCode (HTTPStatusCode r)))
       else Ret tt);;
      Ret nil
  end.

(** The progress line: ["Importing email (size %.1fK)"]. *)
Definition importingLine (_ : imapCredentials) (msg : message) : logline :=
  LogImportingEmail (length (contents msg)).

Definition doSession : imapCredentials -> itree sessionE error :=
  doSessionWith importToGmail importingLine.

(** [main]: [for { doSession(...); time.Sleep(maxPollTime) }]. *)
Definition supervise : imapCredentials -> itree sessionE void :=
  superviseWith importToGmail importingLine.

End Legacy.

(* ===================================================================== *)
(** * Running a tree against an environment *)
(* ===================================================================== *)

(** The environment answers each call; the answer may depend on the call
    and on everything that happened before. *)
Definition world : Type := trace -> forall X, sessionE X -> X.

(** What a bounded run has reached: the function returned [r], with so
    many steps left, or it is still running. *)
Inductive outcome (R : Type) : Type :=
| Done (r : R) (tr : trace) (more : nat)
| Running (tr : trace).
Arguments Done {R} r tr more.
Arguments Running {R} tr.

Definition traceOf {R} (o : outcome R) : trace :=
  match o with
  | Done _ tr _ => tr
  | Running tr => tr
  end.

Definition resultOf {R} (o : outcome R) : option R :=
  match o with
  | Done r _ _ => Some r
  | Running _ => None
  end.

(** [run fuel w t tr]: run [t] for at most [fuel] steps (calls and loop
    turns) after the history [tr]. *)
Fixpoint run {R} (fuel : nat) (w : world) (t : itree sessionE R) (tr : trace)
  : outcome R :=
  match observe t with
  | RetF r => Done r tr fuel
  | TauF t' =>
      match fuel with
      | O => Running tr
      | S f => run f w t' tr
      end
  | VisF e k =>
      match fuel with
      | O => Running tr
      | S f => let x := w tr _ e in run f w (k x) (tr ++ [record e x])
      end
  end.

(* ===================================================================== *)
(** * The update channel *)
(* ===================================================================== *)

(** The value sent on the channel, a
    [*imapclient.UnilateralDataMailbox]; the program never reads it. *)
Definition update : Type := N.

(** A Go channel as the two goroutines of a session use it: its
    capacity, the values waiting in its buffer, and whether the receive
    of [doIdle]'s [select] is blocked on it. *)
Record channel : Type := {
  capacity : nat;
  buffered : list update;
  receiving : bool
}.

(** [make(chan T, n)]; [make(chan T)] is [make 0]. *)
Definition make (n : nat) : channel :=
  {| capacity := n; buffered := []; receiving := false |}.

(** [doSession]: [mailboxUpdate = make(chan *imapclient.UnilateralDataMailbox)]. *)
Definition mailboxUpdate : channel := make 0.

(** What became of a value offered to the channel. *)
Inductive offered : Type :=
| Received       (* handed to the blocked receiver *)
| Queued         (* kept in the buffer *)
| Dropped.       (* the [default] case *)

(** The handler [dataHandler.Mailbox]:
    [select { case mailboxUpdate <- data: default: }].  The send goes
    through when a receiver is blocked on the channel or the buffer has
    room; otherwise the [default] case runs.  Either way the handler
    returns at once. *)
Definition Mailbox (data : update) (ch : channel) : channel * offered :=
  if receiving ch then
    ({| capacity := capacity ch; buffered := buffered ch;
        receiving := false |}, Received)
  else if (length (buffered ch) <? capacity ch)%nat then
    ({| capacity := capacity ch; buffered := buffered ch ++ [data];
        receiving := false |}, Queued)
  else (ch, Dropped).

(** [doIdle] reaches [select { case <-mailboxUpdate: ... }]: a buffered
    value is taken at once, otherwise the receive blocks. *)
Definition awaitUpdate (ch : channel) : channel * option update :=
  match buffered ch with
  | d :: rest =>
      ({| capacity := capacity ch; buffered := rest; receiving := false |},
       Some d)
  | [] =>
      ({| capacity := capacity ch; buffered := []; receiving := true |}, None)
  end.

(** [case <-timer.C]: the [select] ends, the receive is given up. *)
Definition deadlinePassed (ch : channel) : channel :=
  {| capacity := capacity ch; buffered := buffered ch; receiving := false |}.

(** What happens on a session's channel, in order. *)
Inductive channelOp : Type :=
| Push (data : update)     (* the server pushes an update: the handler runs *)
| Await                    (* [doIdle] reaches its [select] *)
| Deadline.                (* the timer of that [select] fires *)

(** What each of them gives. *)
Inductive seen : Type :=
| Offer (o : offered)
| Woken (data : update)    (* the select takes the update at once *)
| Blocked                  (* the select blocks *)
| TimedOutAfter.

Definition channelStep (ch : channel) (op : channelOp) : channel * seen :=
  match op with
  | Push d => let (ch', o) := Mailbox d ch in (ch', Offer o)
  | Await =>
      match awaitUpdate ch with
      | (ch', Some d) => (ch', Woken d)
      | (ch', None) => (ch', Blocked)
      end
  | Deadline => (deadlinePassed ch, TimedOutAfter)
  end.

Fixpoint play (ch : channel) (ops : list channelOp) : channel * list seen :=
  match ops with
  | [] => (ch, [])
  | op :: rest =>
      let (ch1, s) := channelStep ch op in
      let (ch2, ss) := play ch1 rest in
      (ch2, s :: ss)
  end.

(* ===================================================================== *)
(** * Traces: what precedes each call *)
(* ===================================================================== *)

(** [ends tr l]: the trace [tr] ends with the events [l]. *)
Definition ends (tr l : trace) : Prop := exists pre, tr = pre ++ l.

(** [always R tr]: every event of [tr] is in relation [R] with the
    events before it. *)
Definition always (R : trace -> event -> Prop) (tr : trace) : Prop :=
  forall pre x post, tr = pre ++ x :: post -> R pre x.

(** The message that [fetchFirstMessage] builds from a fetched buffer. *)
Definition messageOf (b : FetchMessageBuffer) : message :=
  {| uid := BufUID b; contents := concat (BodySectionData b) |}.

Definition wholeBody : FetchOptions := {| BodySection := [zeroBodySection] |}.

(** The error that [importToGmail] of [main.go] makes of an answer of
    the import call: the transport error, or the status when it is not
    200; none for an answer with status 200. *)
Definition importError (res : ImportResponse + errval) : error :=
  match res with
  | inr e => Some e
  | inl r =>
      if (HTTPStatusCode r =? 200)%Z then None
      else Some (StatusCodeError (HTTPStatusCode r))
  end.

Section Allowed.

(** The account, and whether the session is one of a supervisor's
    (then it may start after the supervisor's pause, and the pause may
    follow it). *)
Variable supervised : bool.
Variable imap : imapCredentials.

(** [failed tr e]: the trace ends with a failed call of an open
    connection, error [e], and its log line. *)
Definition failed (tr : trace) (e : errval) : Prop :=
  (exists u p, ends tr [EvLogin u p (Some e); EvLog (LogLogin e)]) \/
  (exists m, ends tr [EvSelect m (inr e); EvLog (LogSelect e)]) \/
  (exists s o, ends tr [EvFetch s o (inr e); EvLog (LogFetch e);
                        EvFetchClose]) \/
  (exists c, ends tr [EvImport c (inr e); EvLog (LogUpload e)]) \/
  (exists c r, ends tr [EvImport c (inl r); EvLog (LogStatus e)] /\
               HTTPStatusCode r <> 200%Z /\
               e = StatusCodeError (HTTPStatusCode r)) \/
  (exists s f, ends tr [EvStore s f (Some e); EvLog (LogStore e)]) \/
  ends tr [EvExpunge (Some e); EvLog (LogExpunge e)] \/
  ends tr [EvIdle (Some e); EvLog (LogIdle e)] \/
  ends tr [EvIdleClose (Some e); EvLog (LogIdle e)] \/
  ends tr [EvIdleWait (Some e); EvLog (LogIdle e)].

(** What precedes each log line. *)
Definition allowedLog (pre : trace) (l : logline) : Prop :=
  match l with
  | LogConnect e => ends pre [EvDialTLS (Address imap) (Some e)]
  | LogLogin e => exists u p, ends pre [EvLogin u p (Some e)]
  | LogSelect e => exists m, ends pre [EvSelect m (inr e)]
  | LogFetch e => exists s o, ends pre [EvFetch s o (inr e)]
  | LogImporting u n =>
      exists s o b rest,
        ends pre [EvFetch s o (inl (b :: rest)); EvFetchClose] /\
        u = Username imap /\ n = length (contents (messageOf b))
  | LogImportingEmail _ => False
  | LogUpload e => exists c, ends pre [EvImport c (inr e)]
  | LogStatus e =>
      exists c r, ends pre [EvImport c (inl r)] /\
                  HTTPStatusCode r <> 200%Z /\
                  e = StatusCodeError (HTTPStatusCode r)
  | LogStatusCode _ => False
  | LogStore e => exists s f, ends pre [EvStore s f (Some e)]
  | LogExpunge e => ends pre [EvExpunge (Some e)]
  | LogIdle e =>
      ends pre [EvIdle (Some e)] \/ ends pre [EvIdleClose (Some e)] \/
      ends pre [EvIdleWait (Some e)]
  end.

(** [allowed pre x]: what the history [pre] looks like whenever
    [doSession] of [main.go] (or its supervisor) makes the call [x]. *)
Definition allowed (pre : trace) (x : event) : Prop :=
  match x with
  | EvDialTLS a _ =>
      a = Address imap /\
      (pre = [] \/ (supervised = true /\ ends pre [EvSleep maxPollTime]))
  | EvLogin u p _ =>
      u = Username imap /\ p = Password imap /\
      ends pre [EvDialTLS (Address imap) None]
  | EvSelect m _ =>
      m = "INBOX" /\
      ((exists u p, ends pre [EvLogin u p None]) \/
       ends pre [EvExpunge None] \/ ends pre [EvIdleWait None])
  | EvFetch s o _ =>
      s = SeqSetNum 1 /\ o = wholeBody /\
      exists inbox, ends pre [EvSelect "INBOX" (inl inbox)] /\
                    (0 < NumMessages inbox)%N
  | EvFetchClose =>
      (exists s o msgs, ends pre [EvFetch s o (inl msgs)]) \/
      (exists s o e, ends pre [EvFetch s o (inr e); EvLog (LogFetch e)])
  | EvImport c _ =>
      exists s o b rest l,
        ends pre [EvFetch s o (inl (b :: rest)); EvFetchClose; EvLog l] /\
        c = importCall (messageOf b)
  | EvStore s f _ =>
      exists s' o b rest l r,
        ends pre [EvFetch s' o (inl (b :: rest)); EvFetchClose; EvLog l;
                  EvImport (importCall (messageOf b)) (inl r)] /\
        HTTPStatusCode r = 200%Z /\
        s = UIDSetNum (BufUID b) /\ f = addDeleted
  | EvExpunge _ => exists s, ends pre [EvStore s addDeleted None]
  | EvIdle _ =>
      (exists inbox, ends pre [EvSelect "INBOX" (inl inbox)] /\
                     NumMessages inbox = 0%N) \/
      (exists inbox s o,
          ends pre [EvSelect "INBOX" (inl inbox); EvFetch s o (inl []);
                    EvFetchClose] /\
          (0 < NumMessages inbox)%N)
  | EvAwaitUpdate d _ => d = maxPollTime /\ ends pre [EvIdle None]
  | EvTimerStop => exists d, ends pre [EvAwaitUpdate d Notified]
  | EvIdleClose _ =>
      (exists d, ends pre [EvAwaitUpdate d TimedOut]) \/
      (exists d, ends pre [EvAwaitUpdate d Notified; EvTimerStop])
  | EvIdleWait _ => ends pre [EvIdleClose None]
  | EvLog l => allowedLog pre l
  | EvClientClose => exists e, failed pre e
  | EvSleep d =>
      supervised = true /\ d = maxPollTime /\
      (ends pre [EvClientClose] \/
       exists e, ends pre [EvDialTLS (Address imap) (Some e);
                           EvLog (LogConnect e)])
  end.

(** [returned tr e]: the trace of a session that has returned [e]. *)
Definition returned (tr : trace) (e : errval) : Prop :=
  (exists pre, tr = pre ++ [EvClientClose] /\ failed pre e) \/
  ends tr [EvDialTLS (Address imap) (Some e); EvLog (LogConnect e)].

End Allowed.

(** The state of the trace at the head of either loop of [doSession]:
    the login, an expunge or the acknowledgment of the end of IDLE has
    just succeeded. *)
Definition atHead (tr : trace) : Prop :=
  (exists u p, ends tr [EvLogin u p None]) \/
  ends tr [EvExpunge None] \/ ends tr [EvIdleWait None].

(** How a function that returns a Go [error] leaves the trace: allowed
    throughout, [good] when it returns nil, ending in the failure
    otherwise. *)
Definition leaves (supervised : bool) (imap : imapCredentials)
    (good : trace -> Prop) (err : error) (tr : trace) : Prop :=
  always (allowed supervised imap) tr /\
  match err with
  | None => good tr
  | Some e => failed tr e
  end.

(** What [doIdle] needs of the trace: the drain loop has just ended. *)
Definition drained (supervised : bool) (imap : imapCredentials) (tr : trace)
  : Prop :=
  forall r, allowed supervised imap tr (EvIdle r).

(** How a pass of the drain loop may end it. *)
Definition exitsWithError (ex : exit) : Prop :=
  match ex with
  | Break => True
  | Return err => exists e, err = Some e
  end.

(** [safe w I t tr K]: however long [t] runs against [w] after [tr], the
    trace satisfies [I] at whatever moment the run is stopped, and [K]
    holds of the result and the trace when [t] returns. *)
Definition safe {R} (w : world) (I : trace -> Prop) (t : itree sessionE R)
    (tr : trace) (K : R -> trace -> Prop) : Prop :=
  forall fuel,
    match run fuel w t tr with
    | Done r tr' _ => K r tr'
    | Running tr' => I tr'
    end.

(* ===================================================================== *)
(** * A scripted environment for examples *)
(* ===================================================================== *)

(** An IMAP server and a Gmail endpoint that answer by a fixed script.
    The inbox loses its first message with every successful expunge. *)
Record server : Type := {
  dialAnswer : error;
  loginAnswer : error;
  inbox : list FetchMessageBuffer;
  racing : bool;          (* the fetch finds nothing, though select counted *)
  gmail : ImportCall -> ImportResponse + errval;
  storeAnswer : error;
  expungeAnswer : error;
  idleAnswer : error;
  wakeAnswer : wake;
  idleCloseAnswer : error;
  idleWaitAnswer : error
}.

Definition isExpunged (x : event) : bool :=
  match x with
  | EvExpunge None => true
  | _ => false
  end.

Definition remaining (sv : server) (tr : trace) : list FetchMessageBuffer :=
  skipn (length (filter isExpunged tr)) (inbox sv).

Definition serve (sv : server) : world :=
  fun tr X e =>
    match e in sessionE X return X with
    | DialTLS _ => dialAnswer sv
    | ClientClose => tt
    | Login _ _ => loginAnswer sv
    | Select _ =>
        inl {| NumMessages := N.of_nat (length (remaining sv tr)) |}
    | Fetch _ _ =>
        inl (if racing sv then [] else firstn 1 (remaining sv tr))
    | FetchClose => tt
    | Import c => gmail sv c
    | Store _ _ => storeAnswer sv
    | Expunge => expungeAnswer sv
    | Idle => idleAnswer sv
    | AwaitUpdate _ => wakeAnswer sv
    | TimerStop => tt
    | IdleClose => idleCloseAnswer sv
    | IdleWait => idleWaitAnswer sv
    | Log _ => tt
    | Sleep _ => tt
    end.

Definition account : imapCredentials :=
  {| Address := "imap.example.com:993";
     Username := "AzureDiamond@example.com";
     Password := "hunter2" |}.

Definition letter (u : UID) : FetchMessageBuffer :=
  {| BufUID := u; BodySectionData := [[Byte.x48; Byte.x69]] |}.

Definition status (code : Z) : ImportCall -> ImportResponse + errval :=
  fun _ => inl {| HTTPStatusCode := code |}.

(** Everything works; the session ends when leaving IDLE fails. *)
Definition healthy (msgs : list FetchMessageBuffer) : server :=
  {| dialAnswer := None; loginAnswer := None; inbox := msgs; racing := false;
     gmail := status 200; storeAnswer := None; expungeAnswer := None;
     idleAnswer := None; wakeAnswer := Notified; idleCloseAnswer := None;
     idleWaitAnswer := Some (ExternalError "connection reset") |}.

(** The server cannot be reached: every dial fails. *)
Definition unreachable : server :=
  {| dialAnswer := Some (ExternalError "no route to host");
     loginAnswer := None; inbox := []; racing := false;
     gmail := status 200; storeAnswer := None; expungeAnswer := None;
     idleAnswer := None; wakeAnswer := TimedOut; idleCloseAnswer := None;
     idleWaitAnswer := None |}.

(** The sessions started in a trace: one for each dial. *)
Definition isDial (x : event) : bool :=
  match x with
  | EvDialTLS _ _ => true
  | _ => false
  end.

Definition sessionsStarted (tr : trace) : nat := length (filter isDial tr).

(** What one failed attempt to connect adds to the supervisor's trace. *)
Definition failedAttempt (imap : imapCredentials) : trace :=
  let e := ExternalError "no route to host" in
  [EvDialTLS (Address imap) (Some e); EvLog (LogConnect e);
   EvSleep maxPollTime].

(** The error that [Do] returns for a response with status 503, as it
    does for every status outside 2xx. *)
Definition unavailable : errval :=
  ExternalError "googleapi: got HTTP response code 503".

(** Gmail answers every import with status 503, so [Do] returns an
    error; the inbox holds one message, UID 12. *)
Definition rejecting : server :=
  {| dialAnswer := None; loginAnswer := None; inbox := [letter 12%N];
     racing := false; gmail := fun _ => inr unavailable;
     storeAnswer := None; expungeAnswer := None;
     idleAnswer := None; wakeAnswer := TimedOut; idleCloseAnswer := None;
     idleWaitAnswer := Some (ExternalError "connection reset") |}.

(** Gmail answers every import with status 202, a success for [Do],
    which returns the response and no error. *)
Definition accepting202 : server :=
  {| dialAnswer := None; loginAnswer := None; inbox := [letter 12%N];
     racing := false; gmail := status 202;
     storeAnswer := None; expungeAnswer := None;
     idleAnswer := None; wakeAnswer := TimedOut; idleCloseAnswer := None;
     idleWaitAnswer := Some (ExternalError "connection reset") |}.

(** The store fails: the server refuses to set the flag. *)
Definition readOnly : server :=
  {| dialAnswer := None; loginAnswer := None; inbox := [letter 12%N];
     racing := false; gmail := status 200;
     storeAnswer := Some (ExternalError "NO [NOPERM]"); expungeAnswer := None;
     idleAnswer := None; wakeAnswer := TimedOut; idleCloseAnswer := None;
     idleWaitAnswer := None |}.

(** Another client empties the inbox between the select and the fetch. *)
Definition raced : server :=
  {| dialAnswer := None; loginAnswer := None; inbox := [letter 12%N];
     racing := true; gmail := status 200;
     storeAnswer := None; expungeAnswer := None;
     idleAnswer := None; wakeAnswer := TimedOut; idleCloseAnswer := None;
     idleWaitAnswer := Some (ExternalError "connection reset") |}.

(** A message of one byte. *)
Definition note (u : UID) (b : Byte.byte) : FetchMessageBuffer :=
  {| BufUID := u; BodySectionData := [[b]] |}.

(** Gmail answers 503 to the message "c", so [Do] returns an error for
    it, and 200 to any other. *)
Definition picky (c : ImportCall) : ImportResponse + errval :=
  match media c with
  | [Byte.x63] => inr unavailable
  | _ => inl {| HTTPStatusCode := 200 |}
  end.

(** Three messages, UIDs 10, 11 and 12; the import of the third fails. *)
Definition threeMessages : server :=
  {| dialAnswer := None; loginAnswer := None;
     inbox := [note 10%N Byte.x61; note 11%N Byte.x62; note 12%N Byte.x63];
     racing := false; gmail := picky;
     storeAnswer := None; expungeAnswer := None;
     idleAnswer := None; wakeAnswer := TimedOut; idleCloseAnswer := None;
     idleWaitAnswer := None |}.

(** The deletion of a message by the UID of its buffer, when both calls
    succeed. *)
Definition deletion (b : FetchMessageBuffer) : trace :=
  [EvStore (UIDSetNum (BufUID b)) addDeleted None; EvExpunge None].

(** The calls of a session on a server with the one message of UID 12,
    up to the answer of the import call. *)
Definition untilImport (line : logline) (answer : ImportResponse + errval)
  : trace :=
  [EvDialTLS (Address account) None;
   EvLogin (Username account) (Password account) None;
   EvSelect "INBOX" (inl {| NumMessages := 1 |});
   EvFetch (SeqSetNum 1) wholeBody (inl [letter 12%N]);
   EvFetchClose;
   EvLog line;
   EvImport (importCall (messageOf (letter 12%N))) answer].

(** The rest of such a session once the message has been deleted. *)
Definition afterDelete : trace :=
  [EvSelect "INBOX" (inl {| NumMessages := 0 |});
   EvIdle None;
   EvAwaitUpdate maxPollTime TimedOut;
   EvIdleClose None;
   EvIdleWait (Some (ExternalError "connection reset"));
   EvLog (LogIdle (ExternalError "connection reset"));
   EvClientClose].

(* ===================================================================== *)
(** * The statements of the specification that the code does not meet *)
(* ===================================================================== *)

(** The mailbox to drain is resolved from the account's configuration,
    "INBOX" being the default only: some configuration names another
    mailbox, and the sessions of an account select the mailbox resolved
    for it. *)
Definition mailboxFromConfiguration : Prop :=
  exists resolve : imapCredentials -> string,
    (exists imap, resolve imap <> "INBOX") /\
    forall (w : world) imap fuel pre m r post,
      traceOf (run fuel w (doSession imap) []) = pre ++ EvSelect m r :: post ->
      m = resolve imap.

(** The labels of an imported message are derived from the account's
    configuration, "INBOX" (and unread) being the default only. *)
Definition labelsFromConfiguration : Prop :=
  exists resolve : imapCredentials -> list string,
    (exists imap, resolve imap <> ["INBOX"; "UNREAD"]) /\
    forall (w : world) imap fuel pre c r post,
      traceOf (run fuel w (doSession imap) []) = pre ++ EvImport c r :: post ->
      LabelIds c = resolve imap.

(** The hand-off as the specification words it: a slot of one element,
    written without blocking by the push callback (dropped when full)
    and read destructively by the idle wait; that is the channel with a
    buffer of one. *)
Definition singleSlot : channel := make 1.

(* ===================================================================== *)
(** * Progress *)
(* ===================================================================== *)

(** [paced w strict t]: the tree [t] never stalls.  However long it is
    run, the steps it has taken are at most twice the calls it has
    made: between two calls there is at most one silent step (the turn
    of a loop).  When [t] returns it has made a call after its last
    silent step, or ([strict] being false) it has returned at once. *)
Definition paced {R} (w : world) (strict : bool) (t : itree sessionE R)
  : Prop :=
  forall fuel tr,
    match run fuel w t tr with
    | Done _ tr' more =>
        (strict = false /\ tr' = tr /\ more = fuel) \/
        fuel + 1 + 2 * length tr <= more + 2 * length tr'
    | Running tr' => fuel + 2 * length tr <= 2 * length tr'
    end.

(** [reaches w t tr]: run long enough against [w], the tree [t] makes
    the calls of [tr], with these answers, in this order. *)
Definition reaches {R} (w : world) (t : itree sessionE R) (tr : trace)
  : Prop :=
  exists fuel rest, traceOf (run fuel w t []) = tr ++ rest.

(** [thenCalls w t pre post y]: in a run of [t] against [w] that has
    come to [pre ++ post], the call after [pre] is [y]: whatever the
    trace shows after [pre] begins with [y], and run long enough the
    tree does make that call. *)
Definition thenCalls {R} (w : world) (t : itree sessionE R)
    (pre post : trace) (y : event) : Prop :=
  (forall x post', post = x :: post' -> x = y) /\ reaches w t (pre ++ [y]).

(** [returnsWith w t tr e]: run long enough against [w], the tree [t]
    returns the error [e], having made the calls of [tr]. *)
Definition returnsWith (w : world) (t : itree sessionE error) (tr : trace)
    (e : errval) : Prop :=
  exists fuel more, run fuel w t [] = Done (Some e) tr more.

(** [gives o r tr]: the run [o] has returned [r], with the trace [tr]. *)
Definition gives {R} (o : outcome R) (r : R) (tr : trace) : Prop :=
  exists more, o = Done r tr more.

(* ===================================================================== *)
(** * The wait of [doIdle] on the channel *)
(* ===================================================================== *)

(** The [select] of [doIdle],
    [select { case <-mailboxUpdate: timer.Stop(); case <-timer.C: }],
    against what happens on the channel from then on: it ends with the
    first update that it receives or with the timer, whichever comes
    first; [None] while it is still blocked. *)
Fixpoint blockedUntil (ch : channel) (ops : list channelOp) : option wake :=
  match ops with
  | [] => None
  | op :: rest =>
      match channelStep ch op with
      | (_, Offer Received) => Some Notified
      | (_, Woken _) => Some Notified
      | (_, TimedOutAfter) => Some TimedOut
      | (ch', _) => blockedUntil ch' rest
      end
  end.

(** [doIdle] reaches its [select] on the channel that [doSession] made,
    then [ops] happen. *)
Definition selectUpdate (ops : list channelOp) : option wake :=
  blockedUntil mailboxUpdate (Await :: ops).

(* ===================================================================== *)
(** * Sessions and pauses *)
(* ===================================================================== *)

(** The pauses of a supervisor in a trace, and whether a session is
    under way at its end (1) or none (0): none at the start and during
    a pause. *)
Definition isPause (x : event) : bool :=
  match x with
  | EvSleep _ => true
  | _ => false
  end.

Definition pauses (tr : trace) : nat := length (filter isPause tr).

Definition underWay (tr : trace) : nat :=
  match rev tr with
  | [] => 0
  | x :: _ => if isPause x then 0 else 1
  end.

(* ===================================================================== *)
(** * Connections opened and closed *)
(* ===================================================================== *)

(** Whether an event opens a connection, and whether it closes one. *)
Definition isDialled (x : event) : bool :=
  match x with
  | EvDialTLS _ None => true
  | _ => false
  end.

Definition isClosed (x : event) : bool :=
  match x with
  | EvClientClose => true
  | _ => false
  end.

(** The connections opened and closed in a trace. *)
Definition opened (tr : trace) : nat := length (filter isDialled tr).
Definition closed (tr : trace) : nat := length (filter isClosed tr).

(** Whether the program holds an open connection right after the call
    [x]: not after a failed dial and its log line, not after the close,
    not during the supervisor's pause. *)
Definition holdsConnection (x : event) : bool :=
  match x with
  | EvDialTLS _ (Some _) => false
  | EvLog (LogConnect _) => false
  | EvClientClose => false
  | EvSleep _ => false
  | _ => true
  end.

Definition connected (tr : trace) : nat :=
  match rev tr with
  | [] => 0
  | x :: _ => if holdsConnection x then 1 else 0
  end.

(* ===================================================================== *)
(** * The mailbox on the server *)
(* ===================================================================== *)

(** What the IMAP commands of the program do to the selected mailbox:
    STORE changes the [\Deleted] flag of the messages it names, EXPUNGE
    removes the flagged messages.  A command that returned an error
    changed nothing. *)
Record slot : Type := {
  held : FetchMessageBuffer;
  flaggedDeleted : bool
}.

Definition mailbox : Type := list slot.

(** The messages as they arrived: none is flagged. *)
Definition arrived (msgs : list FetchMessageBuffer) : mailbox :=
  map (fun b => {| held := b; flaggedDeleted := false |}) msgs.

(** The highest UID in a mailbox; 0 in an empty one. *)
Definition highestUID (mb : mailbox) : UID :=
  fold_right (fun sl => N.max (BufUID (held sl))) 0%N mb.

(** The number that an element of a number set stands for.  The number
    0 is how go-imap holds [*], and writes it: the largest number in
    use, [last]. *)
Definition meant (last n : N) : N := if (n =? 0)%N then last else n.

(** Whether a number set names the message at a sequence number (from
    1) with a UID, in a mailbox of [count] messages whose highest UID
    is [highest]: [*] is the sequence number [count] in a sequence set,
    the UID [highest] in a UID set. *)
Definition inSet (s : NumSet) (count : N) (highest : UID) (position : N)
    (u : UID) : bool :=
  match s with
  | SeqSet nums => existsb (fun n => N.eqb position (meant count n)) nums
  | UIDSet uids => existsb (fun n => N.eqb u (meant highest n)) uids
  end.

(** The [\Deleted] flag of a message after a store that names it. *)
Definition setDeleted (f : StoreFlags) (old : bool) : bool :=
  let named := existsb (String.eqb FlagDeleted) (Flags f) in
  match Op f with
  | StoreFlagsSet => named
  | StoreFlagsAdd => named || old
  | StoreFlagsDel => negb named && old
  end.

Fixpoint storeFrom (names : N -> UID -> bool) (f : StoreFlags) (position : N)
    (mb : mailbox) : mailbox :=
  match mb with
  | [] => []
  | sl :: rest =>
      (if names position (BufUID (held sl))
       then {| held := held sl;
               flaggedDeleted := setDeleted f (flaggedDeleted sl) |}
       else sl)
      :: storeFrom names f (N.succ position) rest
  end.

Definition store (s : NumSet) (f : StoreFlags) (mb : mailbox) : mailbox :=
  storeFrom (inSet s (N.of_nat (length mb)) (highestUID mb)) f 1 mb.

Definition expunge (mb : mailbox) : mailbox :=
  filter (fun sl => negb (flaggedDeleted sl)) mb.

Definition mailboxStep (mb : mailbox) (x : event) : mailbox :=
  match x with
  | EvStore s f None => store s f mb
  | EvExpunge None => expunge mb
  | _ => mb
  end.

(** The mailbox that held [msgs] after the calls of [tr]. *)
Definition mailboxAfter (msgs : list FetchMessageBuffer) (tr : trace)
  : mailbox :=
  fold_left mailboxStep tr (arrived msgs).

(** [answers w pre x]: the event [x] is a call with the answer that [w]
    gives to it after [pre]. *)
Definition answers (w : world) (pre : trace) (x : event) : Prop :=
  exists X (e : sessionE X), x = record e (w pre X e).

(** Gmail has confirmed the import of the bytes of [b]. *)
Definition confirmed (b : FetchMessageBuffer) (tr : trace) : Prop :=
  exists r, In (EvImport (importCall (messageOf b)) (inl r)) tr /\
            HTTPStatusCode r = 200%Z.

(* ===================================================================== *)
(** * A server that keeps the mailbox *)
(* ===================================================================== *)

(** The messages of a mailbox that a number set names, in order. *)
Fixpoint fetchedFrom (names : N -> UID -> bool) (position : N) (mb : mailbox)
  : list FetchMessageBuffer :=
  match mb with
  | [] => []
  | sl :: rest =>
      (if names position (BufUID (held sl)) then [held sl] else [])
      ++ fetchedFrom names (N.succ position) rest
  end.

(** What a fetch of the program returns of a message.  The fetch asks
    for the body section and not for the UID ([FetchOptions] with
    [BodySection] only, on a sequence set), so a server that answers
    what is asked sends no UID and the buffer's [UID] is left at 0; a
    server may also send the UID unasked. *)
Definition reply (sendsUID : bool) (b : FetchMessageBuffer)
  : FetchMessageBuffer :=
  if sendsUID then b
  else {| BufUID := 0%N; BodySectionData := BodySectionData b |}.

Definition fetched (sendsUID : bool) (s : NumSet) (mb : mailbox)
  : list FetchMessageBuffer :=
  map (reply sendsUID)
    (fetchedFrom (inSet s (N.of_nat (length mb)) (highestUID mb)) 1 mb).

(** A server that keeps the mailbox: select counts its messages and
    fetch returns the ones asked for, with their UID when [sendsUID];
    the other calls are answered by the script [sv], whose [inbox] is
    the mailbox at the start. *)
Definition imapServer (sendsUID : bool) (sv : server) : world :=
  fun tr X e =>
    match e in sessionE X return X with
    | DialTLS _ => dialAnswer sv
    | ClientClose => tt
    | Login _ _ => loginAnswer sv
    | Select _ =>
        inl {| NumMessages :=
                 N.of_nat (length (mailboxAfter (inbox sv) tr)) |}
    | Fetch s _ =>
        inl (if racing sv then []
             else fetched sendsUID s (mailboxAfter (inbox sv) tr))
    | FetchClose => tt
    | Import c => gmail sv c
    | Store _ _ => storeAnswer sv
    | Expunge => expungeAnswer sv
    | Idle => idleAnswer sv
    | AwaitUpdate _ => wakeAnswer sv
    | TimerStop => tt
    | IdleClose => idleCloseAnswer sv
    | IdleWait => idleWaitAnswer sv
    | Log _ => tt
    | Sleep _ => tt
    end.

(** Gmail accepts the message: the import call for its bytes comes back
    with status 200 and no error. *)
Definition accepts (gmail : ImportCall -> ImportResponse + errval)
    (b : FetchMessageBuffer) : Prop :=
  importError (gmail (importCall (messageOf b))) = None.

(** The calls of one pass of the drain loop of [main.go] up to the
    answer of the import call, [count] messages being in the mailbox
    and [b] the first of them. *)
Definition importPass (imap : imapCredentials) (count : nat)
    (b : FetchMessageBuffer) (answer : ImportResponse + errval) : trace :=
  [EvSelect "INBOX" (inl {| NumMessages := N.of_nat count |});
   EvFetch (SeqSetNum 1) wholeBody (inl [b]);
   EvFetchClose;
   EvLog (importingLine imap (messageOf b));
   EvImport (importCall (messageOf b)) answer].

(** The passes that import and delete the messages [pending] one after
    the other, [behind] more messages being in the mailbox. *)
Fixpoint drainTrace (imap : imapCredentials)
    (gmail : ImportCall -> ImportResponse + errval)
    (pending : list FetchMessageBuffer) (behind : nat) : trace :=
  match pending with
  | [] => []
  | b :: rest =>
      importPass imap (length pending + behind) b
        (gmail (importCall (messageOf b)))
      ++ deletion b ++ drainTrace imap gmail rest behind
  end.

(** The line that [importToGmail] of [main.go] logs for an answer that
    is not a success. *)
Definition failureLine (answer : ImportResponse + errval) : logline :=
  match answer with
  | inr e => LogUpload e
  | inl r => LogStatus (StatusCodeError (HTTPStatusCode r))
  end.

(** The imports that Gmail confirmed in a trace. *)
Definition isConfirmed (x : event) : bool :=
  match x with
  | EvImport _ (inl r) => (HTTPStatusCode r =? 200)%Z
  | _ => false
  end.

Definition confirmedImports (tr : trace) : nat :=
  length (filter isConfirmed tr).

(** A session of [main.go] that imports the first message [b] of
    [count] and fails to flag it, and the pause after it. *)
Definition undeletedSession (imap : imapCredentials) (count : nat)
    (b : FetchMessageBuffer) (answer : ImportResponse + errval) (e : errval)
  : trace :=
  [EvDialTLS (Address imap) None;
   EvLogin (Username imap) (Password imap) None]
  ++ importPass imap count b answer
  ++ [EvStore (UIDSetNum (BufUID b)) addDeleted (Some e);
      EvLog (LogStore e);
      EvClientClose;
      EvSleep maxPollTime].

(** Three messages, UIDs 10, 11 and 12, on a server where everything
    works and a Gmail that accepts every message. *)
Definition threeNotes : server :=
  {| dialAnswer := None; loginAnswer := None;
     inbox := [note 10%N Byte.x61; note 11%N Byte.x62; note 12%N Byte.x63];
     racing := false; gmail := status 200;
     storeAnswer := None; expungeAnswer := None;
     idleAnswer := None; wakeAnswer := TimedOut; idleCloseAnswer := None;
     idleWaitAnswer := Some (ExternalError "connection reset") |}.

(** The import calls of a trace. *)
Definition imports (tr : trace) : list ImportCall :=
  flat_map (fun x => match x with
                     | EvImport c _ => [c]
                     | _ => []
                     end) tr.

(** One turn of the outer loop of [doSession] on an empty mailbox: the
    select finds nothing, and the session idles until [fired]. *)
Definition idleCycle (fired : wake) : trace :=
  [EvSelect "INBOX" (inl {| NumMessages := 0 |});
   EvIdle None;
   EvAwaitUpdate maxPollTime fired]
  ++ match fired with
     | Notified => [EvTimerStop]
     | TimedOut => []
     end
  ++ [EvIdleClose None; EvIdleWait None].

(* ===================================================================== *)
(** * Start-up: [main], [getGmailService] and [config.writeTo] *)
(* ===================================================================== *)

(** Values that the start-up code only passes on: the open
    configuration file ([*os.File]), the OAuth configuration
    ([*oauth2.Config]), the HTTP client it makes ([*http.Client]) and
    the Gmail service ([*gmail.Service]). *)
Variant File : Type := FileOf (descriptor : N).
Variant OAuthConfig : Type := OAuthConfigOf (id : N).
Variant HTTPClient : Type := HTTPClientOf (id : N).
Variant Service : Type := ServiceOf (id : N).

(** An [oauth2.Token], opaque as the [Tokens] field of [config] has it;
    a [*oauth2.Token] is nil ([None]) or points to one. *)
Definition Token : Type := string.

(** [os.O_RDWR] and the permission bits [0600]. *)
Definition O_RDWR : Z := 2.
Definition mode0600 : Z := 384.

(** [gmail.GmailInsertScope] *)
Definition GmailInsertScope : string :=
  "https://www.googleapis.com/auth/gmail.insert".

(** The [log.Fatalf] lines of [main.go]. *)
Inductive fatalLine : Type :=
| FatalOpen (e : errval)       (* "Failed to open config file: %v" *)
| FatalParse (e : errval)      (* "Failed to parse config file: %v" *)
| FatalNoAccounts              (* "Failed to parse config file: IMAP
                                  credentials section is empty or not a
                                  JSON list" *)
| FatalSeek (e : errval)       (* "Unable to seek config file: %v" *)
| FatalWriteBack (e : errval)  (* "Unable to write back to config file: %v" *)
| FatalReencode (e : errval)   (* "JSON re-encode error: %v" *)
| FatalSecret (e : errval)     (* "Unable to parse client secret to oauth2
                                  config: %v" *)
| FatalService (e : errval).   (* "Unable to retrieve Gmail client: %v" *)

(** The [log.Printf] line of [main]. *)
Inductive startLine : Type :=
| StartupComplete.             (* "Startup complete; waiting for mail" *)

(** The calls of the start-up code, indexed by what they return: a Go
    call that returns a value and an error returns the pair. *)
Variant startE : Type -> Type :=
| FlagParse : startE unit
| FlagArg (i : nat) : startE string
| OpenFile (name : string) (flag perm : Z) : startE (File * error)
    (* os.OpenFile *)
| Decode (f : File) : startE (option config * error)
    (* json.NewDecoder(f).Decode(&cfg): the pointer [cfg] after the
       call, and the error *)
| Seek (f : File) (offset whence : Z) : startE (Z * error)
| Encode (f : File) (c : config) : startE error
    (* json.NewEncoder(f).Encode(c) *)
| FileClose (f : File) : startE error
| Marshal (v : string) : startE (bytes * error)
| ConfigFromJSON (jsonKey : bytes) (scope : list string)
    : startE (OAuthConfig * error)
| GetTokenFromWeb (oauth : OAuthConfig) : startE (option Token)
| OAuthClient (oauth : OAuthConfig) (tok : option Token) : startE HTTPClient
| NewService (client : HTTPClient) : startE (Service * error)
| Go (imapCreds : imapCredentials) (mail : Service) : startE unit
    (* go func() { for { doSession(&imapCreds, mail); ... } }() *)
| Printf (l : startLine) : startE unit
| Fatalf (l : fatalLine) : startE unit
    (* log.Fatalf: the process exits *)
| NilDereference : startE unit
    (* a field of a nil pointer is read: the program panics *)
| SelectForever : startE unit.
    (* select {} *)

(** A call of the start-up code with its answer. *)
Inductive startEvent : Type :=
| EvFlagParse
| EvFlagArg (i : nat) (r : string)
| EvOpenFile (name : string) (flag perm : Z) (r : File * error)
| EvDecode (f : File) (r : option config * error)
| EvSeek (f : File) (offset whence : Z) (r : Z * error)
| EvEncode (f : File) (c : config) (r : error)
| EvFileClose (f : File) (r : error)
| EvMarshal (v : string) (r : bytes * error)
| EvConfigFromJSON (jsonKey : bytes) (scope : list string)
    (r : OAuthConfig * error)
| EvGetTokenFromWeb (oauth : OAuthConfig) (r : option Token)
| EvOAuthClient (oauth : OAuthConfig) (tok : option Token) (r : HTTPClient)
| EvNewService (client : HTTPClient) (r : Service * error)
| EvGo (imapCreds : imapCredentials) (mail : Service)
| EvPrintf (l : startLine)
| EvFatalf (l : fatalLine)
| EvNilDereference
| EvSelectForever.

Definition startTrace : Type := list startEvent.

Definition noted {X} (e : startE X) : X -> startEvent :=
  match e in startE X return X -> startEvent with
  | FlagParse => fun _ => EvFlagParse
  | FlagArg i => EvFlagArg i
  | OpenFile n fl p => EvOpenFile n fl p
  | Decode f => EvDecode f
  | Seek f o wh => EvSeek f o wh
  | Encode f c => EvEncode f c
  | FileClose f => EvFileClose f
  | Marshal v => EvMarshal v
  | ConfigFromJSON b s => EvConfigFromJSON b s
  | GetTokenFromWeb o => EvGetTokenFromWeb o
  | OAuthClient o t => EvOAuthClient o t
  | NewService c => EvNewService c
  | Go i m => fun _ => EvGo i m
  | Printf l => fun _ => EvPrintf l
  | Fatalf l => fun _ => EvFatalf l
  | NilDereference => fun _ => EvNilDereference
  | SelectForever => fun _ => EvSelectForever
  end.

Definition invoke {X} (e : startE X) : itree startE X := ITree.trigger e.

(** [if err != nil { log.Fatalf(line, err) }] *)
Definition fatalIf (err : error) (line : errval -> fatalLine)
  : itree startE unit :=
  match err with
  | Some e => invoke (Fatalf (line e))
  | None => Ret tt
  end.

(** [func (c *config) writeTo(f *os.File)]: seek to the start of the
    file and encode the configuration there. *)
Definition writeTo (c : config) (f : File) : itree startE unit :=
  '(_, err) <- invoke (Seek f 0 0);;
  fatalIf err FatalSeek;;
  err <- invoke (Encode f c);;
  fatalIf err FatalWriteBack.

(** [getGmailService]: the stored token is used when there is one;
    otherwise a token is requested and the configuration, a copy of the
    caller's with that token, is written back to the file.
    [getTokenFromWeb] is not among the sources at hand and is taken as
    a call that returns a token pointer. *)
Definition getGmailService (cfg : config) (cfgFile : File)
  : itree startE Service :=
  '(secrets, err) <- invoke (Marshal (Secrets cfg));;
  fatalIf err FatalReencode;;
  '(oauth, err) <- invoke (ConfigFromJSON secrets [GmailInsertScope]);;
  fatalIf err FatalSecret;;
  tok <- match Tokens cfg with
         | Some t => Ret (Some t)
         | None =>
             tok <- invoke (GetTokenFromWeb oauth);;
             let cfg := {| Imap := Imap cfg; Secrets := Secrets cfg;
                           Tokens := tok |} in
             writeTo cfg cfgFile;;
             Ret tok
         end;;
  client <- invoke (OAuthClient oauth tok);;
  '(srv, err) <- invoke (NewService client);;
  fatalIf err FatalService;;
  Ret srv.

(** [for _, a := range l { body }] *)
Fixpoint forRange {A} (l : list A) (body : A -> itree startE unit)
  : itree startE unit :=
  match l with
  | [] => Ret tt
  | a :: rest => body a;; forRange rest body
  end.

(** [main].  [cfg] is a [*config] that [Decode] may leave nil; the
    first read of one of its fields then panics. *)
Definition main : itree startE unit :=
  invoke FlagParse;;
  name <- invoke (FlagArg 0);;
  '(f, err) <- invoke (OpenFile name O_RDWR mode0600);;
  fatalIf err FatalOpen;;
  '(cfg, err) <- invoke (Decode f);;
  fatalIf err FatalParse;;
  match cfg with
  | None => invoke NilDereference
  | Some cfg =>
      (if (length (Imap cfg) <=? 0)%nat then invoke (Fatalf FatalNoAccounts)
       else Ret tt);;
      mail <- getGmailService cfg f;;
      invoke (FileClose f);;
      forRange (Imap cfg) (fun imapCreds => invoke (Go imapCreds mail));;
      invoke (Printf StartupComplete);;
      invoke SelectForever
  end.

(** ** Running the start-up code *)

Definition startWorld : Type := startTrace -> forall X, startE X -> X.

(** How the process stops at a call that does not return. *)
Inductive halt : Type :=
| ExitFatal       (* log.Fatalf *)
| PanicNil        (* nil pointer dereference *)
| BlockForever.   (* select {} *)

Definition halts {X} (e : startE X) : option halt :=
  match e with
  | Fatalf _ => Some ExitFatal
  | NilDereference => Some PanicNil
  | SelectForever => Some BlockForever
  | _ => None
  end.

(** What a bounded run of the start-up code has reached. *)
Inductive ending (R : Type) : Type :=
| Returned (r : R) (more : nat)
| Halted (h : halt)
| Unfinished.
Arguments Returned {R} r more.
Arguments Halted {R} h.
Arguments Unfinished {R}.

Fixpoint start {R} (fuel : nat) (w : startWorld) (t : itree startE R)
    (tr : startTrace) : ending R * startTrace :=
  match observe t with
  | RetF r => (Returned r fuel, tr)
  | TauF t' =>
      match fuel with
      | O => (Unfinished, tr)
      | S f => start f w t' tr
      end
  | VisF e k =>
      match fuel with
      | O => (Unfinished, tr)
      | S f =>
          let x := w tr _ e in
          let tr' := tr ++ [noted e x] in
          match halts e with
          | Some h => (Halted h, tr')
          | None => start f w (k x) tr'
          end
      end
  end.

(** ** What a start-up trace shows *)

(** The goroutines started, in order. *)
Definition spawned (tr : startTrace) : list (imapCredentials * Service) :=
  flat_map (fun x => match x with
                     | EvGo i m => [(i, m)]
                     | _ => []
                     end) tr.

(** The configurations written back to the file. *)
Definition written (tr : startTrace) : list config :=
  flat_map (fun x => match x with
                     | EvEncode _ c _ => [c]
                     | _ => []
                     end) tr.

(** The tokens obtained from the web. *)
Definition requested (tr : startTrace) : list (option Token) :=
  flat_map (fun x => match x with
                     | EvGetTokenFromWeb _ t => [t]
                     | _ => []
                     end) tr.

(** The tokens handed to the OAuth client. *)
Definition presented (tr : startTrace) : list (option Token) :=
  flat_map (fun x => match x with
                     | EvOAuthClient _ t _ => [t]
                     | _ => []
                     end) tr.

(** The accounts of the configurations decoded. *)
Definition decodedAccounts (tr : startTrace) : list imapCredentials :=
  flat_map (fun x => match x with
                     | EvDecode _ (Some cfg, _) => Imap cfg
                     | _ => []
                     end) tr.

(** Whether the call is part of setting up Gmail access or the
    sessions: anything after the configuration has been read. *)
Definition isSetUp (x : startEvent) : bool :=
  match x with
  | EvFlagParse | EvFlagArg _ _ | EvOpenFile _ _ _ _ | EvDecode _ _
  | EvFatalf _ | EvNilDereference => false
  | _ => true
  end.

(** The seeks on the file. *)
Definition sought (tr : startTrace) : list (Z * Z) :=
  flat_map (fun x => match x with
                     | EvSeek _ offset whence _ => [(offset, whence)]
                     | _ => []
                     end) tr.

(** ** The configuration file *)

(** The bytes of the open file and the offset of the next read or
    write. *)
Record fileState : Type := {
  data : bytes;
  position : nat
}.

(** [Seek(offset, whence)]: from the start (0), from the current offset
    (1) or from the end (2). *)
Definition seek (offset whence : Z) (st : fileState) : fileState :=
  let base :=
    if (whence =? 0)%Z then 0%Z
    else if (whence =? 1)%Z then Z.of_nat (position st)
    else Z.of_nat (length (data st)) in
  {| data := data st; position := Z.to_nat (base + offset) |}.

(** A write at the offset replaces the bytes that are there and
    extends the file when it goes beyond its end; nothing is cut off. *)
Definition overwrite (bs : bytes) (st : fileState) : fileState :=
  {| data := firstn (position st) (data st)
             ++ repeat Byte.x00 (position st - length (data st))
             ++ bs
             ++ skipn (position st + length bs) (data st);
     position := position st + length bs |}.

Section FileModel.

(** What [Encode] writes for a configuration: its JSON text and a
    newline. *)
Variable encoding : config -> bytes.

Definition fileStep (st : fileState) (x : startEvent) : fileState :=
  match x with
  | EvSeek _ offset whence (_, None) => seek offset whence st
  | EvEncode _ c None => overwrite (encoding c) st
  | _ => st
  end.

(** The file after the calls [tr]. *)
Definition fileAfter (st : fileState) (tr : startTrace) : fileState :=
  fold_left fileStep tr st.

End FileModel.

(** ** A scripted environment for the start-up *)

(** The answers to the calls of the start-up code. *)
Record bootScript : Type := {
  argument : string;
  opening : File * error;
  decoding : option config * error;
  seeking : Z * error;
  encodingAnswer : error;
  closingAnswer : error;
  marshalling : bytes * error;
  oauthAnswer : OAuthConfig * error;
  webToken : option Token;
  clientAnswer : HTTPClient;
  serviceAnswer : Service * error
}.

Definition scripted (s : bootScript) : startWorld :=
  fun _ X e =>
    match e in startE X return X with
    | FlagParse => tt
    | FlagArg _ => argument s
    | OpenFile _ _ _ => opening s
    | Decode _ => decoding s
    | Seek _ _ _ => seeking s
    | Encode _ _ => encodingAnswer s
    | FileClose _ => closingAnswer s
    | Marshal _ => marshalling s
    | ConfigFromJSON _ _ => oauthAnswer s
    | GetTokenFromWeb _ => webToken s
    | OAuthClient _ _ => clientAnswer s
    | NewService _ => serviceAnswer s
    | Go _ _ => tt
    | Printf _ => tt
    | Fatalf _ => tt
    | NilDereference => tt
    | SelectForever => tt
    end.

Definition secondAccount : imapCredentials :=
  {| Address := "mail.example.org:993";
     Username := "bob@example.org";
     Password := "swordfish" |}.

(** A configuration of two accounts with no stored token. *)
Definition twoAccounts : config :=
  {| Imap := [account; secondAccount];
     Secrets := "{}";
     Tokens := None |}.

(** The first run: everything works and a token is requested. *)
Definition firstRun : bootScript :=
  {| argument := "/turbogmailify.conf";
     opening := (FileOf 3, None);
     decoding := (Some twoAccounts, None);
     seeking := (0%Z, None);
     encodingAnswer := None;
     closingAnswer := None;
     marshalling := ([Byte.x7b; Byte.x7d], None);
     oauthAnswer := (OAuthConfigOf 1, None);
     webToken := Some "ya29.token";
     clientAnswer := HTTPClientOf 1;
     serviceAnswer := (ServiceOf 1, None) |}.

(** The configuration file lists no account. *)
Definition noAccounts : bootScript :=
  {| argument := "/turbogmailify.conf";
     opening := (FileOf 3, None);
     decoding := (Some {| Imap := []; Secrets := "{}"; Tokens := None |},
                  None);
     seeking := (0%Z, None);
     encodingAnswer := None;
     closingAnswer := None;
     marshalling := ([Byte.x7b; Byte.x7d], None);
     oauthAnswer := (OAuthConfigOf 1, None);
     webToken := Some "ya29.token";
     clientAnswer := HTTPClientOf 1;
     serviceAnswer := (ServiceOf 1, None) |}.

(** The encoding of a configuration, for the example: the bytes of its
    secrets and a newline. *)
Definition secretsLine (c : config) : bytes :=
  list_byte_of_string (Secrets c) ++ [Byte.x0a].

(* ===================================================================== *)
(** * Laws of [run] *)
(* ===================================================================== *)

Lemma run_eq {R} fuel w (t : itree sessionE R) tr :
  run fuel w t tr =
  match observe t with
  | RetF r => Done r tr fuel
  | TauF t' =>
      match fuel with
      | O => Running tr
      | S f => run f w t' tr
      end
  | VisF e k =>
      match fuel with
      | O => Running tr
      | S f => run f w (k (w tr _ e)) (tr ++ [record e (w tr _ e)])
      end
  end.
Proof. destruct fuel; reflexivity. Qed.

(** [run] only looks at a tree through [observe]. *)
Lemma run_observing {R} fuel w (t u : itree sessionE R) tr :
  observing eq t u -> run fuel w t tr = run fuel w u tr.
Proof.
  intros [H]. rewrite (run_eq fuel w t), (run_eq fuel w u), H. reflexivity.
Qed.

Lemma run_ret {R} fuel w (r : R) tr : run fuel w (Ret r) tr = Done r tr fuel.
Proof. rewrite run_eq. reflexivity. Qed.

Lemma run_call {X} fuel w (e : sessionE X) tr :
  run fuel w (call e) tr =
  match fuel with
  | O => Running tr
  | S f => Done (w tr _ e) (tr ++ [record e (w tr _ e)]) f
  end.
Proof.
  rewrite run_eq. cbn. destruct fuel; [reflexivity | apply run_ret].
Qed.

(** Sequencing: the continuation runs on what the first part left. *)
Lemma run_bind {R T} fuel w (t : itree sessionE R) (k : R -> itree sessionE T) :
  forall tr,
    run fuel w (ITree.bind t k) tr =
    match run fuel w t tr with
    | Done r tr' more => run more w (k r) tr'
    | Running tr' => Running tr'
    end.
Proof.
  revert t. induction fuel as [|f IH]; intros t tr.
  - rewrite (run_eq 0 w (ITree.bind t k)), (run_eq 0 w t), observe_bind.
    destruct (observe t); cbn; try reflexivity.
  - rewrite (run_eq (S f) w (ITree.bind t k)), (run_eq (S f) w t), observe_bind.
    destruct (observe t); cbn.
    + reflexivity.
    + apply IH.
    + apply IH.
Qed.

(** One turn of a loop. *)
Lemma run_iter {I R} fuel w (body : I -> itree sessionE (I + R)) i tr :
  run fuel w (ITree.iter body i) tr =
  match run fuel w (body i) tr with
  | Done (inl i') tr' (S more) => run more w (ITree.iter body i') tr'
  | Done (inl _) tr' O => Running tr'
  | Done (inr r) tr' more => Done r tr' more
  | Running tr' => Running tr'
  end.
Proof.
  rewrite (run_observing fuel w _ _ tr (unfold_aloop_ body i)), run_bind.
  destruct (run fuel w (body i) tr) as [[i'|r] tr' more|tr']; try reflexivity.
  - rewrite run_eq. cbn. reflexivity.
  - apply run_ret.
Qed.

Lemma run_forever {R T} fuel w (t : itree sessionE R) tr :
  run fuel w (ITree.forever t : itree sessionE T) tr =
  match run fuel w t tr with
  | Done _ tr' (S more) => run more w (ITree.forever t) tr'
  | Done _ tr' O => Running tr'
  | Running tr' => Running tr'
  end.
Proof.
  rewrite (run_observing fuel w _ _ tr (unfold_forever_ t)), run_bind.
  destruct (run fuel w t tr) as [r tr' more|tr']; try reflexivity.
  rewrite run_eq. cbn. reflexivity.
Qed.

(** A run never ends with more steps left than it was given. *)
Lemma run_left_le {R} fuel w :
  forall (t : itree sessionE R) tr r tr' more,
    run fuel w t tr = Done r tr' more -> more <= fuel.
Proof.
  induction fuel as [|f IH]; intros t tr r tr' more; rewrite run_eq;
    destruct (observe t); intros H; try discriminate.
  - inversion H; subst. apply Nat.le_refl.
  - inversion H; subst. apply Nat.le_refl.
  - apply IH in H. lia.
  - apply IH in H. lia.
Qed.

(* ===================================================================== *)
(** * A logic of bounded runs *)
(* ===================================================================== *)

Section SafeRules.

Variable w : world.

Variable I : trace -> Prop.

Lemma safe_ret {R} (r : R) tr (K : R -> trace -> Prop) :
  K r tr -> safe w I (Ret r) tr K.
Proof. intros H fuel. rewrite run_ret. exact H. Qed.

Lemma safe_call {X} (e : sessionE X) tr (K : X -> trace -> Prop) :
  I tr ->
  K (w tr _ e) (tr ++ [record e (w tr _ e)]) ->
  safe w I (call e) tr K.
Proof. intros HI HK fuel. rewrite run_call. destruct fuel; assumption. Qed.

Lemma safe_bind {R T} (t : itree sessionE R) (k : R -> itree sessionE T)
    tr (K : T -> trace -> Prop) :
  safe w I t tr (fun r tr' => safe w I (k r) tr' K) ->
  safe w I (ITree.bind t k) tr K.
Proof.
  intros H fuel. rewrite run_bind. specialize (H fuel).
  destruct (run fuel w t tr) as [r tr' more|tr']; [apply H | exact H].
Qed.

Lemma safe_mono {R} (t : itree sessionE R) tr (K K' : R -> trace -> Prop) :
  safe w I t tr K -> (forall r tr', K r tr' -> K' r tr') -> safe w I t tr K'.
Proof.
  intros H HK fuel. specialize (H fuel).
  destruct (run fuel w t tr); auto.
Qed.

(** Loops, with an invariant at the head of the body. *)
Lemma safe_iter {A R} (body : A -> itree sessionE (A + R))
    (Inv : A -> trace -> Prop) (K : R -> trace -> Prop) :
  (forall i tr, Inv i tr -> I tr) ->
  (forall i tr, Inv i tr ->
     safe w I (body i) tr
       (fun lr tr' => match lr with
                      | inl i' => Inv i' tr'
                      | inr r => K r tr'
                      end)) ->
  forall i tr, Inv i tr -> safe w I (ITree.iter body i) tr K.
Proof.
  intros HI Hbody i tr Hinv fuel. revert i tr Hinv.
  induction fuel as [fuel IH] using (well_founded_induction lt_wf).
  intros i tr Hinv. rewrite run_iter.
  pose proof (Hbody i tr Hinv fuel) as Hb.
  destruct (run fuel w (body i) tr) as [[i'|r] tr' more|tr'] eqn:E;
    try exact Hb.
  destruct more as [|more]; [exact (HI _ _ Hb)|].
  apply run_left_le in E. apply IH; [lia | exact Hb].
Qed.

Lemma safe_forever {R T} (t : itree sessionE R) (Inv : trace -> Prop) :
  (forall tr, Inv tr -> I tr) ->
  (forall tr, Inv tr -> safe w I t tr (fun _ tr' => Inv tr')) ->
  forall tr (K : T -> trace -> Prop),
    Inv tr -> safe w I (ITree.forever t) tr K.
Proof.
  intros HI Hbody tr K Hinv fuel. revert tr Hinv.
  induction fuel as [fuel IH] using (well_founded_induction lt_wf).
  intros tr Hinv. rewrite run_forever.
  pose proof (Hbody tr Hinv fuel) as Hb.
  destruct (run fuel w t tr) as [r tr' more|tr'] eqn:E; try exact Hb.
  destruct more as [|more]; [exact (HI _ Hb)|].
  apply run_left_le in E. apply IH; [lia | exact Hb].
Qed.

End SafeRules.

(* ===================================================================== *)
(** * Laws of traces *)
(* ===================================================================== *)

Lemma always_nil R : always R [].
Proof. intros pre x post H. destruct pre; discriminate. Qed.

Lemma always_snoc R tr x : always R tr -> R tr x -> always R (tr ++ [x]).
Proof.
  intros Htr Hx pre y post E.
  destruct post as [|z post' _] using rev_ind.
  - apply app_inj_tail in E. destruct E as [-> ->]. exact Hx.
  - rewrite app_comm_cons, app_assoc in E.
    apply app_inj_tail in E. destruct E as [E _].
    exact (Htr _ _ _ E).
Qed.

Lemma ends_snoc1 tr a : ends (tr ++ [a]) [a].
Proof. exists tr. reflexivity. Qed.

Lemma ends_snoc2 tr a b : ends ((tr ++ [a]) ++ [b]) [a; b].
Proof. exists tr. rewrite <- app_assoc. reflexivity. Qed.

Lemma ends_snoc3 tr a b c : ends (((tr ++ [a]) ++ [b]) ++ [c]) [a; b; c].
Proof. exists tr. rewrite <- !app_assoc. reflexivity. Qed.

Lemma ends_snoc4 tr a b c d :
  ends ((((tr ++ [a]) ++ [b]) ++ [c]) ++ [d]) [a; b; c; d].
Proof. exists tr. rewrite <- !app_assoc. reflexivity. Qed.

(** Two endings of one trace: the shorter is the end of the longer. *)
Lemma ends_suffix {tr l1 l2} :
  ends tr l1 -> ends tr l2 -> length l1 <= length l2 ->
  skipn (length l2 - length l1) l2 = l1.
Proof.
  intros [p1 ->] [p2 E] Hlen.
  apply app_eq_app in E. destruct E as [l [[-> ->] | [-> ->]]].
  - rewrite length_app.
    replace (length l + length l1 - length l1) with (length l) by lia.
    rewrite skipn_app, skipn_all, Nat.sub_diag. reflexivity.
  - rewrite length_app in Hlen.
    assert (length l = 0) as Hl by lia.
    destruct l; [|discriminate]. cbn [app].
    rewrite Nat.sub_diag. reflexivity.
Qed.

Lemma snoc_cons (pre : trace) a b l :
  pre ++ a :: b :: l = (pre ++ [a]) ++ b :: l.
Proof. rewrite <- app_assoc. reflexivity. Qed.

Create HintDb session.
#[local] Hint Resolve ends_snoc1 ends_snoc2 ends_snoc3 ends_snoc4 : session.

(* ===================================================================== *)
(** * Every call of a session is allowed *)
(* ===================================================================== *)

Section Master.

Variable w : world.
Variable supervised : bool.
Variable imap : imapCredentials.

Local Abbreviation ok := (always (allowed supervised imap)).

Lemma safe_call_always {X} (e : sessionE X) tr (K : X -> trace -> Prop) :
  ok tr ->
  (forall x, allowed supervised imap tr (record e x)) ->
  (forall x, ok (tr ++ [record e x]) -> K x (tr ++ [record e x])) ->
  safe w ok (call e) tr K.
Proof.
  intros Htr Hx HK. apply safe_call; [exact Htr|].
  apply HK. apply always_snoc; [exact Htr | apply Hx].
Qed.

(** Pick the disjunct that holds. *)
Ltac disj :=
  first [ solve [eauto 6 with session]
        | left; solve [eauto 6 with session]
        | right; disj ].

Ltac fin0 :=
  first [ solve [eauto 3]
        | unfold nil; cbn [allowed allowedLog]; rewrite ?snoc_cons;
          first [ solve [eauto 6 with session]
                | solve [repeat (first [ assumption | reflexivity
                                       | solve [eauto 2 with session]
                                       | split | eexists ]);
                         unfold failed; disj] ] ].
Ltac fin := try fin0.

(** Run symbolically as far as the tree is known, splitting on every
    answer. *)
Ltac symex :=
  repeat
    (cbn beta iota;
     lazymatch goal with
     | |- safe _ _ (ITree.bind _ _) _ _ => apply safe_bind
     | |- safe _ _ (call _) _ _ =>
         apply safe_call_always;
         [assumption | intros ?; cbn [record]; try fin0
                     | intros ? ?; cbn [record]]
     | |- safe _ _ (Ret _) _ _ => apply safe_ret; try fin0
     | |- safe _ _ (match ?x with _ => _ end) _ _ => is_var x; destruct x
     end).

Lemma deleteMessage_safe tr u :
  ok tr ->
  (forall r, allowed supervised imap tr (EvStore (UIDSetNum u) addDeleted r)) ->
  safe w ok (deleteMessage u) tr
    (leaves supervised imap (fun tr' => ends tr' [EvExpunge None])).
Proof.
  intros Htr Hstore. unfold deleteMessage, leaves. symex.
Qed.

Lemma doIdle_safe tr :
  ok tr ->
  (forall r, allowed supervised imap tr (EvIdle r)) ->
  safe w ok (doIdle maxPollTime) tr
    (leaves supervised imap (fun tr' => ends tr' [EvIdleWait None])).
Proof.
  intros Htr Hidle. unfold doIdle, leaves. symex.
Qed.

Lemma importToGmail_safe tr m :
  ok tr ->
  (forall r, allowed supervised imap tr (EvImport (importCall m) r)) ->
  safe w ok (importToGmail m) tr
    (leaves supervised imap (fun tr' => exists r, tr' = tr ++ [EvImport (importCall m) (inl r)]
                                /\ HTTPStatusCode r = 200%Z)).
Proof.
  intros Htr Himport. unfold importToGmail, leaves. symex.
  destruct (HTTPStatusCode i =? 200)%Z eqn:E; cbn [negb].
  - apply Z.eqb_eq in E. symex.
  - apply Z.eqb_neq in E. symex.
Qed.

Lemma fetchFirstMessage_safe tr :
  ok tr ->
  (forall r, allowed supervised imap tr (EvFetch (SeqSetNum 1) wholeBody r)) ->
  safe w ok fetchFirstMessage tr
    (fun res tr' =>
       ok tr' /\
       match res with
       | (_, Some e) => failed tr' e
       | (None, None) =>
           tr' = (tr ++ [EvFetch (SeqSetNum 1) wholeBody (inl [])])
                   ++ [EvFetchClose]
       | (Some m, None) =>
           exists b rest,
             m = messageOf b /\
             tr' = (tr ++ [EvFetch (SeqSetNum 1) wholeBody
                                   (inl (b :: rest))])
                     ++ [EvFetchClose]
       end).
Proof.
  intros Htr Hfetch. unfold fetchFirstMessage. symex.
  destruct l as [|b rest]; cbn [length Nat.leb]; symex.
Qed.

Lemma drainPass_safe tr :
  ok tr -> atHead tr ->
  safe w ok
    (drainPass importToGmail importingLine imap) tr
    (fun lr tr' =>
       ok tr' /\
       match lr with
       | inl _ => atHead tr'
       | inr Break => drained supervised imap tr'
       | inr (Return err) => exists e, err = Some e /\ failed tr' e
       end).
Proof.
  intros Htr Hhead. unfold drainPass, importingLine. symex.
  destruct (NumMessages s <=? 0)%N eqn:E.
  - apply N.leb_le in E. symex. split; [assumption|].
    intros r. cbn [allowed]. left. exists s. split; [fin|lia].
  - apply N.leb_gt in E. symex. eapply safe_mono.
    { apply fetchFirstMessage_safe; [assumption|].
      intros r. cbn [allowed]. fin. }
    cbn beta. intros [[m|] [e|]] tr' [Htr' Hres];
      try destruct Hres as (b & rest & -> & ->); try subst tr'; symex.
    eapply safe_mono.
    { apply importToGmail_safe; [assumption|].
      intros r. cbn [allowed]. fin. }
    cbn beta. unfold leaves.
    intros [e|] tr2 [Htr2 Hres2];
      try destruct Hres2 as (r2 & -> & Hr2); symex.
    eapply safe_mono.
    { apply deleteMessage_safe; [assumption|].
      intros r. cbn [allowed]. fin. }
    cbn beta. unfold leaves. intros [e|] tr3 [Htr3 Hres3]; symex.
Qed.

Lemma drain_safe tr :
  ok tr -> atHead tr ->
  safe w ok (ITree.iter (fun _ : unit => drainPass importToGmail importingLine imap) tt)
    tr
    (fun ex tr' =>
       ok tr' /\
       match ex with
       | Break => drained supervised imap tr'
       | Return err => exists e, err = Some e /\ failed tr' e
       end).
Proof.
  intros Htr Hhead.
  apply safe_iter with (Inv := fun _ tr => ok tr /\ atHead tr).
  - intros _ tr0 [H _]. exact H.
  - intros _ tr0 [H H0]. eapply safe_mono.
    + apply drainPass_safe; assumption.
    + intros [[]|[|err]] tr' H'; exact H'.
  - split; assumption.
Qed.

Lemma sessionPass_safe tr :
  ok tr -> atHead tr ->
  safe w ok (sessionPass importToGmail importingLine imap) tr
    (fun lr tr' =>
       ok tr' /\
       match lr with
       | inl _ => atHead tr'
       | inr err => exists e, err = Some e /\ failed tr' e
       end).
Proof.
  intros Htr Hhead. unfold sessionPass. symex.
  eapply safe_mono; [apply drain_safe; assumption|].
  cbn beta. intros [|err] tr' [Htr' Hres]; symex.
  - eapply safe_mono; [apply doIdle_safe; assumption|].
    cbn beta. unfold leaves. intros [e|] tr2 [Htr2 Hres2]; symex.
Qed.

(** A session, started at the beginning or after the supervisor's
    pause, makes allowed calls only and returns a non-nil error. *)
Lemma doSession_safe tr :
  ok tr ->
  tr = [] \/ (supervised = true /\ ends tr [EvSleep maxPollTime]) ->
  safe w ok (doSession imap) tr
    (fun r tr' => ok tr' /\ exists e, r = Some e /\ returned imap tr' e).
Proof.
  intros Htr Hstart. unfold doSession, doSessionWith. symex.
  all: try solve [unfold returned; left; eexists; split; [reflexivity|fin0]].
  all: try solve [unfold returned; fin0].
  eapply safe_mono.
  - apply safe_iter with
      (Inv := fun _ tr => ok tr /\ atHead tr)
      (K := fun err tr' => ok tr' /\ exists e, err = Some e /\ failed tr' e).
    + intros _ tr0 [H1 _]. exact H1.
    + intros _ tr0 [H1 H2]. eapply safe_mono.
      * apply sessionPass_safe; assumption.
      * intros [[]|err] tr' H'; exact H'.
    + split; [assumption|]. unfold atHead. fin.
  - cbn beta. intros err tr' [Htr' (e & -> & Hf)]. symex.
Qed.

Lemma supervise_safe (K : void -> trace -> Prop) :
  supervised = true -> safe w ok (supervise imap) [] K.
Proof.
  intros Hsup. unfold supervise, superviseWith.
  apply safe_forever with
    (Inv := fun tr =>
              ok tr /\
              (tr = [] \/ (supervised = true /\ ends tr [EvSleep maxPollTime]))).
  - intros tr [H _]. exact H.
  - intros tr [H1 H2]. symex.
    eapply safe_mono; [apply doSession_safe; assumption|].
    cbn beta. intros r tr' [Htr' (e & -> & Hret)]. symex.
    + cbn [allowed]. split; [exact Hsup|]. split; [reflexivity|].
      destruct Hret as [(pre & -> & _)|Hret]; eauto with session.
    + eauto with session.
  - split; [apply always_nil | left; reflexivity].
Qed.

End Master.

(** Every call of a session of [main.go] is allowed by what went before
    it, and a session that returns has returned a non-nil error. *)
Lemma doSession_allowed w imap fuel :
  always (allowed false imap) (traceOf (run fuel w (doSession imap) [])).
Proof.
  pose proof (doSession_safe w false imap [] (always_nil _)
                (or_introl eq_refl) fuel) as H.
  destruct (run fuel w (doSession imap) []); [apply H | exact H].
Qed.

Lemma doSession_returned {w imap fuel r tr n} :
  run fuel w (doSession imap) [] = Done r tr n ->
  exists e, r = Some e /\ returned imap tr e.
Proof.
  intros E.
  pose proof (doSession_safe w false imap [] (always_nil _)
                (or_introl eq_refl) fuel) as H.
  rewrite E in H. apply H.
Qed.

(** The same for the sessions that a supervisor runs one after another. *)
Lemma supervise_allowed w imap fuel :
  always (allowed true imap) (traceOf (run fuel w (supervise imap) [])).
Proof.
  pose proof (supervise_safe w true imap (fun _ _ => True) eq_refl fuel) as H.
  destruct (run fuel w (supervise imap) []) as [[]|]. exact H.
Qed.

(* ===================================================================== *)
(** * What follows what *)
(* ===================================================================== *)

Lemma always_at {R tr pre x post} :
  always R tr -> tr = pre ++ x :: post -> R pre x.
Proof. intros H E. exact (H _ _ _ E). Qed.

Lemma always_next {R tr pre x y post} :
  always R tr -> tr = pre ++ x :: y :: post -> R (pre ++ [x]) y.
Proof.
  intros H E. apply (H (pre ++ [x]) y post).
  rewrite E, <- app_assoc. reflexivity.
Qed.

Lemma ends_nil_cons {a l} : ends [] (a :: l) -> False.
Proof. intros [pre E]. destruct pre; discriminate. Qed.

Ltac destr :=
  repeat match goal with
         | H : _ /\ _ |- _ => destruct H
         | H : exists _, _ |- _ => destruct H
         | H : _ \/ _ |- _ => destruct H
         | H : False |- _ => destruct H
         end.

(** Confront every ending of the trace [p] in the context with the
    known ending [He]; cases that disagree go away. *)
Ltac clash He :=
  repeat match goal with
         | H : ends ?p ?l |- _ =>
             lazymatch type of He with
             | ends p l => fail
             | ends p _ => idtac
             end;
             let E := fresh "E" in
             first
               [ pose proof (ends_suffix H He ltac:(cbn [length]; lia)) as E
               | pose proof (ends_suffix He H ltac:(cbn [length]; lia)) as E ];
             cbn [length Nat.sub skipn] in E;
             first [ discriminate E | inversion E; subst; clear E H ]
         | H : ?p = [] |- _ =>
             lazymatch type of He with ends p _ => idtac end;
             rewrite H in He; destruct (ends_nil_cons He)
         end.

(** The calls that may follow a trace with the ending [He]: split on the
    call [x] allowed after [p]. *)
Ltac after Hx He :=
  match type of Hx with
  | allowed _ _ _ ?x =>
      destruct x as [| | | | | | | | | | | | | | [] |];
      cbn [allowed allowedLog] in Hx; unfold failed in Hx;
      destr; clash He; try subst
  end.

(** Once a call of an open connection has failed and been logged, the
    session only closes the connection. *)
Lemma after_failure {w imap fuel pre post e} :
  traceOf (run fuel w (doSession imap) []) = pre ++ post ->
  failed pre e ->
  post = [] \/ post = [EvClientClose].
Proof.
  intros E Hf. pose proof (doSession_allowed w imap fuel) as Hok.
  destruct post as [|x post]; [left; reflexivity | right].
  assert (x = EvClientClose) as ->.
  { pose proof (always_at Hok E) as Hx. unfold failed in Hf.
    destruct Hf as [Hf|[Hf|[Hf|[Hf|[Hf|[Hf|[Hf|[Hf|[Hf|Hf]]]]]]]]];
      destr;
      match goal with He : ends pre _ |- _ => after Hx He end;
      try reflexivity; try congruence. }
  destruct post as [|y post]; [reflexivity | exfalso].
  pose proof (always_next Hok E) as Hy.
  pose proof (ends_snoc1 pre EvClientClose) as He.
  after Hy He; discriminate.
Qed.

Lemma failed_inj {tr e e'} : failed tr e -> failed tr e' -> e = e'.
Proof.
  unfold failed. intros H1 H2.
  destruct H1 as [H1|[H1|[H1|[H1|[H1|[H1|[H1|[H1|[H1|H1]]]]]]]]];
    destr;
    match goal with He : ends tr _ |- _ => clash He end;
    try reflexivity; try congruence.
Qed.

(** A session that returns after such a failure has just closed the
    connection, and returns the error of the failed call. *)
Lemma failure_is_returned {w imap fuel pre post e r tr n} :
  run fuel w (doSession imap) [] = Done r tr n ->
  tr = pre ++ post -> failed pre e ->
  post = [EvClientClose] /\ r = Some e.
Proof.
  intros Hrun E Hf.
  assert (traceOf (run fuel w (doSession imap) []) = pre ++ post) as E'
      by (rewrite Hrun; exact E).
  destruct (doSession_returned Hrun) as (e' & -> & Hret).
  destruct (after_failure E' Hf) as [-> | ->].
  - exfalso. rewrite app_nil_r in E. subst tr. unfold failed in Hf.
    destruct Hret as [(pre0 & -> & _) | Hret].
    + pose proof (ends_snoc1 pre0 EvClientClose) as He.
      destr; clash He.
    + destr; clash Hret.
  - split; [reflexivity|]. subst tr.
    destruct Hret as [(pre0 & E0 & Hf0) | Hret].
    + apply app_inj_tail in E0. destruct E0 as [-> _].
      f_equal. exact (failed_inj Hf0 Hf).
    + exfalso. pose proof (ends_snoc1 pre EvClientClose) as He. clash He.
Qed.

Ltac runs :=
  repeat first [ rewrite run_bind | rewrite run_call | rewrite run_ret
               | progress cbn beta iota | progress cbn [record]
               | progress unfold nil ].

(** [deleteMessage] step by step: the store on the given UID comes
    first; when it fails, the function logs and returns its error and
    the expunge is not issued. *)
Lemma deleteMessage_run (w : world) (u : UID) (tr : trace) (fuel : nat) :
  run (S (S (S fuel))) w (deleteMessage u) tr =
  let stored := w tr _ (Store (UIDSetNum u) addDeleted) in
  let tr1 := tr ++ [EvStore (UIDSetNum u) addDeleted stored] in
  match stored with
  | Some e => Done (Some e) (tr1 ++ [EvLog (LogStore e)]) (S fuel)
  | None =>
      let expunged := w tr1 _ Expunge in
      let tr2 := tr1 ++ [EvExpunge expunged] in
      match expunged with
      | Some e => Done (Some e) (tr2 ++ [EvLog (LogExpunge e)]) fuel
      | None => Done nil tr2 (S fuel)
      end
  end.
Proof.
  unfold deleteMessage. runs. cbn [record].
  destruct (w tr _ (Store (UIDSetNum u) addDeleted)) as [e|]; runs.
  - reflexivity.
  - cbn [record].
    destruct (w (tr ++ [EvStore (UIDSetNum u) addDeleted None]) _ Expunge)
      as [e|]; runs; reflexivity.
Qed.

(** C5.  If the select reported a positive count and the fetch of
    sequence number 1 then returns no message, the pass leaves the drain
    loop by [break] (no error), so the drain loop ends there, drained;
    and in every run of a session the call that follows such an empty
    fetch is the IDLE of [doIdle]: nothing is logged and the connection
    stays open. *)
Theorem C5_empty_fetch_is_drained (w : world) (imap : imapCredentials) :
  (forall tr count fuel,
     w tr _ (Select "INBOX") = inl {| NumMessages := count |} ->
     (0 < count)%N ->
     w (tr ++ [EvSelect "INBOX" (inl {| NumMessages := count |})]) _
       (Fetch (SeqSetNum 1) wholeBody) = inl [] ->
     run (S (S (S fuel))) w
       (ITree.iter (fun _ : unit => drainPass importToGmail importingLine imap)
          tt) tr
     = Done Break
         (tr ++ [EvSelect "INBOX" (inl {| NumMessages := count |});
                 EvFetch (SeqSetNum 1) wholeBody (inl []);
                 EvFetchClose]) fuel) /\
  (forall fuel pre x post m count s o,
     traceOf (run fuel w (doSession imap) []) = pre ++ x :: post ->
     ends pre [EvSelect m (inl {| NumMessages := count |});
               EvFetch s o (inl []); EvFetchClose] ->
     (0 < count)%N /\ exists r, x = EvIdle r).
Proof.
  split.
  - intros tr count fuel Hsel Hpos Hfetch.
    rewrite run_iter. unfold drainPass. runs. rewrite Hsel. runs.
    cbn [NumMessages record].
    destruct (count <=? 0)%N eqn:E; [apply N.leb_le in E; lia|].
    unfold fetchFirstMessage. runs. cbn [record]. fold wholeBody.
    rewrite Hfetch. runs. cbn [length Nat.leb]. runs.
    rewrite <- !app_assoc. reflexivity.
  - intros fuel pre x post m count s o E He.
    pose proof (always_at (doSession_allowed w imap fuel) E) as Hx.
    after Hx He. cbn [NumMessages] in *. split; eauto.
Qed.

(** A run only adds to the trace. *)
Lemma run_extends {R} fuel w :
  forall (t : itree sessionE R) tr,
    exists rest, traceOf (run fuel w t tr) = tr ++ rest.
Proof.
  induction fuel as [|f IH]; intros t tr; rewrite run_eq;
    destruct (observe t); cbn [traceOf];
    try (exists []; rewrite app_nil_r; reflexivity).
  - apply IH.
  - destruct (IH (k (w tr _ e)) (tr ++ [record e (w tr _ e)])) as [rest ->].
    eexists. rewrite <- app_assoc. reflexivity.
Qed.

(** C7, as the code has it.  Both versions of [importToGmail] start
    with the same import call, and in every run of a session each import
    call is that call for the message just fetched: its media are the
    fetched body sections, its labels are "INBOX" and "UNREAD" whatever
    the account, the date comes from the date header, the message is
    processed for the calendar, may be classified as spam, and is not
    marked deleted. *)
Theorem C7_import_call (w : world) (imap : imapCredentials) :
  (forall m tr fuel,
     (exists rest,
        traceOf (run (S fuel) w (importToGmail m) tr)
        = tr ++ EvImport (importCall m) (w tr _ (Import (importCall m)))
             :: rest) /\
     (exists rest,
        traceOf (run (S fuel) w (Legacy.importToGmail m) tr)
        = tr ++ EvImport (importCall m) (w tr _ (Import (importCall m)))
             :: rest)) /\
  (forall fuel pre c r post,
     traceOf (run fuel w (doSession imap) []) = pre ++ EvImport c r :: post ->
     (exists s o b rest l,
        ends pre [EvFetch s o (inl (b :: rest)); EvFetchClose; EvLog l] /\
        media c = concat (BodySectionData b)) /\
     userId c = "me" /\
     LabelIds c = ["INBOX"; "UNREAD"] /\
     internalDateSource c = "dateHeader" /\
     processForCalendar c = true /\
     neverMarkSpam c = false /\
     deleted c = false /\
     contentType c = "message/rfc822").
Proof.
  split.
  - intros m tr fuel. split.
    + unfold importToGmail. rewrite run_bind, run_call. cbn beta iota.
      match goal with
      | |- context [run fuel w ?t ?tr0] =>
          destruct (run_extends fuel w t tr0) as [rest Hrest]
      end.
      exists rest. etransitivity; [exact Hrest|].
      rewrite <- app_assoc. reflexivity.
    + unfold Legacy.importToGmail. rewrite run_bind, run_call. cbn beta iota.
      match goal with
      | |- context [run fuel w ?t ?tr0] =>
          destruct (run_extends fuel w t tr0) as [rest Hrest]
      end.
      exists rest. etransitivity; [exact Hrest|].
      rewrite <- app_assoc. reflexivity.
  - intros fuel pre c r post E.
    pose proof (always_at (doSession_allowed w imap fuel) E) as Hx.
    cbn [allowed] in Hx. destruct Hx as (s & o & b & rest & l & He & ->).
    split; [|repeat split].
    exists s, o, b, rest, l. split; [exact He | reflexivity].
Qed.

(* --------------------------------------------------------------------- *)
(** ** Sessions return errors only *)
(* --------------------------------------------------------------------- *)

Section ReturnsError.

Variable w : world.
Variable importMessage : message -> itree sessionE error.
Variable progressLine : imapCredentials -> message -> logline.
Variable imap : imapCredentials.

Local Abbreviation anything := (fun _ : trace => True).

Lemma safe_bind_any {R T} (t : itree sessionE R) (k : R -> itree sessionE T)
    tr (K : T -> trace -> Prop) :
  (forall r tr', safe w anything (k r) tr' K) ->
  safe w anything (ITree.bind t k) tr K.
Proof.
  intros H fuel. rewrite run_bind.
  destruct (run fuel w t tr) as [r tr' more|tr']; [apply H | exact I].
Qed.

(** Follow every path of a tree whatever the calls answer. *)
Ltac paths :=
  repeat
    (cbn beta iota;
     lazymatch goal with
     | |- safe _ _ (ITree.bind (ITree.iter _ _) _) _ _ => fail
     | |- safe _ _ (ITree.iter _ _) _ _ => fail
     | |- safe _ _ (ITree.bind _ _) _ _ => apply safe_bind_any; intros ? ?
     | |- safe _ _ (Ret _) _ _ => apply safe_ret; try solve [eauto]
     | |- safe _ _ (match ?x with _ => _ end) _ _ => destruct x
     end).

Lemma drain_returns_error tr :
  safe w anything
    (ITree.iter (fun _ : unit => drainPass importMessage progressLine imap) tt)
    tr (fun ex _ => exitsWithError ex).
Proof.
  apply safe_iter with (Inv := fun _ _ => True); [trivial | | trivial].
  intros _ tr0 _. unfold drainPass. paths; cbn; eauto.
Qed.

Lemma doSessionWith_returns_error tr :
  safe w anything (doSessionWith importMessage progressLine imap) tr
    (fun r _ => exists e, r = Some e).
Proof.
  unfold doSessionWith.
  apply safe_bind_any. intros [e|] tr1; [paths|].
  apply safe_bind. apply safe_bind_any. intros [e|] tr2; [paths|].
  cbn beta iota. eapply safe_mono.
  - apply safe_iter with
      (Inv := fun _ _ => True) (K := fun r _ => exists e, r = Some e);
      [trivial | | trivial].
    intros _ tr0 _. unfold sessionPass.
    apply safe_bind. eapply safe_mono; [apply drain_returns_error|].
    cbn beta. intros [|err] tr3 Hex; cbn [exitsWithError] in Hex; paths.
  - cbn beta. intros r tr3 H. paths.
Qed.

End ReturnsError.

(** C10.  Whatever the environment answers and however long it runs, a
    session that returns (in either version of the program) returns a
    non-nil error; and in every run of the supervisor the pause comes
    right after a session that returned an error. *)
Theorem C10_no_successful_return (w : world) (imap : imapCredentials)
    (fuel : nat) :
  (forall r tr n,
     run fuel w (doSession imap) [] = Done r tr n \/
     run fuel w (Legacy.doSession imap) [] = Done r tr n ->
     r <> nil) /\
  (forall pre d post,
     traceOf (run fuel w (supervise imap) []) = pre ++ EvSleep d :: post ->
     exists e, returned imap pre e).
Proof.
  split.
  - intros r tr n [H|H].
    + pose proof (doSessionWith_returns_error w importToGmail importingLine
                    imap [] fuel) as Hs.
      fold doSession in Hs. rewrite H in Hs. destruct Hs as [e ->].
      discriminate.
    + pose proof (doSessionWith_returns_error w Legacy.importToGmail
                    Legacy.importingLine imap [] fuel) as Hs.
      fold Legacy.doSession in Hs. rewrite H in Hs. destruct Hs as [e ->].
      discriminate.
  - intros pre d post E.
    pose proof (supervise_allowed w imap fuel) as Hok.
    pose proof (always_at Hok E) as Hx. cbn [allowed] in Hx.
    destruct Hx as (_ & _ & [[pre0 ->] | [e He]]).
    + rewrite <- app_assoc in E. cbn [app] in E.
      pose proof (always_at Hok E) as H0. cbn [allowed] in H0.
      destruct H0 as [e Hf]. exists e. left. exists pre0. auto.
    + exists e. right. exact He.
Qed.

(* --------------------------------------------------------------------- *)
(** ** The supervisor *)
(* --------------------------------------------------------------------- *)

(** Against a server that cannot be reached the supervisor tries again
    and again: [n] attempts after [4 * n] steps. *)
Lemma supervise_unreachable imap n :
  forall tr,
    run (4 * n) (serve unreachable) (supervise imap) tr
    = Running (tr ++ concat (repeat (failedAttempt imap) n)).
Proof.
  induction n as [|n IH]; intros tr.
  - cbn [Nat.mul repeat concat]. rewrite app_nil_r.
    rewrite run_eq. reflexivity.
  - replace (4 * S n) with (S (S (S (S (4 * n))))) by lia.
    unfold supervise, superviseWith. rewrite run_forever.
    unfold doSessionWith. runs.
    cbn [serve dialAnswer unreachable]. runs.
    fold (superviseWith importToGmail importingLine imap).
    fold (supervise imap). rewrite IH.
    cbn [repeat concat]. unfold failedAttempt.
    rewrite <- !app_assoc. reflexivity.
Qed.

Lemma sessionsStarted_attempts imap n :
  sessionsStarted (concat (repeat (failedAttempt imap) n)) = n.
Proof.
  unfold sessionsStarted. induction n as [|n IH]; [reflexivity|].
  cbn [repeat concat]. rewrite filter_app, length_app, IH. reflexivity.
Qed.

(* --------------------------------------------------------------------- *)
(** ** Import and delete *)
(* --------------------------------------------------------------------- *)

(** [importToGmail] of [main.go], step by step: it returns nil exactly
    when the call came back without a transport error and with status
    200. *)
Lemma importToGmail_run (w : world) (m : message) (tr : trace) (fuel : nat) :
  let res := w tr _ (Import (importCall m)) in
  let tr1 := tr ++ [EvImport (importCall m) res] in
  run (S (S fuel)) w (importToGmail m) tr =
  match res with
  | inr e => Done (Some e) (tr1 ++ [EvLog (LogUpload e)]) fuel
  | inl r =>
      if (HTTPStatusCode r =? 200)%Z then Done nil tr1 (S fuel)
      else
        let e := StatusCodeError (HTTPStatusCode r) in
        Done (Some e) (tr1 ++ [EvLog (LogStatus e)]) fuel
  end.
Proof.
  unfold importToGmail. runs.
  destruct (w tr _ (Import (importCall m))) as [r|e]; runs.
  - destruct (HTTPStatusCode r =? 200)%Z; cbn [negb]; runs; reflexivity.
  - reflexivity.
Qed.

(** [importToGmail] of the earlier program, step by step: whatever the
    status, it returns nil when there was no transport error. *)
Lemma Legacy_importToGmail_run (w : world) (m : message) (tr : trace)
    (fuel : nat) :
  let res := w tr _ (Import (importCall m)) in
  let tr1 := tr ++ [EvImport (importCall m) res] in
  run (S (S fuel)) w (Legacy.importToGmail m) tr =
  match res with
  | inr e => Done (Some e) (tr1 ++ [EvLog (LogUpload e)]) fuel
  | inl r =>
      if (HTTPStatusCode r =? 200)%Z then Done nil tr1 (S fuel)
      else Done nil (tr1 ++ [EvLog (LogStatusCode (HTTPStatusCode r))]) fuel
  end.
Proof.
  unfold Legacy.importToGmail. runs.
  destruct (w tr _ (Import (importCall m))) as [r|e]; runs.
  - destruct (HTTPStatusCode r =? 200)%Z; cbn [negb]; runs; reflexivity.
  - reflexivity.
Qed.


Lemma importError_none res :
  importError res = None ->
  exists r, res = inl r /\ HTTPStatusCode r = 200%Z.
Proof.
  destruct res as [r|e]; cbn [importError]; [|discriminate].
  destruct (Z.eqb_spec (HTTPStatusCode r) 200); [eauto | discriminate].
Qed.

Lemma importError_some res e :
  importError res = Some e ->
  res = inr e \/
  exists r, res = inl r /\ HTTPStatusCode r <> 200%Z /\
            e = StatusCodeError (HTTPStatusCode r).
Proof.
  destruct res as [r|e']; cbn [importError].
  - destruct (Z.eqb_spec (HTTPStatusCode r) 200); [discriminate|].
    intros [= <-]. right. eauto.
  - intros [= <-]. left. reflexivity.
Qed.

(* --------------------------------------------------------------------- *)
(** ** Configuration *)
(* --------------------------------------------------------------------- *)

(** C3, as stated, fails: whatever the account's configuration says, a
    session that gets as far as a select selects "INBOX". *)
Lemma C3_mailbox_not_from_configuration : ~ mailboxFromConfiguration.
Proof.
  intros (resolve & (imap & Hne) & H). apply Hne. symmetry.
  apply (H (serve (healthy [])) imap 3
           [EvDialTLS (Address imap) None;
            EvLogin (Username imap) (Password imap) None]
           "INBOX" (inl {| NumMessages := 0 |}) []).
  reflexivity.
Qed.

(** C7, as stated, fails: whatever the account's configuration says, an
    import call carries the labels "INBOX" and "UNREAD". *)
Lemma C7_labels_not_from_configuration : ~ labelsFromConfiguration.
Proof.
  intros (resolve & (imap & Hne) & H). apply Hne. symmetry.
  apply (H (serve (healthy [letter 12%N])) imap 7
           [EvDialTLS (Address imap) None;
            EvLogin (Username imap) (Password imap) None;
            EvSelect "INBOX" (inl {| NumMessages := 1 |});
            EvFetch (SeqSetNum 1) wholeBody (inl [letter 12%N]);
            EvFetchClose;
            EvLog (importingLine imap (messageOf (letter 12%N)))]
           (importCall (messageOf (letter 12%N)))
           (inl {| HTTPStatusCode := 200 |}) []).
  reflexivity.
Qed.

(* --------------------------------------------------------------------- *)
(** ** The update channel *)
(* --------------------------------------------------------------------- *)

Lemma Mailbox_unbuffered d ch :
  capacity ch = 0 -> buffered ch = [] ->
  let (ch', o) := Mailbox d ch in
  capacity ch' = 0 /\ buffered ch' = [] /\ receiving ch' = false /\
  o = (if receiving ch then Received else Dropped).
Proof.
  intros Hc Hb. unfold Mailbox. destruct (receiving ch) eqn:Hr.
  - cbn. auto.
  - rewrite Hb, Hc. cbn. rewrite Hr. auto.
Qed.

Lemma play_unbuffered ops :
  forall ch, capacity ch = 0 -> buffered ch = [] ->
             capacity (fst (play ch ops)) = 0 /\
             buffered (fst (play ch ops)) = [] /\
             forall d, ~ In (Woken d) (snd (play ch ops)) /\
                       ~ In (Offer Queued) (snd (play ch ops)).
Proof.
  induction ops as [|op ops IH]; intros ch Hc Hb.
  - cbn. auto.
  - cbn [play]. destruct (channelStep ch op) as [ch1 s] eqn:E1.
    assert (capacity ch1 = 0 /\ buffered ch1 = [] /\
            (forall d, s <> Woken d) /\ s <> Offer Queued) as (Hc1 & Hb1 & Hs1 & Hs2).
    { destruct op as [d| |]; cbn [channelStep] in E1.
      - pose proof (Mailbox_unbuffered d ch Hc Hb) as Hm.
        destruct (Mailbox d ch) as [ch' o]. inversion E1; subst.
        destruct Hm as (? & ? & ? & ->).
        repeat split; auto; try discriminate.
        destruct (receiving ch); discriminate.
      - unfold awaitUpdate in E1. rewrite Hb in E1. inversion E1; subst.
        cbn. repeat split; auto; discriminate.
      - inversion E1; subst. cbn. repeat split; auto; discriminate. }
    destruct (IH ch1 Hc1 Hb1) as (Hc2 & Hb2 & Hseen).
    destruct (play ch1 ops) as [ch2 ss]. cbn [fst snd] in *.
    split; [assumption|]. split; [assumption|].
    intros d. destruct (Hseen d) as [Hw Hq]. split.
    + intros [H|H]; [exact (Hs1 d H) | exact (Hw H)].
    + intros [H|H]; [exact (Hs2 H) | exact (Hq H)].
Qed.

(** C8, as stated, fails: an update pushed while the session is not in
    its idle wait is dropped by the code's channel, and the next idle
    wait blocks; a one-element slot would keep it and wake that wait at
    once. *)
Lemma C8_not_a_single_slot :
  snd (play mailboxUpdate [Push 7%N; Await]) = [Offer Dropped; Blocked] /\
  snd (play singleSlot [Push 7%N; Await]) = [Offer Queued; Woken 7%N] /\
  snd (play mailboxUpdate [Push 7%N; Await])
  <> snd (play singleSlot [Push 7%N; Await]).
Proof. repeat split; try reflexivity. discriminate. Qed.

(** C8, as the code has it.  Whatever happens on a session's channel, in
    whatever order: no update is ever held in it, no idle wait finds one
    waiting, and the handler returns at once with the update handed to
    the idle wait, when that is blocked in its receive (which ends that
    receive), and dropped otherwise. *)
Theorem C8_unbuffered_handoff (ops : list channelOp) :
  let ch := fst (play mailboxUpdate ops) in
  buffered ch = [] /\
  (forall d, ~ In (Woken d) (snd (play mailboxUpdate ops)) /\
             ~ In (Offer Queued) (snd (play mailboxUpdate ops))) /\
  (forall d,
     Mailbox d ch =
     if receiving ch
     then ({| capacity := 0; buffered := []; receiving := false |}, Received)
     else (ch, Dropped)).
Proof.
  cbn zeta.
  destruct (play_unbuffered ops mailboxUpdate eq_refl eq_refl)
    as (Hc & Hb & Hseen).
  split; [exact Hb|]. split; [exact Hseen|].
  intros d. unfold Mailbox. rewrite Hb, Hc. cbn.
  destruct (receiving (fst (play mailboxUpdate ops))); reflexivity.
Qed.

(* --------------------------------------------------------------------- *)
(** ** The earlier program and a rejected import *)
(* --------------------------------------------------------------------- *)

(* ===================================================================== *)
(** * Runs that never stall *)
(* ===================================================================== *)

(** A run with more steps goes on from where the shorter run was. *)
Lemma run_more {R} w k fuel :
  forall (t : itree sessionE R) tr,
    match run fuel w t tr with
    | Done r tr' more => run (fuel + k) w t tr = Done r tr' (more + k)
    | Running tr' => exists rest, traceOf (run (fuel + k) w t tr) = tr' ++ rest
    end.
Proof.
  induction fuel as [|f IH]; intros t tr.
  - cbn [Nat.add]. rewrite (run_eq 0).
    destruct (observe t) eqn:E; [rewrite run_eq, E; reflexivity | |];
      apply run_extends.
  - rewrite (run_eq (S f)), (run_eq (S f + k)). destruct (observe t).
    + reflexivity.
    + apply IH.
    + apply IH.
Qed.

Section Paced.

Variable w : world.

Lemma paced_ret {R} (r : R) : paced w false (Ret r).
Proof. intros fuel tr. rewrite run_ret. left. auto. Qed.

Lemma paced_call {X} (e : sessionE X) : paced w true (call e).
Proof.
  intros fuel tr. rewrite run_call. destruct fuel; [lia|].
  right. rewrite length_app. cbn [length]. lia.
Qed.

Lemma paced_lax {R} (t : itree sessionE R) : paced w true t -> paced w false t.
Proof.
  intros H fuel tr. specialize (H fuel tr).
  destruct (run fuel w t tr); [|exact H].
  destruct H as [[H _] | H]; [discriminate | right; exact H].
Qed.

Lemma paced_bind {R T} (s1 s2 : bool) (t : itree sessionE R)
    (k : R -> itree sessionE T) :
  paced w s1 t -> (forall r, paced w s2 (k r)) ->
  paced w (s1 || s2) (ITree.bind t k).
Proof.
  intros Ht Hk fuel tr. rewrite run_bind. specialize (Ht fuel tr).
  destruct (run fuel w t tr) as [r tr' more|tr']; [|exact Ht].
  specialize (Hk r more tr').
  destruct Ht as [(-> & -> & ->) | Ht].
  - cbn [orb]. exact Hk.
  - destruct (run more w (k r) tr') as [r' tr'' more'|tr''].
    + right. destruct Hk as [(_ & -> & ->) | Hk]; lia.
    + lia.
Qed.

Lemma paced_iter {A R} (body : A -> itree sessionE (A + R)) :
  (forall i, paced w true (body i)) ->
  forall i, paced w true (ITree.iter body i).
Proof.
  intros Hbody i fuel. revert i.
  induction fuel as [fuel IH] using (well_founded_induction lt_wf).
  intros i tr. rewrite run_iter. specialize (Hbody i fuel tr).
  destruct (run fuel w (body i) tr) as [[i'|r] tr' more|tr'] eqn:E;
    [| exact Hbody | exact Hbody].
  destruct Hbody as [[H _] | Hbody]; [discriminate|].
  destruct more as [|more]; [lia|].
  apply run_left_le in E.
  assert (more < fuel) as Hlt by lia.
  specialize (IH more Hlt i' tr').
  destruct (run more w (ITree.iter body i') tr') as [r tr'' more'|tr''].
  - right. destruct IH as [[H _] | IH]; [discriminate | lia].
  - lia.
Qed.

Lemma paced_forever {R T} (t : itree sessionE R) :
  paced w true t -> paced w true (ITree.forever t : itree sessionE T).
Proof.
  intros Ht fuel.
  induction fuel as [fuel IH] using (well_founded_induction lt_wf).
  intros tr. rewrite run_forever. specialize (Ht fuel tr).
  destruct (run fuel w t tr) as [r tr' more|tr'] eqn:E; [|exact Ht].
  destruct Ht as [[H _] | Ht]; [discriminate|].
  destruct more as [|more]; [lia|].
  apply run_left_le in E.
  assert (more < fuel) as Hlt by lia.
  specialize (IH more Hlt tr').
  destruct (run more w (ITree.forever t) tr') as [r' tr'' more'|tr''].
  - right. destruct IH as [[H _] | IH]; [discriminate | lia].
  - lia.
Qed.

(** A call and what follows it, whatever that is. *)
Lemma paced_after_call {X T} (e : sessionE X) (k : X -> itree sessionE T) :
  (forall x, paced w false (k x)) -> paced w true (ITree.bind (call e) k).
Proof. intros H. apply (paced_bind true false); [apply paced_call | exact H]. Qed.

End Paced.

(** Follow a tree along every path: it is a call, a return, or a
    sequence of these. *)
Ltac pace :=
  cbn beta iota;
  lazymatch goal with
  | |- paced _ false (Ret _) => apply paced_ret
  | |- paced _ false _ => apply paced_lax; pace
  | |- paced _ true (call _) => apply paced_call
  | |- paced _ true (ITree.bind (call _) _) =>
      apply paced_after_call; intros ?; pace_any
  | |- paced _ true (ITree.iter _ _) => apply paced_iter; intros ?; pace
  | |- paced _ true (ITree.bind ?t ?k) =>
      first [ apply (paced_bind _ true false t k); [pace | intros ?; pace_any]
            | apply (paced_bind _ false true t k); [pace_any | intros ?; pace] ]
  | |- paced _ _ (match ?x with _ => _ end) => destruct x; pace
  | |- paced _ true _ => solve [auto]
  end
with pace_any :=
  cbn beta iota;
  lazymatch goal with
  | |- paced _ false (Ret _) => apply paced_ret
  | |- paced _ false (match ?x with _ => _ end) => destruct x; pace_any
  | |- paced _ false (ITree.bind ?t ?k) =>
      first [ apply paced_lax; pace
            | apply (paced_bind _ false false t k); [pace_any | intros ?; pace_any] ]
  | |- paced _ false _ => apply paced_lax; pace
  end.

Lemma fetchFirstMessage_paced w : paced w true fetchFirstMessage.
Proof. unfold fetchFirstMessage. pace. Qed.

Lemma importToGmail_paced w m : paced w true (importToGmail m).
Proof. unfold importToGmail. pace. Qed.

Lemma Legacy_importToGmail_paced w m : paced w true (Legacy.importToGmail m).
Proof. unfold Legacy.importToGmail. pace. Qed.

Lemma deleteMessage_paced w u : paced w true (deleteMessage u).
Proof. unfold deleteMessage. pace. Qed.

Lemma doIdle_paced w d : paced w true (doIdle d).
Proof. unfold doIdle. pace. Qed.

#[local] Hint Resolve fetchFirstMessage_paced importToGmail_paced
  Legacy_importToGmail_paced deleteMessage_paced doIdle_paced : core.

Section PacedSession.

Variable w : world.
Variable importMessage : message -> itree sessionE error.
Variable progressLine : imapCredentials -> message -> logline.
Variable imap : imapCredentials.

Hypothesis importMessage_paced : forall m, paced w true (importMessage m).

Lemma drainPass_paced :
  paced w true (drainPass importMessage progressLine imap).
Proof. unfold drainPass. pace. Qed.

Lemma sessionPass_paced :
  paced w true (sessionPass importMessage progressLine imap).
Proof.
  unfold sessionPass.
  apply (paced_bind w true false).
  - apply paced_iter. intros _. apply drainPass_paced.
  - intros [|err]; pace_any.
Qed.

Lemma doSessionWith_paced :
  paced w true (doSessionWith importMessage progressLine imap).
Proof.
  unfold doSessionWith. apply paced_after_call. intros [e|]; [pace_any|].
  apply paced_lax. apply (paced_bind w true true).
  - apply paced_after_call. intros [e|]; [pace_any|].
    apply paced_lax. apply paced_iter. intros _. apply sessionPass_paced.
  - intros res. pace.
Qed.

Lemma superviseWith_paced :
  paced w true (superviseWith importMessage progressLine imap).
Proof.
  unfold superviseWith. apply paced_forever.
  apply (paced_bind w true true); [apply doSessionWith_paced|].
  intros _. apply paced_call.
Qed.

End PacedSession.

(** A session of either version never stalls. *)
Lemma doSession_paced w imap : paced w true (doSession imap).
Proof. apply doSessionWith_paced. intros m. apply importToGmail_paced. Qed.

Lemma Legacy_doSession_paced w imap : paced w true (Legacy.doSession imap).
Proof.
  apply doSessionWith_paced. intros m. apply Legacy_importToGmail_paced.
Qed.

Lemma supervise_paced w imap : paced w true (supervise imap).
Proof. apply superviseWith_paced. intros m. apply importToGmail_paced. Qed.

(* ===================================================================== *)
(** * Runs go on *)
(* ===================================================================== *)

(** A longer run extends the trace of a shorter one. *)
Lemma run_prefix {R} w (t : itree sessionE R) tr fuel fuel' :
  fuel <= fuel' ->
  exists rest,
    traceOf (run fuel' w t tr) = traceOf (run fuel w t tr) ++ rest.
Proof.
  intros Hle. pose proof (run_more w (fuel' - fuel) fuel t tr) as H.
  replace (fuel + (fuel' - fuel)) with fuel' in H by lia.
  destruct (run fuel w t tr) as [r tr' more|tr'].
  - rewrite H. exists []. cbn [traceOf]. rewrite app_nil_r. reflexivity.
  - exact H.
Qed.

(** A run that has returned has returned for good. *)
Lemma run_done_later {R} w (t : itree sessionE R) tr fuel fuel' r tr' more :
  run fuel w t tr = Done r tr' more -> fuel <= fuel' ->
  run fuel' w t tr = Done r tr' (more + (fuel' - fuel)).
Proof.
  intros E Hle. pose proof (run_more w (fuel' - fuel) fuel t tr) as H.
  replace (fuel + (fuel' - fuel)) with fuel' in H by lia.
  rewrite E in H. exact H.
Qed.

(** Two runs of one tree against one environment: one trace begins
    with the other. *)
Lemma run_same_next {R} w (t : itree sessionE R) fuel fuel' pre x y post post' :
  traceOf (run fuel w t []) = pre ++ x :: post ->
  traceOf (run fuel' w t []) = pre ++ y :: post' ->
  x = y.
Proof.
  intros E E'.
  destruct (Nat.le_ge_cases fuel fuel') as [Hle | Hle];
    destruct (run_prefix w t [] _ _ Hle) as [rest H].
  - rewrite E, E', <- app_assoc in H. apply app_inv_head in H.
    inversion H. reflexivity.
  - rewrite E, E', <- app_assoc in H. apply app_inv_head in H.
    inversion H. reflexivity.
Qed.

(** A tree that never stalls has returned or has made [n] calls after
    [2 * n] steps. *)
Lemma paced_calls {R} w (t : itree sessionE R) n tr :
  paced w true t ->
  match run (2 * n) w t tr with
  | Done _ _ _ => True
  | Running tr' => n + length tr <= length tr'
  end.
Proof.
  intros H. specialize (H (2 * n) tr).
  destruct (run (2 * n) w t tr); [exact I | lia].
Qed.

Lemma reaches_app {R} w (t : itree sessionE R) tr l :
  reaches w t (tr ++ l) -> reaches w t tr.
Proof.
  intros (fuel & rest & E). exists fuel, (l ++ rest).
  rewrite E, <- app_assoc. reflexivity.
Qed.

Lemma reaches_run {R} w (t : itree sessionE R) fuel :
  reaches w t (traceOf (run fuel w t [])).
Proof. exists fuel, []. rewrite app_nil_r. reflexivity. Qed.

(* ===================================================================== *)
(** * A session goes on until it returns *)
(* ===================================================================== *)

(** As long as a session has not returned it makes another call, one
    that the history allows. *)
Lemma session_next {w imap fuel pre post} (Q : event -> Prop) :
  traceOf (run fuel w (doSession imap) []) = pre ++ post ->
  (forall e, ~ returned imap pre e) ->
  (forall y, allowed false imap pre y -> Q y) ->
  exists y, Q y /\ (forall x post', post = x :: post' -> x = y) /\
            reaches w (doSession imap) (pre ++ [y]).
Proof.
  intros E Hnot HQ.
  set (big := Nat.max fuel (2 * S (length pre))).
  destruct (run_prefix w (doSession imap) [] fuel big (Nat.le_max_l _ _))
    as [more Hbig].
  rewrite E, <- app_assoc in Hbig.
  destruct (post ++ more) as [|y rest] eqn:Hrest.
  - exfalso. rewrite app_nil_r in Hbig.
    destruct (run_prefix w (doSession imap) [] (2 * S (length pre)) big
                (Nat.le_max_r _ _)) as [more' Hlong].
    pose proof (paced_calls w (doSession imap) (S (length pre)) []
                  (doSession_paced w imap)) as Hp.
    destruct (run (2 * S (length pre)) w (doSession imap) [])
      as [r tr' n | tr'] eqn:Hrun.
    + pose proof (run_done_later w _ _ _ big _ _ _ Hrun (Nat.le_max_r _ _))
        as Hdone.
      destruct (doSession_returned Hdone) as (e & _ & Hret).
      rewrite Hdone in Hbig. cbn [traceOf] in Hbig. subst tr'.
      exact (Hnot e Hret).
    + cbn [traceOf] in Hlong. rewrite Hbig in Hlong.
      apply (f_equal (@length event)) in Hlong.
      rewrite length_app in Hlong. cbn [length] in Hp. lia.
  - pose proof (doSession_allowed w imap big) as Hok.
    pose proof (always_at Hok Hbig) as Hy.
    exists y. split; [exact (HQ y Hy)|]. split.
    + intros x post' ->. cbn [app] in Hrest. inversion Hrest. reflexivity.
    + exists big, rest. rewrite Hbig, <- app_assoc. reflexivity.
Qed.

(** Once a call of an open connection has failed and been logged, the
    session closes the connection and returns the error of that call. *)
Lemma session_fails {w imap fuel pre post e} :
  traceOf (run fuel w (doSession imap) []) = pre ++ post ->
  failed pre e ->
  exists fuel' more,
    run fuel' w (doSession imap) [] =
    Done (Some e) (pre ++ [EvClientClose]) more.
Proof.
  intros E Hf.
  set (big := Nat.max fuel (2 * S (S (length pre)))).
  destruct (run_prefix w (doSession imap) [] fuel big (Nat.le_max_l _ _))
    as [more Hbig].
  rewrite E, <- app_assoc in Hbig.
  destruct (run_prefix w (doSession imap) [] (2 * S (S (length pre))) big
              (Nat.le_max_r _ _)) as [more' Hlong].
  pose proof (paced_calls w (doSession imap) (S (S (length pre))) []
                (doSession_paced w imap)) as Hp.
  destruct (run (2 * S (S (length pre))) w (doSession imap) [])
    as [r tr' n | tr'] eqn:Hrun.
  - pose proof (run_done_later w _ _ _ big _ _ _ Hrun (Nat.le_max_r _ _))
      as Hdone.
    assert (tr' = pre ++ post ++ more) as Etr
        by (rewrite Hdone in Hbig; exact Hbig).
    destruct (failure_is_returned Hdone Etr Hf) as [Hpost ->].
    exists big, (n + (big - 2 * S (S (length pre)))).
    rewrite Hdone, Etr, Hpost. reflexivity.
  - exfalso. cbn [traceOf] in Hlong.
    destruct (after_failure Hbig Hf) as [H | H]; rewrite H in Hbig;
      rewrite Hbig in Hlong; apply (f_equal (@length event)) in Hlong;
      rewrite !length_app in Hlong; cbn [length] in Hlong, Hp; lia.
Qed.

(** The supervisor always makes another call. *)
Lemma supervise_next {w imap fuel pre post} (Q : event -> Prop) :
  traceOf (run fuel w (supervise imap) []) = pre ++ post ->
  (forall y, allowed true imap pre y -> Q y) ->
  exists y, Q y /\ (forall x post', post = x :: post' -> x = y) /\
            reaches w (supervise imap) (pre ++ [y]).
Proof.
  intros E HQ.
  set (big := Nat.max fuel (2 * S (length pre))).
  destruct (run_prefix w (supervise imap) [] fuel big (Nat.le_max_l _ _))
    as [more Hbig].
  rewrite E, <- app_assoc in Hbig.
  destruct (post ++ more) as [|y rest] eqn:Hrest.
  - exfalso. rewrite app_nil_r in Hbig.
    destruct (run_prefix w (supervise imap) [] (2 * S (length pre)) big
                (Nat.le_max_r _ _)) as [more' Hlong].
    pose proof (paced_calls w (supervise imap) (S (length pre)) []
                  (supervise_paced w imap)) as Hp.
    destruct (run (2 * S (length pre)) w (supervise imap) [])
      as [[] tr' n | tr'] eqn:Hrun.
    cbn [traceOf] in Hlong. rewrite Hbig in Hlong.
    apply (f_equal (@length event)) in Hlong.
    rewrite length_app in Hlong. cbn [length] in Hp. lia.
  - pose proof (supervise_allowed w imap big) as Hok.
    pose proof (always_at Hok Hbig) as Hy.
    exists y. split; [exact (HQ y Hy)|]. split.
    + intros x post' ->. cbn [app] in Hrest. inversion Hrest. reflexivity.
    + exists big, rest. rewrite Hbig, <- app_assoc. reflexivity.
Qed.

(** Such a trace is not the trace of a session that has returned. *)
Ltac going He :=
  let e := fresh "e" in
  let H := fresh "H" in
  intros e H; unfold returned, failed in H;
  repeat match goal with
         | H : _ /\ _ |- _ => destruct H
         | H : exists _, _ |- _ => destruct H
         | H : _ \/ _ |- _ => destruct H
         end;
  try match goal with
      | H : ?p = ?q ++ [EvClientClose] |- _ =>
          let He' := fresh "He" in
          assert (ends p [EvClientClose]) as He'
              by (exists q; exact H);
          clear H
      end;
  clash He.

(** A call of an open connection has failed, and what the session does
    next can only be the log line [l]: the session logs it, closes the
    connection and returns the error. *)
Lemma session_failure_logged {w imap fuel pre post} e l :
  traceOf (run fuel w (doSession imap) []) = pre ++ post ->
  (forall e', ~ returned imap pre e') ->
  (forall y, allowed false imap pre y -> y = EvLog l) ->
  failed (pre ++ [EvLog l]) e ->
  thenCalls w (doSession imap) pre post (EvLog l) /\
  returnsWith w (doSession imap) (pre ++ [EvLog l; EvClientClose]) e.
Proof.
  intros E Hnot Hy Hf.
  destruct (session_next (fun y => y = EvLog l) E Hnot Hy)
    as (y & -> & Hnext).
  split; [exact Hnext|].
  destruct Hnext as [_ (fuel' & rest & E')].
  destruct (session_fails E' Hf) as (fuel'' & more & Hrun).
  exists fuel'', more. rewrite Hrun, <- app_assoc. reflexivity.
Qed.

Lemma ends_snoc {pre l} x : ends pre l -> ends (pre ++ [x]) (l ++ [x]).
Proof. intros [p ->]. exists p. rewrite <- app_assoc. reflexivity. Qed.

(* ===================================================================== *)
(** * Connections *)
(* ===================================================================== *)

Lemma always_prefix R tr tr' : always R (tr ++ tr') -> always R tr.
Proof.
  intros H pre x post E. apply (H pre x (post ++ tr')).
  rewrite E, <- app_assoc. reflexivity.
Qed.

(** A property of traces that holds of the empty trace and is kept by
    every call made under [R] holds of every trace whose calls are all
    made under [R]. *)
Lemma always_invariant (R : trace -> event -> Prop) (P : trace -> Prop) :
  P [] ->
  (forall pre x, always R pre -> P pre -> R pre x -> P (pre ++ [x])) ->
  forall tr, always R tr -> P tr.
Proof.
  intros H0 Hstep tr. induction tr as [|x tr IH] using rev_ind; intros H.
  - exact H0.
  - pose proof (always_prefix _ _ _ H) as Hpre. apply Hstep.
    + exact Hpre.
    + apply IH. exact Hpre.
    + apply (H tr x []). reflexivity.
Qed.

(** The line logged between a fetch and the import is the progress
    line. *)
Lemma progress_line_logged sup imap pre s o b rest l :
  always (allowed sup imap) pre ->
  ends pre [EvFetch s o (inl (b :: rest)); EvFetchClose; EvLog l] ->
  l = importingLine imap (messageOf b).
Proof.
  intros Hok [p0 E].
  assert (pre = p0 ++ [EvFetch s o (inl (b :: rest))] ++ EvFetchClose
                    :: EvLog l :: []) as E1 by exact E.
  rewrite app_assoc in E1.
  pose proof (always_next Hok E1) as Hl.
  pose proof (ends_snoc2 p0 (EvFetch s o (inl (b :: rest))) EvFetchClose) as He.
  cbn [allowed] in Hl.
  destruct l; cbn [allowedLog] in Hl; destr; clash He; try subst;
    try reflexivity.
Qed.


Lemma connected_snoc tr x :
  connected (tr ++ [x]) = if holdsConnection x then 1 else 0.
Proof. unfold connected. rewrite rev_app_distr. reflexivity. Qed.

Lemma connected_ends tr l x :
  ends tr (l ++ [x]) -> connected tr = if holdsConnection x then 1 else 0.
Proof.
  intros [pre ->]. rewrite app_assoc. apply connected_snoc.
Qed.

Lemma opened_snoc tr x :
  opened (tr ++ [x]) = opened tr + if isDialled x then 1 else 0.
Proof.
  unfold opened. rewrite filter_app, length_app. cbn [filter].
  destruct (isDialled x); reflexivity.
Qed.

Lemma closed_snoc tr x :
  closed (tr ++ [x]) = closed tr + if isClosed x then 1 else 0.
Proof.
  unfold closed. rewrite filter_app, length_app. cbn [filter].
  destruct (isClosed x); reflexivity.
Qed.

Ltac lastOf H :=
  match type of H with
  | ends _ [?a] => apply (connected_ends _ [] a) in H
  | ends _ [?a; ?b] => apply (connected_ends _ [a] b) in H
  | ends _ [?a; ?b; ?c] => apply (connected_ends _ [a; b] c) in H
  | ends _ [?a; ?b; ?c; ?d] => apply (connected_ends _ [a; b; c] d) in H
  end; cbn [holdsConnection] in H.

(** The connections opened so far are those closed so far, and the one
    in use if there is one. *)
Lemma opened_closed_connected sup imap tr :
  always (allowed sup imap) tr -> opened tr = closed tr + connected tr.
Proof.
  revert tr.
  apply (always_invariant (allowed sup imap)
           (fun tr => opened tr = closed tr + connected tr)); [reflexivity|].
  intros pre x Hok IH Hx.
  rewrite opened_snoc, closed_snoc, connected_snoc, IH.
  destruct x as [a [e|]| |u p r|m r|s o r| |c r|s f r|r|r|d r| |r|r|l|d];
    cbn [isDialled isClosed holdsConnection];
    cbn [allowed] in Hx.
  all: try (destruct l; cbn [allowedLog] in Hx).
  all: unfold failed in Hx; destr; subst.
  all: try match goal with
           | H : ends ?p [_; _; EvLog ?l] |- _ =>
               rewrite (progress_line_logged _ _ _ _ _ _ _ _ Hok H) in H
           end.
  all: try match goal with H : ends ?p _ |- _ => lastOf H; rewrite H end.
  all: unfold importingLine; try reflexivity; try lia.
Qed.

Lemma connected_le_1 tr : connected tr <= 1.
Proof.
  unfold connected. destruct (rev tr) as [|x ?]; [lia|].
  destruct (holdsConnection x); lia.
Qed.

(** A session dials once. *)
Lemma doSession_dials_once imap tr :
  always (allowed false imap) tr -> opened tr <= 1.
Proof.
  revert tr.
  apply (always_invariant (allowed false imap)
           (fun tr => opened tr <= 1 /\ (tr = [] -> opened tr = 0))).
  - split; [cbn; lia | reflexivity].
  - intros pre x _ [IH IH0] Hx. rewrite opened_snoc. split.
    + destruct x; cbn [isDialled]; try lia.
      cbn [allowed] in Hx. destruct Hx as [_ [-> | [Hsup _]]];
        [|discriminate].
      destruct r; cbn; lia.
    + intros E. destruct pre; discriminate.
Qed.

(** In every run of an account's supervisor at most one connection is
    open at any moment: a dial and the supervisor's pause only happen
    while none is open (the connection of the session before has been
    closed), and the close only while one is.  A session that returns
    has dialled at most once and closed the connection it opened. *)
Theorem connections_closed (w : world) (imap : imapCredentials) (fuel : nat) :
  (forall pre x post,
     traceOf (run fuel w (supervise imap) []) = pre ++ x :: post ->
     closed pre <= opened pre <= closed pre + 1 /\
     ((exists a r, x = EvDialTLS a r) \/ (exists d, x = EvSleep d) ->
      opened pre = closed pre) /\
     (x = EvClientClose -> opened pre = closed pre + 1)) /\
  (forall r tr n,
     run fuel w (doSession imap) [] = Done r tr n ->
     opened tr = closed tr /\ opened tr <= 1).
Proof.
  split.
  - intros pre x post E.
    pose proof (supervise_allowed w imap fuel) as Hok.
    pose proof (always_at Hok E) as Hx.
    rewrite E in Hok. apply always_prefix in Hok.
    pose proof (opened_closed_connected _ _ _ Hok) as Hpre.
    pose proof (connected_le_1 pre) as Hle.
    split; [lia|]. split.
    + intros [(a & r & ->) | (d & ->)]; cbn [allowed] in Hx.
      * destruct Hx as [_ [-> | [_ He]]]; [reflexivity|].
        lastOf He. lia.
      * destruct Hx as (_ & _ & [He | [e He]]); lastOf He; lia.
    + intros ->. cbn [allowed] in Hx. unfold failed in Hx.
      destr; match goal with H : ends pre _ |- _ => lastOf H end; lia.
  - intros r tr n Hrun.
    pose proof (doSession_allowed w imap fuel) as Hok.
    rewrite Hrun in Hok. cbn [traceOf] in Hok.
    pose proof (opened_closed_connected _ _ _ Hok) as Htr.
    split; [|exact (doSession_dials_once _ _ Hok)].
    destruct (doSession_returned Hrun) as (e & _ & [(pre & -> & _) | He]).
    + rewrite connected_snoc in Htr. cbn in Htr. lia.
    + lastOf He. lia.
Qed.

Section Connect.

Variable w : world.
Variable importMessage : message -> itree sessionE error.
Variable progressLine : imapCredentials -> message -> logline.
Variable imap : imapCredentials.

(** Setting up the connection, in either version of the program.  When
    the dial fails the session logs the error and returns it: there is
    no connection, so no login and no close.  When the dial succeeds
    and the login fails the session logs that error, closes the
    connection and returns the error, and no mailbox command is issued.
    In every other run the session has dialled the account's address
    and logged in with the account's user name and password before
    anything else. *)
Lemma doSession_connect (fuel : nat) :
  let dial := w [] _ (DialTLS (Address imap)) in
  let tr1 := [EvDialTLS (Address imap) dial] in
  let login := w tr1 _ (Login (Username imap) (Password imap)) in
  let tr2 := tr1 ++ [EvLogin (Username imap) (Password imap) login] in
  match dial, login with
  | Some e, _ =>
      run (S (S fuel)) w (doSessionWith importMessage progressLine imap) []
      = Done (Some e) (tr1 ++ [EvLog (LogConnect e)]) fuel
  | None, Some e =>
      run (S (S (S (S fuel)))) w
        (doSessionWith importMessage progressLine imap) []
      = Done (Some e) (tr2 ++ [EvLog (LogLogin e); EvClientClose]) fuel
  | None, None =>
      exists rest,
        traceOf (run (S (S fuel)) w
                   (doSessionWith importMessage progressLine imap) [])
        = tr2 ++ rest
  end.
Proof.
  cbn zeta. unfold doSessionWith.
  destruct (w [] _ (DialTLS (Address imap))) as [e|] eqn:Edial.
  - runs. rewrite Edial. runs. reflexivity.
  - destruct (w [EvDialTLS (Address imap) None] _
                (Login (Username imap) (Password imap))) as [e|] eqn:Elogin.
    + runs. rewrite Edial. runs. cbn [app]. rewrite Elogin. runs.
      reflexivity.
    + runs. rewrite Edial. runs. cbn [app]. rewrite Elogin. runs.
      destruct (run_extends fuel w
                  (ITree.iter
                     (fun _ : unit => sessionPass importMessage progressLine imap)
                     tt)
                  [EvDialTLS (Address imap) None;
                   EvLogin (Username imap) (Password imap) None])
        as [rest Hrest].
      destruct (run fuel w (ITree.iter _ _) _) as [r tr' more|tr'] eqn:Eiter;
        cbn [traceOf] in Hrest; subst tr'.
      * destruct (run_extends more w
                    (ITree.bind (call ClientClose) (fun _ => Ret r))
                    ([EvDialTLS (Address imap) None;
                      EvLogin (Username imap) (Password imap) None] ++ rest))
          as [rest' Hrest'].
        exists (rest ++ rest'). etransitivity; [exact Hrest'|].
        rewrite <- app_assoc. reflexivity.
      * exists rest. reflexivity.
Qed.

End Connect.

(* ===================================================================== *)
(** * Store and expunge *)
(* ===================================================================== *)

(** The next call of a session, read off what the history allows. *)
Ltac next_call E He :=
  match goal with
  | |- exists r, thenCalls _ _ _ _ (@?y r) =>
      let z := fresh "y" in
      let Hz := fresh "Hy" in
      let r := fresh "r" in
      let Hnext := fresh "Hnext" in
      destruct (session_next (fun z => exists r, z = y r) E)
        as (z & (r & ->) & Hnext);
      [ going He
      | intros z Hz; after Hz He; try contradiction; eauto
      | exists r; exact Hnext ]
  | |- thenCalls _ _ _ _ ?y =>
      let z := fresh "y" in
      let Hz := fresh "Hy" in
      let Hnext := fresh "Hnext" in
      destruct (session_next (fun z => z = y) E) as (z & -> & Hnext);
      [ going He
      | intros z Hz; after Hz He; try contradiction; eauto
      | exact Hnext ]
  end.

(** C9.  [deleteMessage] returns, whatever the server answers: it
    stores, adding the flag [\Deleted], silently, on the set of exactly
    the UID it was given; when the store fails it logs and returns that
    error without an expunge; otherwise it expunges, and a failure of
    the expunge is logged and returned.  In every run of a session: a
    store is issued on the UID of the message fetched in this pass,
    with these flags; an expunge is only ever issued directly after
    such a store has returned nil, and a store that returned nil is
    followed by the expunge; when the store or the expunge fails, the
    session logs the error, closes the connection, issues nothing else
    and returns that error. *)
Theorem C9_store_before_expunge (w : world) (imap : imapCredentials)
    (fuel : nat) (pre post : trace) :
  traceOf (run fuel w (doSession imap) []) = pre ++ post ->
  let flags :=
    {| Op := StoreFlagsAdd; Silent := true; Flags := ["\Deleted"] |} in
  (forall u tr n,
     let out := run (3 + n) w (deleteMessage u) tr in
     let stored := w tr _ (Store (UIDSet [u]) flags) in
     let tr1 := tr ++ [EvStore (UIDSet [u]) flags stored] in
     match stored with
     | Some e => gives out (Some e) (tr1 ++ [EvLog (LogStore e)])
     | None =>
         let expunged := w tr1 _ Expunge in
         let tr2 := tr1 ++ [EvExpunge expunged] in
         match expunged with
         | Some e => gives out (Some e) (tr2 ++ [EvLog (LogExpunge e)])
         | None => gives out None tr2
         end
     end) /\
  (forall s f a post', post = EvStore s f a :: post' ->
     f = flags /\
     exists s' o b rest l r,
       ends pre [EvFetch s' o (inl (b :: rest)); EvFetchClose; EvLog l;
                 EvImport (importCall (messageOf b)) (inl r)] /\
       s = UIDSet [BufUID b]) /\
  (forall a post', post = EvExpunge a :: post' ->
     exists u, ends pre [EvStore (UIDSet [u]) flags None]) /\
  (forall s f, ends pre [EvStore s f None] ->
     exists a, thenCalls w (doSession imap) pre post (EvExpunge a)) /\
  (forall s f e, ends pre [EvStore s f (Some e)] ->
     thenCalls w (doSession imap) pre post (EvLog (LogStore e)) /\
     returnsWith w (doSession imap)
       (pre ++ [EvLog (LogStore e); EvClientClose]) e) /\
  (forall e, ends pre [EvExpunge (Some e)] ->
     thenCalls w (doSession imap) pre post (EvLog (LogExpunge e)) /\
     returnsWith w (doSession imap)
       (pre ++ [EvLog (LogExpunge e); EvClientClose]) e).
Proof.
  intros E flags. subst flags.
  pose proof (doSession_allowed w imap fuel) as Hok.
  repeat match goal with |- _ /\ _ => split end.
  - intros u tr n. cbn zeta. unfold gives.
    change (3 + n) with (S (S (S n))). rewrite deleteMessage_run.
    unfold UIDSetNum, addDeleted, FlagDeleted. cbn zeta.
    destruct (w tr _ (Store _ _)) as [e|]; [eexists; reflexivity|].
    destruct (w _ _ Expunge) as [e|]; eexists; reflexivity.
  - intros s f a post' ->. pose proof (always_at Hok E) as Hx.
    cbn [allowed] in Hx.
    destruct Hx as (s' & o & b & rest & l & r & He & _ & -> & ->).
    split; [reflexivity|]. exists s', o, b, rest, l, r. auto.
  - intros a post' ->. pose proof (always_at Hok E) as Hx.
    cbn [allowed] in Hx. destruct Hx as [s [pre0 ->]].
    rewrite <- app_assoc in E. cbn [app] in E.
    pose proof (always_at Hok E) as H0. cbn [allowed] in H0. destr. subst.
    eexists. eexists. reflexivity.
  - intros s f He. next_call E He.
  - intros s f e He. apply (session_failure_logged e _ E).
    + going He.
    + intros y Hy. after Hy He; reflexivity.
    + unfold failed. do 5 right. left. exists s, f.
      exact (ends_snoc _ He).
  - intros e He. apply (session_failure_logged e _ E).
    + going He.
    + intros y Hy. after Hy He; reflexivity.
    + unfold failed. do 6 right. left. exact (ends_snoc _ He).
Qed.

(* ===================================================================== *)
(** * The drain loop, the fetch and the import *)
(* ===================================================================== *)

(** C3, as the code has it.  In every run of a session, each pass of
    the drain loop (after the login, after every expunge and after
    every idle wait) does select, and every select names the mailbox
    "INBOX"; after a select that reported no message the next call is
    the IDLE of [doIdle] (the drain loop has ended without an error),
    after one that reported messages the session does fetch sequence
    number 1 with the whole body; and when the fetch returned messages,
    the fetch is closed, the first message, built from its UID and its
    body sections, is logged and is handed to [importToGmail]: the
    import call for its bytes is made. *)
Theorem C3_drain_pass (w : world) (imap : imapCredentials) (fuel : nat)
    (pre post : trace) :
  traceOf (run fuel w (doSession imap) []) = pre ++ post ->
  (forall m r post', post = EvSelect m r :: post' -> m = "INBOX") /\
  ((exists u p, ends pre [EvLogin u p None]) \/
   ends pre [EvExpunge None] \/ ends pre [EvIdleWait None] ->
   exists r, thenCalls w (doSession imap) pre post (EvSelect "INBOX" r)) /\
  (forall m count, ends pre [EvSelect m (inl {| NumMessages := count |})] ->
     if (count =? 0)%N
     then exists r, thenCalls w (doSession imap) pre post (EvIdle r)
     else exists r,
         thenCalls w (doSession imap) pre post
           (EvFetch (SeqSet [1%N])
              {| BodySection := [{| Specifier := ""; Peek := false |}] |}
              r)) /\
  (forall s o b rest, ends pre [EvFetch s o (inl (b :: rest))] ->
     thenCalls w (doSession imap) pre post EvFetchClose) /\
  (forall s o b rest, ends pre [EvFetch s o (inl (b :: rest)); EvFetchClose] ->
     thenCalls w (doSession imap) pre post
       (EvLog (LogImporting (Username imap)
                 (length (concat (BodySectionData b)))))) /\
  (forall s o b rest l,
     ends pre [EvFetch s o (inl (b :: rest)); EvFetchClose; EvLog l] ->
     exists r,
       thenCalls w (doSession imap) pre post
         (EvImport
            (importCall {| uid := BufUID b;
                           contents := concat (BodySectionData b) |}) r)).
Proof.
  intros E.
  repeat match goal with |- _ /\ _ => split end.
  - intros m r post' ->.
    pose proof (always_at (doSession_allowed w imap fuel) E) as Hx.
    cbn [allowed] in Hx. tauto.
  - intros [(u & p & He) | [He | He]]; next_call E He.
  - intros m count He. destruct (N.eqb_spec count 0) as [-> | Hne].
    + next_call E He. cbn [NumMessages] in *. lia.
    + destruct (session_next
                  (fun y => exists r, y = EvFetch (SeqSetNum 1) wholeBody r) E)
        as (y & (r & ->) & Hnext).
      * going He.
      * intros y Hy. after Hy He; cbn [NumMessages] in *; eauto.
        contradiction.
      * exists r. exact Hnext.
  - intros s o b rest He. next_call E He.
  - intros s o b rest He.
    change (LogImporting (Username imap) (length (concat (BodySectionData b))))
      with (importingLine imap (messageOf b)).
    next_call E He.
  - intros s o b rest l He.
    change {| uid := BufUID b; contents := concat (BodySectionData b) |}
      with (messageOf b).
    next_call E He.
Qed.

(** [fetchFirstMessage] step by step. *)
Lemma fetchFirstMessage_steps (w : world) (tr : trace) (fuel : nat) :
  let out := run (3 + fuel) w fetchFirstMessage tr in
  let options := {| BodySection := [{| Specifier := ""; Peek := false |}] |} in
  let collected := w tr _ (Fetch (SeqSet [1%N]) options) in
  let tr1 := tr ++ [EvFetch (SeqSet [1%N]) options collected] in
  match collected with
  | inr e => gives out (None, Some e) (tr1 ++ [EvLog (LogFetch e); EvFetchClose])
  | inl [] => gives out (None, None) (tr1 ++ [EvFetchClose])
  | inl (msg :: _) =>
      gives out
        (Some {| uid := BufUID msg;
                 contents := concat (BodySectionData msg) |}, None)
        (tr1 ++ [EvFetchClose])
  end.
Proof.
  cbn zeta. unfold fetchFirstMessage, gives. cbn [Nat.add]. runs.
  unfold SeqSetNum, zeroBodySection.
  destruct (w tr _ (Fetch _ _)) as [[|msg msgs]|e];
    cbn [length Nat.leb]; runs; rewrite <- ?app_assoc; eexists; reflexivity.
Qed.

(** The fetch command is always closed.  [fetchFirstMessage] returns,
    whatever the server answers, and has closed the fetch command when
    it does: after the answer, or after the log line of a failure.  In
    every run of a session: after a fetch that returned (messages or
    none) the session does close the fetch command next; after a fetch
    that failed the session logs the error, closes the fetch command,
    closes the connection, issues nothing else and returns that error;
    and the fetch command is closed at no other moment. *)
Theorem fetch_is_closed (w : world) (imap : imapCredentials) (fuel : nat)
    (pre post : trace) :
  traceOf (run fuel w (doSession imap) []) = pre ++ post ->
  (forall tr n,
     let out := run (3 + n) w fetchFirstMessage tr in
     let options :=
       {| BodySection := [{| Specifier := ""; Peek := false |}] |} in
     let collected := w tr _ (Fetch (SeqSet [1%N]) options) in
     let tr1 := tr ++ [EvFetch (SeqSet [1%N]) options collected] in
     match collected with
     | inr e =>
         gives out (None, Some e) (tr1 ++ [EvLog (LogFetch e); EvFetchClose])
     | inl [] => gives out (None, None) (tr1 ++ [EvFetchClose])
     | inl (msg :: _) =>
         gives out
           (Some {| uid := BufUID msg;
                    contents := concat (BodySectionData msg) |}, None)
           (tr1 ++ [EvFetchClose])
     end) /\
  (forall s o msgs, ends pre [EvFetch s o (inl msgs)] ->
     thenCalls w (doSession imap) pre post EvFetchClose) /\
  (forall s o e, ends pre [EvFetch s o (inr e)] ->
     thenCalls w (doSession imap) pre post (EvLog (LogFetch e)) /\
     returnsWith w (doSession imap)
       (pre ++ [EvLog (LogFetch e); EvFetchClose; EvClientClose]) e) /\
  (forall post', post = EvFetchClose :: post' ->
     (exists s o msgs, ends pre [EvFetch s o (inl msgs)]) \/
     (exists s o e, ends pre [EvFetch s o (inr e); EvLog (LogFetch e)])).
Proof.
  intros E.
  repeat match goal with |- _ /\ _ => split end.
  - exact (fetchFirstMessage_steps w).
  - intros s o msgs He. next_call E He.
  - intros s o e He.
    destruct (session_next (fun y => y = EvLog (LogFetch e)) E)
      as (y & -> & Hnext);
      [going He | intros y Hy; after Hy He; reflexivity |].
    split; [exact Hnext|].
    destruct Hnext as [_ (fuel1 & rest1 & E1)].
    pose proof (ends_snoc (EvLog (LogFetch e)) He) as He1.
    cbn [app] in He1.
    destruct (session_next (fun y => y = EvFetchClose) E1)
      as (y & -> & _ & (fuel2 & rest2 & E2));
      [going He1
      | intros y Hy; after Hy He1; try reflexivity; discriminate |].
    assert (failed ((pre ++ [EvLog (LogFetch e)]) ++ [EvFetchClose]) e) as Hf.
    { unfold failed. right. right. left. exists s, o.
      exact (ends_snoc _ He1). }
    destruct (session_fails E2 Hf) as (fuel3 & more & Hrun).
    exists fuel3, more. rewrite Hrun, <- !app_assoc. reflexivity.
  - intros post' ->.
    pose proof (always_at (doSession_allowed w imap fuel) E) as Hx.
    cbn [allowed] in Hx. exact Hx.
Qed.

(** In every run of a session of [main.go]: a store is only issued right
    after the import of the fetched message's bytes came back with
    status 200 and no error, on that message's UID, adding [\Deleted]
    silently; after such an answer the session does issue that store;
    and after any other answer of the import call (an error of the
    call, or a status other than 200) the session logs the error,
    closes the connection, issues nothing else (no store, no expunge)
    and returns that error. *)
Theorem delete_iff_import_confirmed (w : world) (imap : imapCredentials)
    (fuel : nat) (pre post : trace) :
  traceOf (run fuel w (doSession imap) []) = pre ++ post ->
  let flags :=
    {| Op := StoreFlagsAdd; Silent := true; Flags := ["\Deleted"] |} in
  (forall s f a post', post = EvStore s f a :: post' ->
     exists s' o b rest l resp,
       ends pre [EvFetch s' o (inl (b :: rest)); EvFetchClose; EvLog l;
                 EvImport (importCall (messageOf b)) (inl resp)] /\
       HTTPStatusCode resp = 200%Z /\
       s = UIDSet [BufUID b] /\ f = flags) /\
  (forall s' o b rest l c res,
     ends pre [EvFetch s' o (inl (b :: rest)); EvFetchClose; EvLog l;
               EvImport c res] ->
     importError res = None ->
     exists a,
       thenCalls w (doSession imap) pre post
         (EvStore (UIDSet [BufUID b]) flags a)) /\
  (forall c res e,
     ends pre [EvImport c res] -> importError res = Some e ->
     let line := match res with
                 | inr _ => LogUpload e
                 | inl _ => LogStatus e
                 end in
     thenCalls w (doSession imap) pre post (EvLog line) /\
     returnsWith w (doSession imap) (pre ++ [EvLog line; EvClientClose]) e).
Proof.
  intros E flags. subst flags.
  repeat match goal with |- _ /\ _ => split end.
  - intros s f a post' ->.
    pose proof (always_at (doSession_allowed w imap fuel) E) as Hx.
    cbn [allowed] in Hx. exact Hx.
  - intros s' o b rest l c res He Hnone.
    apply importError_none in Hnone. destruct Hnone as (r & -> & H200).
    destruct (session_next
                (fun y => exists a,
                     y = EvStore (UIDSetNum (BufUID b)) addDeleted a) E)
      as (y & (a & ->) & Hnext).
    + going He.
    + intros y Hy. after Hy He; try contradiction. eauto.
    + exists a. exact Hnext.
  - intros c res e He Herr. cbn zeta.
    apply importError_some in Herr.
    destruct Herr as [-> | (r & -> & Hne & ->)];
      apply (session_failure_logged _ _ E).
    + going He.
    + intros y Hy. after Hy He; try contradiction; reflexivity.
    + unfold failed. do 3 right. left. exists c. exact (ends_snoc _ He).
    + going He.
    + intros y Hy. after Hy He; try contradiction; reflexivity.
    + unfold failed. do 4 right. left. exists c, r.
      split; [exact (ends_snoc _ He) | split; [exact Hne | reflexivity]].
Qed.

(* ===================================================================== *)
(** * The idle wait *)
(* ===================================================================== *)

(** [doIdle] step by step. *)
Lemma doIdle_steps (w : world) (d : Duration) (tr : trace) (fuel : nat) :
  let out := run (6 + fuel) w (doIdle d) tr in
  let entered := w tr _ Idle in
  let tr1 := tr ++ [EvIdle entered] in
  match entered with
  | Some e => gives out (Some e) (tr1 ++ [EvLog (LogIdle e)])
  | None =>
      let fired := w tr1 _ (AwaitUpdate d) in
      let tr2 := tr1 ++ [EvAwaitUpdate d fired] in
      let tr3 := match fired with
                 | Notified => tr2 ++ [EvTimerStop]
                 | TimedOut => tr2
                 end in
      let closed := w tr3 _ IdleClose in
      let tr4 := tr3 ++ [EvIdleClose closed] in
      match closed with
      | Some e => gives out (Some e) (tr4 ++ [EvLog (LogIdle e)])
      | None =>
          let acknowledged := w tr4 _ IdleWait in
          let tr5 := tr4 ++ [EvIdleWait acknowledged] in
          match acknowledged with
          | Some e => gives out (Some e) (tr5 ++ [EvLog (LogIdle e)])
          | None => gives out nil tr5
          end
      end
  end.
Proof.
  cbn zeta. unfold doIdle, gives. cbn [Nat.add]. runs.
  destruct (w tr _ Idle) as [e|]; runs; [eexists; reflexivity|].
  destruct (w (tr ++ [EvIdle None]) _ (AwaitUpdate d)); runs;
    match goal with
    | |- context [w ?t _ IdleClose] =>
        destruct (w t _ IdleClose) as [e|]; runs; [eexists; reflexivity|]
    end;
    match goal with
    | |- context [w ?t _ IdleWait] =>
        destruct (w t _ IdleWait) as [e|]; runs; eexists; reflexivity
    end.
Qed.

(** C4.  The wait of [doIdle] is blocked while nothing happens on the
    session's channel and ends with the first update or with the timer,
    whichever comes first; the timer is set to [maxPollTime], five
    minutes.  [doIdle] returns, whatever the server answers: a failure
    to enter IDLE is logged and returned at once; otherwise it waits,
    stops the timer after an update, closes the idle request, then
    waits for the acknowledgment, and a failure of either is logged and
    returned.  In every run of a session: once IDLE is entered the
    session does wait, whichever case ends the wait the session does
    close the idle request and, that done, does wait for the
    acknowledgment; the drain loop's select comes after that
    acknowledgment, and only after it, the login or an expunge; and
    when entering or leaving IDLE fails, the session logs the error,
    closes the connection and returns that error. *)
Theorem C4_idle_wait (w : world) (imap : imapCredentials) (fuel : nat)
    (pre post : trace) :
  traceOf (run fuel w (doSession imap) []) = pre ++ post ->
  selectUpdate [] = None /\
  (forall data rest, selectUpdate (Push data :: rest) = Some Notified) /\
  (forall rest, selectUpdate (Deadline :: rest) = Some TimedOut) /\
  maxPollTime = (5 * 60 * 1000000000)%Z /\
  (forall d tr n,
     let out := run (6 + n) w (doIdle d) tr in
     let entered := w tr _ Idle in
     let tr1 := tr ++ [EvIdle entered] in
     match entered with
     | Some e => gives out (Some e) (tr1 ++ [EvLog (LogIdle e)])
     | None =>
         let fired := w tr1 _ (AwaitUpdate d) in
         let tr2 := tr1 ++ [EvAwaitUpdate d fired] in
         let tr3 := match fired with
                    | Notified => tr2 ++ [EvTimerStop]
                    | TimedOut => tr2
                    end in
         let closed := w tr3 _ IdleClose in
         let tr4 := tr3 ++ [EvIdleClose closed] in
         match closed with
         | Some e => gives out (Some e) (tr4 ++ [EvLog (LogIdle e)])
         | None =>
             let acknowledged := w tr4 _ IdleWait in
             let tr5 := tr4 ++ [EvIdleWait acknowledged] in
             match acknowledged with
             | Some e => gives out (Some e) (tr5 ++ [EvLog (LogIdle e)])
             | None => gives out None tr5
             end
         end
     end) /\
  (ends pre [EvIdle None] ->
     exists c, thenCalls w (doSession imap) pre post
                 (EvAwaitUpdate maxPollTime c)) /\
  (forall d, ends pre [EvAwaitUpdate d Notified] ->
     thenCalls w (doSession imap) pre post EvTimerStop) /\
  (forall d, ends pre [EvAwaitUpdate d Notified; EvTimerStop] ->
     exists r, thenCalls w (doSession imap) pre post (EvIdleClose r)) /\
  (forall d, ends pre [EvAwaitUpdate d TimedOut] ->
     exists r, thenCalls w (doSession imap) pre post (EvIdleClose r)) /\
  (ends pre [EvIdleClose None] ->
     exists r, thenCalls w (doSession imap) pre post (EvIdleWait r)) /\
  (ends pre [EvIdleWait None] ->
     exists r, thenCalls w (doSession imap) pre post (EvSelect "INBOX" r)) /\
  (forall m r post', post = EvSelect m r :: post' ->
     (exists u p, ends pre [EvLogin u p None]) \/
     ends pre [EvExpunge None] \/ ends pre [EvIdleWait None]) /\
  (forall e,
     ends pre [EvIdle (Some e)] \/ ends pre [EvIdleClose (Some e)] \/
     ends pre [EvIdleWait (Some e)] ->
     thenCalls w (doSession imap) pre post (EvLog (LogIdle e)) /\
     returnsWith w (doSession imap) (pre ++ [EvLog (LogIdle e); EvClientClose]) e).
Proof.
  intros E.
  repeat match goal with |- _ /\ _ => split end.
  - reflexivity.
  - reflexivity.
  - reflexivity.
  - reflexivity.
  - exact (doIdle_steps w).
  - intros He.
    destruct (session_next (fun y => exists c, y = EvAwaitUpdate maxPollTime c)
                E) as (y & (c & ->) & Hnext);
      [going He | intros y Hy; after Hy He; eauto |].
    exists c. exact Hnext.
  - intros d He.
    destruct (session_next (fun y => y = EvTimerStop) E) as (y & -> & Hnext);
      [going He | intros y Hy; after Hy He; eauto |].
    exact Hnext.
  - intros d He.
    destruct (session_next (fun y => exists r, y = EvIdleClose r) E)
      as (y & (r & ->) & Hnext);
      [going He | intros y Hy; after Hy He; eauto |].
    exists r. exact Hnext.
  - intros d He.
    destruct (session_next (fun y => exists r, y = EvIdleClose r) E)
      as (y & (r & ->) & Hnext);
      [going He | intros y Hy; after Hy He; eauto |].
    exists r. exact Hnext.
  - intros He.
    destruct (session_next (fun y => exists r, y = EvIdleWait r) E)
      as (y & (r & ->) & Hnext);
      [going He | intros y Hy; after Hy He; eauto |].
    exists r. exact Hnext.
  - intros He.
    destruct (session_next (fun y => exists r, y = EvSelect "INBOX" r) E)
      as (y & (r & ->) & Hnext);
      [going He | intros y Hy; after Hy He; eauto |].
    exists r. exact Hnext.
  - intros m r post' ->.
    pose proof (always_at (doSession_allowed w imap fuel) E) as Hx.
    cbn [allowed] in Hx. tauto.
  - intros e He.
    destruct (session_next (fun y => y = EvLog (LogIdle e)) E)
      as (y & -> & Hnext).
    { destruct He as [He|[He|He]]; going He. }
    { intros y Hy. destruct He as [He|[He|He]]; after Hy He; reflexivity. }
    split; [exact Hnext|].
    destruct Hnext as [_ (fuel' & rest & E')].
    assert (failed (pre ++ [EvLog (LogIdle e)]) e) as Hf.
    { unfold failed. do 7 right.
      destruct He as [He|[He|He]];
        [left | right; left | right; right];
        destruct He as [pre0 ->]; exists pre0;
        rewrite <- app_assoc; reflexivity. }
    destruct (session_fails E' Hf) as (fuel'' & more & Hrun).
    exists fuel'', more. rewrite Hrun, <- app_assoc. reflexivity.
Qed.

(* ===================================================================== *)
(** * The supervisor *)
(* ===================================================================== *)

(** One turn of the supervisor's loop: the session, the pause, and the
    loop again. *)
Lemma supervise_turn (w : world) (imap : imapCredentials) (n : nat)
    (tr : trace) :
  run n w (supervise imap) tr =
  match run n w (doSession imap) tr with
  | Done _ tr' (S (S more)) =>
      run more w (supervise imap) (tr' ++ [EvSleep maxPollTime])
  | Done _ tr' 1 => Running (tr' ++ [EvSleep maxPollTime])
  | Done _ tr' 0 => Running tr'
  | Running tr' => Running tr'
  end.
Proof.
  unfold supervise, superviseWith. rewrite run_forever, run_bind.
  fold (doSession imap).
  destruct (run n w (doSession imap) tr) as [r tr' [|[|more]]|tr'];
    rewrite ?run_call; reflexivity.
Qed.

Lemma underWay_snoc tr x :
  underWay (tr ++ [x]) = if isPause x then 0 else 1.
Proof. unfold underWay. rewrite rev_app_distr. reflexivity. Qed.

Lemma underWay_ends tr l x :
  ends tr (l ++ [x]) -> underWay tr = if isPause x then 0 else 1.
Proof. intros [pre ->]. rewrite app_assoc. apply underWay_snoc. Qed.

Lemma sessionsStarted_snoc tr x :
  sessionsStarted (tr ++ [x]) = sessionsStarted tr + if isDial x then 1 else 0.
Proof.
  unfold sessionsStarted. rewrite filter_app, length_app. cbn [filter].
  destruct (isDial x); reflexivity.
Qed.

Lemma pauses_snoc tr x :
  pauses (tr ++ [x]) = pauses tr + if isPause x then 1 else 0.
Proof.
  unfold pauses. rewrite filter_app, length_app. cbn [filter].
  destruct (isPause x); reflexivity.
Qed.

Ltac lastCall H :=
  match type of H with
  | ends _ [?a] => apply (underWay_ends _ [] a) in H
  | ends _ [?a; ?b] => apply (underWay_ends _ [a] b) in H
  | ends _ [?a; ?b; ?c] => apply (underWay_ends _ [a; b] c) in H
  | ends _ [?a; ?b; ?c; ?d] => apply (underWay_ends _ [a; b; c] d) in H
  end; cbn [isPause] in H.

(** The sessions started so far are one for each pause, and the one
    under way if there is one. *)
Lemma sessions_and_pauses imap tr :
  always (allowed true imap) tr ->
  sessionsStarted tr = pauses tr + underWay tr.
Proof.
  revert tr.
  apply (always_invariant (allowed true imap)
           (fun tr => sessionsStarted tr = pauses tr + underWay tr));
    [reflexivity|].
  intros pre x Hok IH Hx.
  rewrite sessionsStarted_snoc, pauses_snoc, underWay_snoc, IH.
  destruct x as [a r| |u p r|m r|s o r| |c r|s f r|r|r|d r| |r|r|l|d];
    cbn [isDial isPause];
    cbn [allowed] in Hx.
  all: try (destruct l; cbn [allowedLog] in Hx).
  all: unfold failed in Hx; destr; subst.
  all: try match goal with H : ends ?p _ |- _ => lastCall H; rewrite H end.
  all: try reflexivity; try lia.
Qed.

(** C6.  [main] starts a supervisor for every configured account.  A
    turn of the supervisor's loop is a session, then the pause of
    [maxPollTime], then the loop again, whatever the session returned.
    In every run of a supervisor: it does start a session, by dialling
    the account's address, and after a dial that succeeded the session
    does log in; a finished session (its connection closed, or its dial
    failed and logged) is followed by the pause, every pause lasts
    [maxPollTime] and follows a finished session, and after every pause
    the next session does start, by dialling the account's address
    again, so that the sessions started are one more than the pauses,
    however many these are; [maxPollTime], five minutes, is also the
    deadline of every idle wait.  The supervisor never returns, and
    where no session gets through, the number of sessions started
    grows beyond every bound. *)
Theorem C6_supervisor (w : world) (imap : imapCredentials) (fuel : nat)
    (pre post : trace) :
  traceOf (run fuel w (supervise imap) []) = pre ++ post ->
  (forall cfg, In imap (Imap cfg) -> In (supervise imap) (mainTasks cfg)) /\
  (forall n tr,
     run n w (supervise imap) tr =
     match run n w (doSession imap) tr with
     | Done _ tr' (S (S more)) =>
         run more w (supervise imap) (tr' ++ [EvSleep (5 * Minute)%Z])
     | Done _ tr' 1 => Running (tr' ++ [EvSleep (5 * Minute)%Z])
     | Done _ tr' 0 => Running tr'
     | Running tr' => Running tr'
     end) /\
  (exists r, reaches w (supervise imap) [EvDialTLS (Address imap) r]) /\
  (ends pre [EvDialTLS (Address imap) None] ->
   exists r,
     thenCalls w (supervise imap) pre post
       (EvLogin (Username imap) (Password imap) r)) /\
  (ends pre [EvClientClose] \/
   (exists e, ends pre [EvDialTLS (Address imap) (Some e);
                        EvLog (LogConnect e)]) ->
   thenCalls w (supervise imap) pre post (EvSleep maxPollTime)) /\
  (forall d post', post = EvSleep d :: post' ->
     d = maxPollTime /\
     (ends pre [EvClientClose] \/
      exists e, ends pre [EvDialTLS (Address imap) (Some e);
                          EvLog (LogConnect e)])) /\
  (forall d, ends pre [EvSleep d] ->
     exists r,
       thenCalls w (supervise imap) pre post (EvDialTLS (Address imap) r) /\
       sessionsStarted (pre ++ [EvDialTLS (Address imap) r])
       = S (pauses pre)) /\
  sessionsStarted pre = pauses pre + underWay pre /\
  (forall d c post', post = EvAwaitUpdate d c :: post' -> d = maxPollTime) /\
  maxPollTime = (5 * 60 * 1000000000)%Z /\
  (forall n, resultOf (run n w (supervise imap) []) = None) /\
  (forall n, exists n',
     sessionsStarted (traceOf (run n' (serve unreachable) (supervise imap) []))
     = n).
Proof.
  intros E.
  pose proof (supervise_allowed w imap fuel) as Hok.
  assert (always (allowed true imap) pre) as Hpre
      by (rewrite E in Hok; exact (always_prefix _ _ _ Hok)).
  repeat match goal with |- _ /\ _ => split end.
  - intros cfg Hin. unfold mainTasks. apply in_map. exact Hin.
  - exact (supervise_turn w imap).
  - destruct (@supervise_next w imap 0 [] []
                (fun y => exists r, y = EvDialTLS (Address imap) r))
      as (y & (r & ->) & _ & Hnext).
    + rewrite run_eq. reflexivity.
    + intros y Hy.
      destruct y; cbn [allowed allowedLog] in Hy; unfold failed in Hy;
        destr; subst; eauto;
        try match goal with
            | H : ends [] _ |- _ => destruct (ends_nil_cons H)
            end.
      destruct l; cbn [allowedLog] in Hy; destr;
        match goal with
        | H : ends [] _ |- _ => destruct (ends_nil_cons H)
        end.
    + exists r. exact Hnext.
  - intros He.
    destruct (supervise_next
                (fun y => exists r,
                     y = EvLogin (Username imap) (Password imap) r) E)
      as (y & (r & ->) & Hnext);
      [intros y Hy; after Hy He; eauto; discriminate |].
    exists r. exact Hnext.
  - intros Hfin.
    destruct (supervise_next (fun y => y = EvSleep maxPollTime) E)
      as (y & -> & Hnext); [|exact Hnext].
    intros y Hy.
    destruct Hfin as [He | [e He]]; after Hy He; try reflexivity;
      discriminate.
  - intros d post' ->. pose proof (always_at Hok E) as Hx.
    cbn [allowed] in Hx. tauto.
  - intros d He.
    destruct (supervise_next
                (fun y => exists r, y = EvDialTLS (Address imap) r) E)
      as (y & (r & ->) & Hnext);
      [intros y Hy; after Hy He; eauto |].
    exists r. split; [exact Hnext|].
    rewrite sessionsStarted_snoc, (sessions_and_pauses imap pre Hpre).
    lastCall He. rewrite He. cbn [isDial]. lia.
  - exact (sessions_and_pauses imap pre Hpre).
  - intros d c post' ->. pose proof (always_at Hok E) as Hx.
    cbn [allowed] in Hx. tauto.
  - reflexivity.
  - intros n. destruct (run n w (supervise imap) []) as [[]|].
    reflexivity.
  - intros n. exists (4 * n).
    rewrite supervise_unreachable. cbn [traceOf app].
    apply sessionsStarted_attempts.
Qed.

(* ===================================================================== *)
(** * The import of the earlier program *)
(* ===================================================================== *)

(** [deleteMessage] begins with the store. *)
Lemma deleteMessage_first (w : world) (u : UID) (n : nat) (tr : trace) :
  exists more,
    traceOf (run (S n) w (deleteMessage u) tr)
    = tr ++ EvStore (UIDSet [u])
              {| Op := StoreFlagsAdd; Silent := true; Flags := ["\Deleted"] |}
              (w tr _ (Store (UIDSet [u])
                         {| Op := StoreFlagsAdd; Silent := true;
                            Flags := ["\Deleted"] |}))
            :: more.
Proof.
  unfold deleteMessage. rewrite run_bind, run_call. cbn beta iota.
  cbn [record]. unfold UIDSetNum, addDeleted, FlagDeleted.
  match goal with
  | |- context [run ?n w ?t ?tr0] =>
      destruct (run_extends n w t tr0) as [more Hmore]
  end.
  exists more. etransitivity; [exact Hmore|].
  rewrite <- app_assoc. reflexivity.
Qed.

(** C2 fails in the earlier program for an answer with a 2xx status
    other than 200, which [Do] returns without an error.  Take a pass
    of the drain loop in which the select reports messages, the fetch
    returns the message [b] and the import call comes back with such a
    status (202, say).  [importToGmail] of the earlier program logs the
    status and returns nil, and the pass goes on to store [\Deleted] on
    the UID of [b]: the status is treated as a success.
    [importToGmail] of [main.go] returns the status as an error, and
    the pass ends with that error after the log line, without a
    store. *)
Theorem C2_legacy_import_accepts_other_2xx (w : world)
    (imap : imapCredentials) (tr : trace) (fuel : nat) (count : SelectData)
    (b : FetchMessageBuffer) (rest : list FetchMessageBuffer)
    (r : ImportResponse) :
  let options := {| BodySection := [{| Specifier := ""; Peek := false |}] |} in
  let m := {| uid := BufUID b; contents := concat (BodySectionData b) |} in
  let code := HTTPStatusCode r in
  let fetched := [EvSelect "INBOX" (inl count);
                  EvFetch (SeqSet [1%N]) options (inl (b :: rest));
                  EvFetchClose] in
  let earlier := tr ++ fetched
                    ++ [EvLog (LogImportingEmail (length (contents m)))] in
  let current := tr ++ fetched
                    ++ [EvLog (LogImporting (Username imap)
                                 (length (contents m)))] in
  w tr _ (Select "INBOX") = inl count -> (0 < NumMessages count)%N ->
  w (tr ++ [EvSelect "INBOX" (inl count)]) _ (Fetch (SeqSet [1%N]) options)
  = inl (b :: rest) ->
  w earlier _ (Import (importCall m)) = inl r ->
  w current _ (Import (importCall m)) = inl r ->
  (200 <= code < 300)%Z -> code <> 200%Z ->
  run (2 + fuel) w (Legacy.importToGmail m) earlier
  = Done None
      (earlier ++ [EvImport (importCall m) (inl r);
                   EvLog (LogStatusCode code)]) fuel /\
  (exists a more,
     traceOf (run (7 + fuel) w
                (drainPass Legacy.importToGmail Legacy.importingLine imap) tr)
     = earlier ++ [EvImport (importCall m) (inl r);
                   EvLog (LogStatusCode code);
                   EvStore (UIDSet [BufUID b])
                     {| Op := StoreFlagsAdd; Silent := true;
                        Flags := ["\Deleted"] |} a] ++ more) /\
  run (2 + fuel) w (importToGmail m) current
  = Done (Some (StatusCodeError code))
      (current ++ [EvImport (importCall m) (inl r);
                   EvLog (LogStatus (StatusCodeError code))]) fuel /\
  run (6 + fuel) w (drainPass importToGmail importingLine imap) tr
  = Done (inr (Return (Some (StatusCodeError code))))
      (current ++ [EvImport (importCall m) (inl r);
                   EvLog (LogStatus (StatusCodeError code))]) fuel.
Proof.
  cbn zeta. intros Hsel Hcount Hfetch Hold Hnew _ Hcode.
  assert ((HTTPStatusCode r =? 200)%Z = false) as Hne
      by (apply Z.eqb_neq; exact Hcode).
  assert ((NumMessages count <=? 0)%N = false) as Hpos
      by (apply N.leb_gt; exact Hcount).
  repeat match goal with |- _ /\ _ => split end.
  - change (2 + fuel) with (S (S fuel)).
    rewrite Legacy_importToGmail_run. cbn zeta. rewrite Hold, Hne.
    rewrite <- !app_assoc. reflexivity.
  - change (7 + fuel) with (S (S (S (S (S (S (S fuel))))))).
    unfold drainPass. runs. rewrite Hsel. runs. rewrite Hpos.
    unfold fetchFirstMessage. runs.
    unfold SeqSetNum, zeroBodySection. rewrite Hfetch. runs.
    cbn [length Nat.leb]. runs.
    unfold Legacy.importingLine at 1. cbn [contents].
    rewrite <- !app_assoc. cbn [app].
    cbn [app contents] in Hold.
    unfold Legacy.importToGmail. runs. rewrite Hold. runs. rewrite Hne.
    cbn [negb]. runs. cbn [uid].
    match goal with
    | |- context [run (S fuel) ?w' (deleteMessage ?u) ?tr0] =>
        destruct (deleteMessage_first w' u fuel tr0) as [more Hmore];
        remember (run (S fuel) w' (deleteMessage u) tr0) as o eqn:Eo
    end.
    match type of Hmore with
    | _ = _ ++ EvStore _ _ ?a :: _ => exists a
    end.
    clear Eo. destruct o as [o tr' n'|tr']; cbn [traceOf] in Hmore; subst tr'.
    + match goal with
      | |- context [run ?n w ?t ?tr0] =>
          destruct (run_extends n w t tr0) as [more' Hmore']
      end.
      exists (more ++ more'). etransitivity; [exact Hmore'|].
      rewrite <- !app_assoc. reflexivity.
    + exists more. cbn [traceOf]. rewrite <- !app_assoc. reflexivity.
  - change (2 + fuel) with (S (S fuel)).
    unfold importToGmail. runs. rewrite Hnew. runs. rewrite Hne.
    cbn [negb]. runs. rewrite <- !app_assoc. reflexivity.
  - change (6 + fuel) with (S (S (S (S (S (S fuel)))))).
    unfold drainPass. runs. rewrite Hsel. runs. rewrite Hpos.
    unfold fetchFirstMessage. runs.
    unfold SeqSetNum, zeroBodySection. rewrite Hfetch. runs.
    cbn [length Nat.leb]. runs.
    unfold importingLine at 1. cbn [contents].
    rewrite <- !app_assoc. cbn [app].
    cbn [app contents] in Hnew.
    unfold importToGmail. runs. rewrite Hnew. runs. rewrite Hne.
    cbn [negb]. runs. rewrite <- !app_assoc. reflexivity.
Qed.

(* ===================================================================== *)
(** * No message is lost *)
(* ===================================================================== *)

Lemma always_and (R1 R2 : trace -> event -> Prop) tr :
  always R1 tr -> always R2 tr -> always (fun pre x => R1 pre x /\ R2 pre x) tr.
Proof. intros H1 H2 pre x post E. split; eauto. Qed.

(** Every event of a run is a call with the answer of the environment. *)
Lemma run_answers {R} w fuel :
  forall (t : itree sessionE R) tr,
    always (answers w) tr -> always (answers w) (traceOf (run fuel w t tr)).
Proof.
  induction fuel as [|f IH]; intros t tr Htr; rewrite run_eq;
    destruct (observe t); cbn [traceOf]; try exact Htr.
  - apply IH. exact Htr.
  - apply IH. apply always_snoc; [exact Htr|].
    exists X, e. reflexivity.
Qed.

Lemma mailboxAfter_snoc msgs tr x :
  mailboxAfter msgs (tr ++ [x]) = mailboxStep (mailboxAfter msgs tr) x.
Proof. unfold mailboxAfter. rewrite fold_left_app. reflexivity. Qed.

Lemma mailboxAfter_app msgs tr l :
  mailboxAfter msgs (tr ++ l) = fold_left mailboxStep l (mailboxAfter msgs tr).
Proof. unfold mailboxAfter. apply fold_left_app. Qed.

(** A store leaves the messages that it does not name alone. *)
Lemma storeFrom_other names f sl :
  (forall position, names position (BufUID (held sl)) = false) ->
  forall mb position, In sl mb -> In sl (storeFrom names f position mb).
Proof.
  intros Hn. induction mb as [|sl' mb IH]; intros position Hin; [exact Hin|].
  cbn [storeFrom]. destruct Hin as [-> | Hin].
  - left. rewrite Hn. reflexivity.
  - right. apply IH. exact Hin.
Qed.

(** A store on one UID leaves the messages with another UID alone. *)
Lemma store_other u f sl :
  u <> 0%N -> BufUID (held sl) <> u ->
  forall mb, In sl mb -> In sl (store (UIDSetNum u) f mb).
Proof.
  intros H0 Hu mb Hin. unfold store. apply storeFrom_other; [|exact Hin].
  intros position. cbn [inSet UIDSetNum existsb]. unfold meant.
  destruct (N.eqb_spec u 0); [contradiction|].
  destruct (N.eqb_spec (BufUID (held sl)) u); [contradiction|reflexivity].
Qed.

Lemma expunge_unflagged sl mb :
  In sl mb -> flaggedDeleted sl = false -> In sl (expunge mb).
Proof.
  intros Hin Hf. unfold expunge. apply filter_In. rewrite Hf. auto.
Qed.

(** Messages of one mailbox with the same UID are the same message. *)
Lemma same_UID msgs :
  NoDup (map BufUID msgs) ->
  forall b b', In b msgs -> In b' msgs -> BufUID b = BufUID b' -> b = b'.
Proof.
  induction msgs as [|a msgs IH]; intros Hnd b b' Hb Hb' E; [destruct Hb|].
  cbn [map] in Hnd. inversion Hnd as [|? ? Hnot Hnd']; subst.
  destruct Hb as [-> | Hb], Hb' as [-> | Hb'].
  - reflexivity.
  - exfalso. apply Hnot. rewrite E. apply in_map. exact Hb'.
  - exfalso. apply Hnot. rewrite <- E. apply in_map. exact Hb.
  - apply IH; assumption.
Qed.

Lemma confirmed_snoc b tr x : confirmed b tr -> confirmed b (tr ++ [x]).
Proof.
  intros (r & Hin & Hr). exists r. split; [|exact Hr].
  apply in_or_app. left. exact Hin.
Qed.

Lemma answers_fetch w pre s o r :
  answers w pre (EvFetch s o r) -> r = w pre _ (Fetch s o).
Proof.
  intros (X & e & E). destruct e; cbn [record] in E; try discriminate.
  inversion E; subst. reflexivity.
Qed.

Section Kept.

Variable w : world.
Variable imap : imapCredentials.
Variable msgs : list FetchMessageBuffer.

(** The UIDs of a mailbox are unique and none is 0, and the server
    answers a fetch with messages of the mailbox only, as the mailbox
    holds them: with their UID. *)
Hypothesis uniqueUIDs : NoDup (map BufUID msgs).
Hypothesis validUIDs : forall b, In b msgs -> BufUID b <> 0%N.
Hypothesis fetchedFromMailbox :
  forall tr s o b rest, w tr _ (Fetch s o) = inl (b :: rest) -> In b msgs.

Let kept (tr : trace) : Prop :=
  (forall s o b rest, In (EvFetch s o (inl (b :: rest))) tr -> In b msgs) /\
  (forall b, In b msgs ->
     In {| held := b; flaggedDeleted := false |} (mailboxAfter msgs tr) \/
     confirmed b tr).

Lemma kept_always sup tr :
  always (fun pre x => allowed sup imap pre x /\ answers w pre x) tr ->
  kept tr.
Proof.
  revert tr. apply always_invariant.
  - split; [intros s o b rest []|].
    intros b Hb. left. unfold mailboxAfter, arrived. cbn [fold_left].
    apply in_map with (f := fun b => {| held := b; flaggedDeleted := false |}).
    exact Hb.
  - intros pre x _ [Hfetch Hkept] [Hx Hans]. split.
    + intros s o b rest Hin. apply in_app_or in Hin.
      destruct Hin as [Hin | [-> | []]]; [eauto|].
      apply answers_fetch in Hans. symmetry in Hans.
      exact (fetchedFromMailbox _ _ _ _ _ Hans).
    + intros b Hb. rewrite mailboxAfter_snoc.
      destruct (Hkept b Hb) as [Hin | Hc];
        [|right; apply confirmed_snoc; exact Hc].
      destruct x as [| | | | | | |s f [e|]|[e|]| | | | | | |];
        cbn [mailboxStep]; try (left; exact Hin).
      * cbn [allowed] in Hx.
        destruct Hx as (s' & o & b0 & rest & l & r & He & Hr & -> & ->).
        assert (In b0 msgs) as Hb0.
        { destruct He as [p ->]. apply (Hfetch s' o b0 rest).
          apply in_or_app. right. left. reflexivity. }
        destruct (N.eq_dec (BufUID b) (BufUID b0)) as [E | E].
        -- right. apply confirmed_snoc.
           rewrite (same_UID msgs uniqueUIDs b b0 Hb Hb0 E).
           exists r. split; [|exact Hr].
           destruct He as [p ->]. apply in_or_app. right.
           right. right. right. left. reflexivity.
        -- left.
           apply store_other; [exact (validUIDs b0 Hb0) | exact E | exact Hin].
      * left. apply expunge_unflagged; [exact Hin | reflexivity].
Qed.

End Kept.

(** No message is lost, where the server sends the UID.  Take a
    mailbox whose UIDs are unique and none of them 0, and a server that
    answers a fetch with messages of that mailbox only, as the mailbox
    holds them, that is with their UID, though the fetch of the program
    does not ask for it; everything else may go as it will (any call
    may fail, Gmail may answer anything, sessions may end and start
    again).  Then in every run of the account's supervisor, every
    message of the mailbox is still in the mailbox or Gmail has
    confirmed the import of its bytes with status 200.  A store on the
    UID 0, which names the message with the highest UID, does not occur
    in such a run. *)
Theorem no_message_lost (w : world) (imap : imapCredentials)
    (msgs : list FetchMessageBuffer) (fuel : nat) (b : FetchMessageBuffer) :
  NoDup (map BufUID msgs) ->
  (forall b, In b msgs -> BufUID b <> 0%N) ->
  (forall tr s o b rest, w tr _ (Fetch s o) = inl (b :: rest) -> In b msgs) ->
  In b msgs ->
  let tr := traceOf (run fuel w (supervise imap) []) in
  (In b (map held (mailboxAfter msgs tr)) \/ confirmed b tr) /\
  forall pre s f a post, tr = pre ++ EvStore s f a :: post ->
    exists u, s = UIDSet [u] /\ u <> 0%N.
Proof.
  intros Hnd Hv Hw Hb tr.
  assert (always (fun pre x => allowed true imap pre x /\ answers w pre x) tr)
    as Hok.
  { apply always_and; [apply supervise_allowed|].
    apply run_answers. apply always_nil. }
  split.
  - destruct (kept_always w imap msgs Hnd Hv Hw true tr Hok) as [_ Hkept].
    destruct (Hkept b Hb) as [Hin | Hc]; [left | right; exact Hc].
    apply in_map with (f := held) in Hin. exact Hin.
  - intros pre s f a post E.
    destruct (always_at Hok E) as [Hx _]. cbn [allowed] in Hx.
    destruct Hx as (s' & o & b0 & rest & l & r & He & _ & -> & _).
    exists (BufUID b0). split; [reflexivity|].
    apply Hv. rewrite E in Hok. apply always_prefix in Hok.
    destruct (kept_always w imap msgs Hnd Hv Hw true pre Hok) as [Hfetch _].
    destruct He as [p ->]. apply (Hfetch s' o b0 rest).
    apply in_or_app. right. left. reflexivity.
Qed.

(* ===================================================================== *)
(** * Draining the mailbox *)
(* ===================================================================== *)

Lemma length_arrived msgs : length (arrived msgs) = length msgs.
Proof. apply length_map. Qed.

Lemma messageOf_reply sendsUID b :
  contents (messageOf (reply sendsUID b)) = contents (messageOf b).
Proof. destruct sendsUID; reflexivity. Qed.

Lemma importCall_reply sendsUID b :
  importCall (messageOf (reply sendsUID b)) = importCall (messageOf b).
Proof. destruct sendsUID; reflexivity. Qed.

Lemma fetchedFrom_later count highest mb :
  forall position, (1 < position)%N ->
    fetchedFrom (inSet (SeqSetNum 1) count highest) position mb = [].
Proof.
  induction mb as [|sl mb IH]; intros position Hp; [reflexivity|].
  cbn [fetchedFrom inSet SeqSetNum existsb]. unfold meant. cbn [N.eqb].
  destruct (N.eqb_spec position 1); [lia|]. cbn [orb app].
  apply IH. lia.
Qed.

Lemma fetched_first sendsUID b rest :
  fetched sendsUID (SeqSetNum 1) (arrived (b :: rest)) = [reply sendsUID b].
Proof.
  unfold fetched.
  cbn [arrived map fetchedFrom inSet SeqSetNum existsb held]. unfold meant.
  cbn [N.eqb Pos.eqb orb app]. rewrite fetchedFrom_later by lia. reflexivity.
Qed.

(** A store on a single number of a UID set flags the messages with
    the UID that it stands for. *)
Lemma store_UID n f mb :
  store (UIDSetNum n) f mb =
  map (fun sl =>
         if (BufUID (held sl) =? meant (highestUID mb) n)%N
         then {| held := held sl;
                 flaggedDeleted := setDeleted f (flaggedDeleted sl) |}
         else sl) mb.
Proof.
  unfold store. generalize (highestUID mb) as h, (N.of_nat (length mb)) as c.
  intros h c. generalize 1%N as position.
  induction mb as [|sl mb IH]; intros position; [reflexivity|].
  cbn [storeFrom map inSet UIDSetNum existsb]. rewrite orb_false_r.
  f_equal. apply IH.
Qed.

Lemma store_absent u f msgs :
  ~ In u (map BufUID msgs) ->
  map (fun sl =>
         if (BufUID (held sl) =? u)%N
         then {| held := held sl;
                 flaggedDeleted := setDeleted f (flaggedDeleted sl) |}
         else sl) (arrived msgs)
  = arrived msgs.
Proof.
  induction msgs as [|b msgs IH]; intros Hu; [reflexivity|].
  cbn [arrived map held].
  destruct (N.eqb_spec (BufUID b) u) as [E|E].
  - exfalso. apply Hu. left. exact E.
  - f_equal. apply IH. intros Hin. apply Hu. right. exact Hin.
Qed.

Lemma highestUID_arrived_le msgs u :
  (forall b, In b msgs -> (BufUID b <= u)%N) ->
  (highestUID (arrived msgs) <= u)%N.
Proof.
  induction msgs as [|b msgs IH]; intros H; cbn [arrived map highestUID
                                                  fold_right held].
  - lia.
  - apply N.max_lub; [apply H; left; reflexivity|].
    apply IH. intros b' Hb'. apply H. right. exact Hb'.
Qed.

(** The highest UID of a mailbox whose last message has a UID above
    all others. *)
Lemma highestUID_last front last :
  (forall b, In b front -> (BufUID b < BufUID last)%N) ->
  highestUID (arrived (front ++ [last])) = BufUID last.
Proof.
  induction front as [|b front IH]; intros H.
  - cbn. apply N.max_0_r.
  - cbn [app arrived map highestUID fold_right held].
    change (fold_right (fun sl => N.max (BufUID (held sl))) 0%N
              (map (fun b0 => {| held := b0; flaggedDeleted := false |})
                 (front ++ [last])))
      with (highestUID (arrived (front ++ [last]))).
    rewrite IH by (intros b' Hb'; apply H; right; exact Hb').
    apply N.max_r. apply N.lt_le_incl. apply H. left. reflexivity.
Qed.

Lemma expunge_arrived msgs : expunge (arrived msgs) = arrived msgs.
Proof.
  unfold expunge, arrived. induction msgs as [|b msgs IH]; [reflexivity|].
  cbn [map filter flaggedDeleted negb]. f_equal. exact IH.
Qed.

Lemma arrived_app l1 l2 : arrived (l1 ++ l2) = arrived l1 ++ arrived l2.
Proof. apply map_app. Qed.

(** Flagging and expunging the first message of a mailbox with unique
    UIDs, by its UID, removes that message and no other. *)
Lemma deletion_removes_first msgs tr b rest :
  NoDup (map BufUID (b :: rest)) -> BufUID b <> 0%N ->
  mailboxAfter msgs tr = arrived (b :: rest) ->
  mailboxAfter msgs (tr ++ deletion b) = arrived rest.
Proof.
  intros Hnd Hv Hmb. rewrite mailboxAfter_app, Hmb.
  cbn [deletion fold_left mailboxStep]. rewrite store_UID.
  unfold meant. destruct (N.eqb_spec (BufUID b) 0); [contradiction|].
  cbn [arrived map held]. rewrite N.eqb_refl.
  inversion Hnd as [|? ? Hnot _]; subst.
  change (map (fun b0 => {| held := b0; flaggedDeleted := false |}) rest)
    with (arrived rest).
  rewrite (store_absent _ _ _ Hnot).
  unfold expunge. cbn [filter flaggedDeleted setDeleted addDeleted Flags Op].
  cbn. apply expunge_arrived.
Qed.

(** Flagging and expunging by the UID 0, that is [*], removes the
    message with the highest UID: the last one, when its UID is above
    all others. *)
Lemma deletion_removes_highest msgs tr b front last :
  (forall b', In b' front -> (BufUID b' < BufUID last)%N) ->
  BufUID b = 0%N ->
  mailboxAfter msgs tr = arrived (front ++ [last]) ->
  mailboxAfter msgs (tr ++ deletion b) = arrived front.
Proof.
  intros Hlt Hb Hmb. rewrite mailboxAfter_app, Hmb.
  cbn [deletion fold_left mailboxStep]. rewrite Hb, store_UID.
  unfold meant. cbn [N.eqb]. rewrite (highestUID_last _ _ Hlt).
  rewrite arrived_app, map_app.
  rewrite store_absent.
  - cbn [arrived map held]. rewrite N.eqb_refl.
    unfold expunge. rewrite filter_app.
    fold (expunge (arrived front)). rewrite expunge_arrived.
    cbn. apply app_nil_r.
  - intros Hin. apply in_map_iff in Hin. destruct Hin as (b' & E & Hb').
    specialize (Hlt b' Hb'). lia.
Qed.

Lemma mailboxAfter_untouched msgs tr l :
  (forall x, In x l -> forall mb, mailboxStep mb x = mb) ->
  mailboxAfter msgs (tr ++ l) = mailboxAfter msgs tr.
Proof.
  intros H. rewrite mailboxAfter_app. generalize (mailboxAfter msgs tr).
  induction l as [|x l IH]; intros mb; [reflexivity|].
  cbn [fold_left]. rewrite (H x (or_introl eq_refl)).
  apply IH. intros y Hy. apply H. right. exact Hy.
Qed.

Ltac untouched :=
  apply mailboxAfter_untouched;
  let x := fresh "x" in let Hx := fresh "Hx" in
  intros x Hx; cbn [In importPass app] in Hx;
  repeat (destruct Hx as [<- | Hx]; [reflexivity|]); destruct Hx.

Section Drain.

Variable sendsUID : bool.
Variable sv : server.
Variable imap : imapCredentials.

Hypothesis notRacing : racing sv = false.

Local Abbreviation w := (imapServer sendsUID sv).
Local Abbreviation pass := (drainPass importToGmail importingLine imap).
Local Abbreviation drain := (ITree.iter (fun _ : unit => pass) tt).

(** A pass up to the answer of the import call. *)
Lemma pass_to_import tr b rest fuel :
  mailboxAfter (inbox sv) tr = arrived (b :: rest) ->
  let answer := gmail sv (importCall (messageOf b)) in
  let tr1 := tr ++ importPass imap (S (length rest)) (reply sendsUID b)
                     answer in
  run (S (S (S (S (S fuel))))) w pass tr =
  match importError answer with
  | None =>
      run fuel w
        (err <- deleteMessage (BufUID (reply sendsUID b));;
         match err with
         | Some e => Ret (inr (Return (Some e)))
         | None => Ret (inl tt)
         end) tr1
  | Some e =>
      run fuel w
        (call (Log (failureLine answer));; Ret (inr (Return (Some e)))) tr1
  end.
Proof.
  intros Hmb. cbn zeta. unfold drainPass. runs.
  cbn [imapServer]. rewrite Hmb, !length_arrived.
  cbn [length NumMessages]. runs.
  destruct (N.of_nat (S (length rest)) <=? 0)%N eqn:E;
    [apply N.leb_le in E; lia|].
  unfold fetchFirstMessage. runs. fold wholeBody.
  cbn [imapServer]. rewrite notRacing.
  rewrite mailboxAfter_snoc. cbn [mailboxStep]. rewrite Hmb, fetched_first.
  runs. cbn [length Nat.leb]. runs. fold (messageOf (reply sendsUID b)).
  unfold importingLine at 1. cbn [record].
  unfold importToGmail. runs. cbn [imapServer].
  unfold importPass, importError, failureLine, importingLine.
  rewrite <- !app_assoc. cbn [app]. rewrite !importCall_reply.
  destruct (gmail sv (importCall (messageOf b))) as [r|e]; runs.
  - destruct (HTTPStatusCode r =? 200)%Z; cbn [negb]; runs.
    + reflexivity.
    + destruct fuel; runs; reflexivity.
  - destruct fuel; runs; reflexivity.
Qed.

(** A pass whose import Gmail does not accept ends the session's loops
    with the error, right after the log line. *)
Lemma pass_rejected tr b rest e fuel :
  mailboxAfter (inbox sv) tr = arrived (b :: rest) ->
  importError (gmail sv (importCall (messageOf b))) = Some e ->
  let answer := gmail sv (importCall (messageOf b)) in
  run (6 + fuel) w pass tr
  = Done (inr (Return (Some e)))
      (tr ++ importPass imap (S (length rest)) (reply sendsUID b) answer
          ++ [EvLog (failureLine answer)]) fuel.
Proof.
  intros Hmb He. cbn zeta.
  change (6 + fuel) with (S (S (S (S (S (S fuel)))))).
  rewrite (pass_to_import tr b rest (S fuel) Hmb). rewrite He. runs.
  rewrite <- app_assoc. reflexivity.
Qed.

Hypothesis storeWorks : storeAnswer sv = None.
Hypothesis expungeWorks : expungeAnswer sv = None.

(** A pass whose import Gmail accepts stores and expunges, on the UID
    that the fetch returned, and goes on to the next pass. *)
Lemma pass_accepted tr b rest fuel :
  mailboxAfter (inbox sv) tr = arrived (b :: rest) ->
  accepts (gmail sv) b ->
  let answer := gmail sv (importCall (messageOf b)) in
  run (7 + fuel) w pass tr
  = Done (inl tt)
      (tr ++ importPass imap (S (length rest)) (reply sendsUID b) answer
          ++ deletion (reply sendsUID b)) fuel.
Proof.
  intros Hmb Hacc. cbn zeta.
  change (7 + fuel) with (S (S (S (S (S (S (S fuel))))))).
  rewrite (pass_to_import tr b rest (S (S fuel)) Hmb).
  unfold accepts in Hacc. rewrite Hacc.
  unfold deleteMessage. runs. cbn [imapServer].
  rewrite storeWorks. runs. cbn [imapServer]. rewrite expungeWorks. runs.
  unfold deletion. rewrite <- !app_assoc. reflexivity.
Qed.

End Drain.

Section DrainWithUID.

Variable sv : server.
Variable imap : imapCredentials.

Hypothesis notRacing : racing sv = false.
Hypothesis storeWorks : storeAnswer sv = None.
Hypothesis expungeWorks : expungeAnswer sv = None.

Local Abbreviation w := (imapServer true sv).
Local Abbreviation pass := (drainPass importToGmail importingLine imap).
Local Abbreviation drain := (ITree.iter (fun _ : unit => pass) tt).

(** The drain loop over messages that Gmail accepts, on a server that
    sends the UID. *)
Lemma drain_accepted good :
  forall tr rest fuel,
    NoDup (map BufUID (good ++ rest)) ->
    Forall (fun b => BufUID b <> 0%N) good ->
    mailboxAfter (inbox sv) tr = arrived (good ++ rest) ->
    Forall (accepts (gmail sv)) good ->
    let tr' := tr ++ drainTrace imap (gmail sv) good (length rest) in
    run (8 * length good + fuel) w drain tr = run fuel w drain tr' /\
    mailboxAfter (inbox sv) tr' = arrived rest.
Proof.
  induction good as [|b good IH]; intros tr rest fuel Hnd Hv Hmb Hacc;
    cbn zeta.
  - cbn [drainTrace length Nat.mul Nat.add app]. rewrite app_nil_r.
    split; [reflexivity | exact Hmb].
  - inversion Hacc as [|? ? Hb Hgood]; subst.
    inversion Hv as [|? ? Hvb Hvgood]; subst.
    cbn [app] in Hnd, Hmb.
    assert (mailboxAfter (inbox sv)
              (tr ++ importPass imap (S (length (good ++ rest))) b
                       (gmail sv (importCall (messageOf b))) ++ deletion b)
            = arrived (good ++ rest)) as Hmb'.
    { rewrite app_assoc. apply deletion_removes_first; [exact Hnd|exact Hvb|].
      rewrite <- Hmb. untouched. }
    inversion Hnd as [|? ? _ Hnd']; subst.
    destruct (IH _ rest fuel Hnd' Hvgood Hmb' Hgood) as [Hrun Hafter].
    cbn zeta in Hrun, Hafter.
    assert (tr ++ drainTrace imap (gmail sv) (b :: good) (length rest)
            = (tr ++ importPass imap (S (length (good ++ rest))) b
                       (gmail sv (importCall (messageOf b))) ++ deletion b)
              ++ drainTrace imap (gmail sv) good (length rest)) as Etr.
    { cbn [drainTrace length]. rewrite length_app, <- !app_assoc.
      cbn [Nat.add]. reflexivity. }
    rewrite Etr. split; [|exact Hafter].
    rewrite <- Hrun.
    replace (8 * length (b :: good) + fuel)
      with (7 + S (8 * length good + fuel)) by (cbn [length]; lia).
    rewrite run_iter.
    rewrite (pass_accepted true sv imap notRacing storeWorks expungeWorks
               tr b (good ++ rest) _ Hmb Hb).
    reflexivity.
Qed.

End DrainWithUID.

(** Draining, where the server sends the UID.  Take a server that keeps
    the mailbox and sends the UID of a fetched message though the fetch
    does not ask for it, whose fetches, stores and expunges succeed,
    and a mailbox that holds the messages [pending], their UIDs unique
    and none of them 0, all of which Gmail accepts.  Then the drain
    loop of [main.go] imports and deletes every message once, in the
    order of the mailbox, finds the mailbox empty and ends without an
    error; the mailbox is empty indeed. *)
Theorem drain_imports_every_message (sv : server) (imap : imapCredentials)
    (pending : list FetchMessageBuffer) (tr : trace) (fuel : nat) :
  racing sv = false -> storeAnswer sv = None -> expungeAnswer sv = None ->
  NoDup (map BufUID pending) ->
  Forall (fun b => BufUID b <> 0%N) pending ->
  mailboxAfter (inbox sv) tr = arrived pending ->
  Forall (accepts (gmail sv)) pending ->
  let tr' := tr ++ drainTrace imap (gmail sv) pending 0
                ++ [EvSelect "INBOX" (inl {| NumMessages := 0 |})] in
  run (8 * length pending + 1 + fuel) (imapServer true sv)
    (ITree.iter
       (fun _ : unit => drainPass importToGmail importingLine imap) tt) tr
  = Done Break tr' fuel /\
  mailboxAfter (inbox sv) tr' = [].
Proof.
  intros Hrace Hstore Hexp Hnd Hv Hmb Hacc. cbn zeta.
  rewrite <- (app_nil_r pending) in Hnd, Hmb.
  destruct (drain_accepted sv imap Hrace Hstore Hexp pending tr [] (1 + fuel)
              Hnd Hv Hmb Hacc) as [Hrun Hafter].
  cbn zeta in Hrun, Hafter. cbn [length] in Hrun, Hafter.
  rewrite <- Nat.add_assoc, Hrun. rewrite app_assoc. split.
  - change (1 + fuel) with (S fuel).
    rewrite run_iter. unfold drainPass. runs. cbn [imapServer].
    rewrite Hafter. cbn [arrived map length N.of_nat NumMessages N.leb
                          N.compare]. runs. reflexivity.
  - rewrite mailboxAfter_snoc, Hafter. reflexivity.
Qed.

(** A rejected message stops the drain, where the server sends the
    UID.  With such a server and mailbox, let Gmail accept the messages
    [good] and let the import call of the next message [bad] fail, or
    come back with a status other than 200.  Then the drain loop
    imports and deletes the messages [good], sends [bad], logs the
    failure and ends with that error; it sends no store and no expunge
    for [bad], and [bad] and the messages behind it are still in the
    mailbox, not flagged. *)
Theorem drain_stops_at_rejected_message (sv : server) (imap : imapCredentials)
    (good : list FetchMessageBuffer) (bad : FetchMessageBuffer)
    (rest : list FetchMessageBuffer) (e : errval) (tr : trace) (fuel : nat) :
  racing sv = false -> storeAnswer sv = None -> expungeAnswer sv = None ->
  NoDup (map BufUID (good ++ bad :: rest)) ->
  Forall (fun b => BufUID b <> 0%N) good ->
  mailboxAfter (inbox sv) tr = arrived (good ++ bad :: rest) ->
  Forall (accepts (gmail sv)) good ->
  importError (gmail sv (importCall (messageOf bad))) = Some e ->
  let answer := gmail sv (importCall (messageOf bad)) in
  let tr' := tr ++ drainTrace imap (gmail sv) good (S (length rest))
                ++ importPass imap (S (length rest)) bad answer
                ++ [EvLog (failureLine answer)] in
  run (8 * length good + 6 + fuel) (imapServer true sv)
    (ITree.iter
       (fun _ : unit => drainPass importToGmail importingLine imap) tt) tr
  = Done (Return (Some e)) tr' fuel /\
  mailboxAfter (inbox sv) tr' = arrived (bad :: rest).
Proof.
  intros Hrace Hstore Hexp Hnd Hv Hmb Hacc Hrej. cbn zeta.
  destruct (drain_accepted sv imap Hrace Hstore Hexp good tr (bad :: rest)
              (6 + fuel) Hnd Hv Hmb Hacc) as [Hrun Hafter].
  cbn zeta in Hrun, Hafter. cbn [length] in Hrun, Hafter.
  rewrite <- Nat.add_assoc, Hrun. rewrite app_assoc. split.
  - rewrite run_iter.
    rewrite (pass_rejected true sv imap Hrace _ bad rest e fuel Hafter Hrej).
    reflexivity.
  - rewrite <- Hafter. untouched.
Qed.

Lemma confirmedImports_app tr l :
  confirmedImports (tr ++ l) = confirmedImports tr + confirmedImports l.
Proof. unfold confirmedImports. rewrite filter_app. apply length_app. Qed.

(** One session against a server that refuses the store. *)
Lemma supervise_undeleted (sendsUID : bool) (sv : server)
    (imap : imapCredentials) (b : FetchMessageBuffer)
    (rest : list FetchMessageBuffer) (e : errval) :
  dialAnswer sv = None -> loginAnswer sv = None -> racing sv = false ->
  accepts (gmail sv) b -> storeAnswer sv = Some e ->
  forall n tr,
    mailboxAfter (inbox sv) tr = arrived (b :: rest) ->
    let session :=
      undeletedSession imap (S (length rest)) (reply sendsUID b)
        (gmail sv (importCall (messageOf b))) e in
    run (12 * n) (imapServer sendsUID sv) (supervise imap) tr
    = Running (tr ++ concat (repeat session n)) /\
    mailboxAfter (inbox sv) (tr ++ concat (repeat session n))
    = arrived (b :: rest).
Proof.
  intros Hdial Hlogin Hrace Hacc Hstore. cbn zeta.
  induction n as [|n IH]; intros tr Hmb.
  - cbn [Nat.mul repeat concat]. rewrite app_nil_r. split; [|exact Hmb].
    rewrite run_eq. reflexivity.
  - set (session := undeletedSession imap (S (length rest)) (reply sendsUID b)
                      (gmail sv (importCall (messageOf b))) e) in *.
    assert (mailboxAfter (inbox sv) (tr ++ session) = arrived (b :: rest))
      as Hmb'.
    { rewrite <- Hmb. apply mailboxAfter_untouched.
      intros x Hx. unfold session, undeletedSession in Hx.
      cbn [In importPass app] in Hx.
      repeat (destruct Hx as [<- | Hx]; [reflexivity|]). destruct Hx. }
    destruct (IH (tr ++ session) Hmb') as [Hrun Hafter].
    cbn [repeat concat]. rewrite app_assoc. split; [|exact Hafter].
    rewrite <- Hrun.
    replace (12 * S n) with (S (S (S (S (S (S (S (S (S (S (S (S (12 * n)))))))))))))
      by lia.
    unfold supervise, superviseWith. rewrite run_forever.
    unfold doSessionWith. runs. cbn [imapServer]. rewrite Hdial. runs.
    cbn [imapServer]. rewrite Hlogin. runs.
    rewrite run_iter. unfold sessionPass. runs. rewrite run_iter.
    assert (mailboxAfter (inbox sv)
              ((tr ++ [EvDialTLS (Address imap) None])
                 ++ [EvLogin (Username imap) (Password imap) None])
            = arrived (b :: rest)) as Hmb2.
    { rewrite <- app_assoc, <- Hmb. untouched. }
    rewrite (pass_to_import sendsUID sv imap Hrace _ b rest _ Hmb2).
    unfold accepts in Hacc. rewrite Hacc.
    unfold deleteMessage. runs. cbn [imapServer]. rewrite Hstore. runs.
    fold (superviseWith importToGmail importingLine imap).
    unfold session, undeletedSession. rewrite <- !app_assoc. reflexivity.
Qed.

(** Delivery is at least once, not exactly once.  Against a server that
    keeps the mailbox and refuses the store, whether or not it sends
    the UID of a fetched message, the first message being one that
    Gmail accepts: every session of the supervisor imports that message
    again and fails to delete it, so after [n] sessions Gmail has
    confirmed [n] imports of it and the mailbox still holds all its
    messages. *)
Theorem failed_delete_imports_again (sendsUID : bool) (sv : server)
    (imap : imapCredentials) (b : FetchMessageBuffer)
    (rest : list FetchMessageBuffer) (e : errval) (n : nat) :
  dialAnswer sv = None -> loginAnswer sv = None -> racing sv = false ->
  inbox sv = b :: rest ->
  accepts (gmail sv) b -> storeAnswer sv = Some e ->
  let session :=
    undeletedSession imap (S (length rest)) (reply sendsUID b)
      (gmail sv (importCall (messageOf b))) e in
  let tr := concat (repeat session n) in
  run (12 * n) (imapServer sendsUID sv) (supervise imap) [] = Running tr /\
  confirmedImports tr = n /\
  mailboxAfter (inbox sv) tr = arrived (inbox sv).
Proof.
  intros Hdial Hlogin Hrace Hinbox Hacc Hstore. cbn zeta.
  assert (mailboxAfter (inbox sv) [] = arrived (b :: rest)) as Hmb
      by (rewrite Hinbox; reflexivity).
  destruct (supervise_undeleted sendsUID sv imap b rest e Hdial Hlogin Hrace
              Hacc Hstore n [] Hmb) as [Hrun Hafter].
  cbn zeta in Hrun, Hafter. cbn [app] in Hrun, Hafter.
  split; [exact Hrun|]. split; [|rewrite Hafter, Hinbox; reflexivity].
  clear Hrun Hafter. induction n as [|n IH]; [reflexivity|].
  cbn [repeat concat]. rewrite confirmedImports_app, IH.
  unfold confirmedImports, undeletedSession, importPass.
  cbn [app filter isConfirmed]. rewrite importCall_reply.
  unfold accepts, importError in Hacc.
  destruct (gmail sv (importCall (messageOf b))) as [r|e']; [|discriminate].
  destruct (HTTPStatusCode r =? 200)%Z; [reflexivity | discriminate].
Qed.

(* ===================================================================== *)
(** * The UID of a fetched message *)
(* ===================================================================== *)

(** C1 fails on a server that answers a fetch with what was asked.  The
    fetch of [fetchFirstMessage] asks for the body and not for the UID,
    so the message built from the answer has the UID 0, and the store
    of [deleteMessage] is on the UID set of 0, which is [*]: the
    message with the highest UID.  Take such a server, whose calls all
    succeed, a mailbox of two messages or more whose last message has
    the highest UID, and a Gmail that accepts the first message.  The
    first pass of a session of [main.go] imports the bytes of the first
    message, then stores [\Deleted] on [*] and expunges: the last
    message is gone from the mailbox, though no import call was made
    for it, and the first message, whose import was confirmed, is
    still there. *)
Theorem C1_delete_names_highest_uid (sv : server) (imap : imapCredentials)
    (first last : FetchMessageBuffer) (middle : list FetchMessageBuffer) :
  dialAnswer sv = None -> loginAnswer sv = None -> racing sv = false ->
  storeAnswer sv = None -> expungeAnswer sv = None ->
  inbox sv = first :: middle ++ [last] ->
  (forall b, In b (first :: middle) -> (BufUID b < BufUID last)%N) ->
  accepts (gmail sv) first ->
  let data := concat (BodySectionData first) in
  let call := importCall {| uid := 0%N; contents := data |} in
  let tr :=
    [EvDialTLS (Address imap) None;
     EvLogin (Username imap) (Password imap) None;
     EvSelect "INBOX"
       (inl {| NumMessages := N.of_nat (S (S (length middle))) |});
     EvFetch (SeqSet [1%N])
       {| BodySection := [{| Specifier := ""; Peek := false |}] |}
       (inl [{| BufUID := 0%N; BodySectionData := BodySectionData first |}]);
     EvFetchClose;
     EvLog (LogImporting (Username imap) (length data));
     EvImport call (gmail sv call);
     EvStore (UIDSet [0%N])
       {| Op := StoreFlagsAdd; Silent := true; Flags := ["\Deleted"] |} None;
     EvExpunge None] in
  run 9 (imapServer false sv) (doSession imap) [] = Running tr /\
  imports tr = [importCall (messageOf first)] /\
  map held (mailboxAfter (inbox sv) tr) = first :: middle /\
  ~ In last (map held (mailboxAfter (inbox sv) tr)) /\
  In last (inbox sv).
Proof.
  intros Hdial Hlogin Hrace Hstore Hexp Hinbox Hlt Hacc. cbn zeta.
  assert (mailboxAfter (inbox sv)
            [EvDialTLS (Address imap) None;
             EvLogin (Username imap) (Password imap) None]
          = arrived (first :: middle ++ [last])) as Hmb
      by (rewrite Hinbox; reflexivity).
  pose proof (pass_accepted false sv imap Hrace Hstore Hexp _ first
                (middle ++ [last]) 0 Hmb Hacc) as Hpass.
  cbn zeta in Hpass.
  assert (mailboxAfter (inbox sv)
            ([EvDialTLS (Address imap) None;
              EvLogin (Username imap) (Password imap) None]
             ++ importPass imap (S (length (middle ++ [last])))
                  (reply false first)
                  (gmail sv (importCall (messageOf first)))
             ++ deletion (reply false first))
          = arrived (first :: middle)) as Hafter.
  { rewrite app_assoc.
    apply (deletion_removes_highest _ _ _ (first :: middle) last Hlt);
      [reflexivity|].
    change ((first :: middle) ++ [last]) with (first :: middle ++ [last]).
    rewrite <- Hmb. untouched. }
  assert (length (middle ++ [last]) = S (length middle)) as Hlen
      by (rewrite length_app; cbn [length]; lia).
  rewrite Hlen in Hpass, Hafter.
  assert (map held (mailboxAfter (inbox sv)
            ([EvDialTLS (Address imap) None;
              EvLogin (Username imap) (Password imap) None]
             ++ importPass imap (S (S (length middle)))
                  (reply false first)
                  (gmail sv (importCall (messageOf first)))
             ++ deletion (reply false first)))
          = first :: middle) as Hheld.
  { rewrite Hafter. unfold arrived. rewrite map_map. cbn [held].
    apply map_id. }
  split; [|split; [reflexivity | split; [exact Hheld | split]]].
  - unfold doSession, doSessionWith. runs. cbn [imapServer].
    rewrite Hdial. runs. cbn [imapServer]. rewrite Hlogin. runs.
    rewrite run_iter. unfold sessionPass. runs. rewrite run_iter.
    cbn [app]. cbn [Nat.add] in Hpass. cbn [app] in Hpass.
    match goal with
    | |- context [run 7 ?w ?t ?tr] => remember (run 7 w t tr) as o eqn:Eo
    end.
    assert (o = Done (inl tt)
                  (EvDialTLS (Address imap) None
                   :: EvLogin (Username imap) (Password imap) None
                   :: importPass imap (S (S (length middle)))
                        (reply false first)
                        (gmail sv (importCall (messageOf first)))
                      ++ deletion (reply false first)) 0) as ->
        by (subst o; exact Hpass).
    reflexivity.
  - intros Hin.
    assert (In last (first :: middle)) as Hin'
        by (rewrite <- Hheld; exact Hin).
    specialize (Hlt last Hin'). lia.
  - rewrite Hinbox. right. apply in_or_app. right. left. reflexivity.
Qed.

(* ===================================================================== *)
(** * Polling an empty mailbox *)
(* ===================================================================== *)

(** The outer loop on an empty mailbox. *)
Lemma sessionPass_idles (sendsUID : bool) (sv : server)
    (imap : imapCredentials) :
  idleAnswer sv = None -> idleCloseAnswer sv = None ->
  idleWaitAnswer sv = None ->
  forall n tr,
    mailboxAfter (inbox sv) tr = [] ->
    let cycle := idleCycle (wakeAnswer sv) in
    run (n * S (length cycle)) (imapServer sendsUID sv)
      (ITree.iter
         (fun _ : unit => sessionPass importToGmail importingLine imap) tt) tr
    = Running (tr ++ concat (repeat cycle n)).
Proof.
  intros Hidle Hclose Hwait. cbn zeta.
  induction n as [|n IH]; intros tr Hmb.
  - cbn [Nat.mul repeat concat]. rewrite app_nil_r, run_eq. reflexivity.
  - assert (mailboxAfter (inbox sv) (tr ++ idleCycle (wakeAnswer sv)) = [])
      as Hmb'.
    { rewrite <- Hmb. apply mailboxAfter_untouched. intros x Hx.
      unfold idleCycle in Hx. destruct (wakeAnswer sv); cbn [app In] in Hx;
        repeat (destruct Hx as [<- | Hx]; [reflexivity|]); destruct Hx. }
    specialize (IH _ Hmb').
    cbn [repeat concat]. rewrite app_assoc, <- IH. clear IH.
    cbn [Nat.mul]. rewrite run_iter. unfold sessionPass. runs.
    rewrite run_iter. unfold drainPass. runs. cbn [imapServer].
    rewrite Hmb. cbn [length N.of_nat]. unfold doIdle, idleCycle.
    destruct (wakeAnswer sv) eqn:Ewake; cbn [length app Nat.add];
      repeat first [ progress runs
                   | progress cbn [imapServer NumMessages N.leb N.compare]
                   | rewrite Hidle | rewrite Ewake | rewrite Hclose
                   | rewrite Hwait ];
      rewrite <- !app_assoc; reflexivity.
Qed.

(** Polling.  Against a server that keeps the mailbox, whether or not
    it sends the UID of a fetched message, the mailbox being empty and
    every call succeeding, a session of [main.go] never
    returns: after the dial and the login it selects the inbox, finds
    nothing, idles until an update or the deadline of five minutes,
    leaves IDLE and selects again, over and over.  It issues no fetch,
    import, store or expunge. *)
Theorem empty_mailbox_polls (sendsUID : bool) (sv : server)
    (imap : imapCredentials) (n : nat) :
  dialAnswer sv = None -> loginAnswer sv = None -> inbox sv = [] ->
  idleAnswer sv = None -> idleCloseAnswer sv = None ->
  idleWaitAnswer sv = None ->
  let cycle := idleCycle (wakeAnswer sv) in
  run (2 + n * S (length cycle)) (imapServer sendsUID sv) (doSession imap) []
  = Running ([EvDialTLS (Address imap) None;
              EvLogin (Username imap) (Password imap) None]
             ++ concat (repeat cycle n)).
Proof.
  intros Hdial Hlogin Hinbox Hidle Hclose Hwait. cbn zeta.
  unfold doSession, doSessionWith. cbn [Nat.add]. runs.
  cbn [imapServer]. rewrite Hdial. runs. cbn [imapServer]. rewrite Hlogin.
  runs. cbn [app].
  assert (mailboxAfter (inbox sv)
            [EvDialTLS (Address imap) None;
             EvLogin (Username imap) (Password imap) None] = []) as Hmb
      by (rewrite Hinbox; reflexivity).
  pose proof (sessionPass_idles sendsUID sv imap Hidle Hclose Hwait n _ Hmb)
    as Hrun.
  cbn zeta in Hrun.
  destruct (run _ _ (ITree.iter _ _) _) as [r tr' more|tr'] eqn:E.
  - discriminate Hrun.
  - exact Hrun.
Qed.

(* ===================================================================== *)
(** * The messages of the mailbox *)
(* ===================================================================== *)

(** The messages of a mailbox are among those that arrived. *)
Lemma storeFrom_held names f mb :
  forall position sl,
    In sl (storeFrom names f position mb) ->
    exists sl', In sl' mb /\ held sl' = held sl.
Proof.
  induction mb as [|a mb IH]; intros position sl Hin; [destruct Hin|].
  cbn [storeFrom] in Hin. destruct Hin as [<- | Hin].
  - exists a. split; [left; reflexivity|].
    destruct (names position (BufUID (held a))); reflexivity.
  - destruct (IH _ _ Hin) as (sl' & Hin' & E). exists sl'. split; [right|]; auto.
Qed.

Lemma mailboxAfter_held msgs tr :
  forall sl, In sl (mailboxAfter msgs tr) -> In (held sl) msgs.
Proof.
  induction tr as [|x tr IH] using rev_ind; intros sl Hin.
  - unfold mailboxAfter, arrived in Hin. cbn [fold_left] in Hin.
    apply in_map_iff in Hin. destruct Hin as (b & <- & Hb). exact Hb.
  - rewrite mailboxAfter_snoc in Hin.
    destruct x as [| | | | | | |s f [e|]|[e|]| | | | | | |];
      cbn [mailboxStep] in Hin; try (apply IH; exact Hin).
    + apply storeFrom_held in Hin. destruct Hin as (sl' & Hin & <-).
      apply IH. exact Hin.
    + unfold expunge in Hin. apply filter_In in Hin. apply IH. apply Hin.
Qed.

Lemma fetchedFrom_held names mb :
  forall position b,
    In b (fetchedFrom names position mb) -> exists sl, In sl mb /\ held sl = b.
Proof.
  induction mb as [|a mb IH]; intros position b Hin; [destruct Hin|].
  cbn [fetchedFrom] in Hin. apply in_app_or in Hin.
  destruct Hin as [Hin | Hin].
  - destruct (names position (BufUID (held a))); [|destruct Hin].
    destruct Hin as [<- | []]. exists a. split; [left|]; reflexivity.
  - destruct (IH _ _ Hin) as (sl & Hsl & E). exists sl. split; [right|]; auto.
Qed.

(** The server that keeps the mailbox and sends the UID answers a fetch
    with messages of the mailbox only. *)
Lemma imapServer_fetches_mailbox sv tr s o b rest :
  imapServer true sv tr _ (Fetch s o) = inl (b :: rest) -> In b (inbox sv).
Proof.
  cbn [imapServer]. intros [= E]. destruct (racing sv); [discriminate|].
  unfold fetched in E. cbn [reply] in E. rewrite map_id in E.
  match type of E with
  | ?l = _ => assert (In b l) as Hin by (rewrite E; left; reflexivity)
  end.
  apply fetchedFrom_held in Hin. destruct Hin as (sl & Hsl & <-).
  exact (mailboxAfter_held _ _ _ Hsl).
Qed.

(* ===================================================================== *)
(** * Laws of [start] *)
(* ===================================================================== *)

Lemma start_eq {R} fuel w (t : itree startE R) tr :
  start fuel w t tr =
  match observe t with
  | RetF r => (Returned r fuel, tr)
  | TauF t' =>
      match fuel with
      | O => (Unfinished, tr)
      | S f => start f w t' tr
      end
  | VisF e k =>
      match fuel with
      | O => (Unfinished, tr)
      | S f =>
          match halts e with
          | Some h => (Halted h, tr ++ [noted e (w tr _ e)])
          | None => start f w (k (w tr _ e)) (tr ++ [noted e (w tr _ e)])
          end
      end
  end.
Proof. destruct fuel; reflexivity. Qed.

Lemma start_ret {R} fuel w (r : R) tr :
  start fuel w (Ret r) tr = (Returned r fuel, tr).
Proof. rewrite start_eq. reflexivity. Qed.

Lemma start_bind {R T} fuel w (t : itree startE R) (k : R -> itree startE T) :
  forall tr,
    start fuel w (ITree.bind t k) tr =
    match start fuel w t tr with
    | (Returned r more, tr') => start more w (k r) tr'
    | (Halted h, tr') => (Halted h, tr')
    | (Unfinished, tr') => (Unfinished, tr')
    end.
Proof.
  revert t. induction fuel as [|f IH]; intros t tr.
  - rewrite (start_eq 0 w (ITree.bind t k)), (start_eq 0 w t), observe_bind.
    destruct (observe t); cbn; reflexivity.
  - rewrite (start_eq (S f) w (ITree.bind t k)), (start_eq (S f) w t),
      observe_bind.
    destruct (observe t); cbn.
    + reflexivity.
    + apply IH.
    + destruct (halts e); [reflexivity | apply IH].
Qed.

(** A call followed by the rest of the function. *)
Lemma start_invoke {X T} fuel w (e : startE X) (k : X -> itree startE T) tr :
  start fuel w (ITree.bind (invoke e) k) tr =
  match fuel with
  | O => (Unfinished, tr)
  | S f =>
      match halts e with
      | Some h => (Halted h, tr ++ [noted e (w tr _ e)])
      | None => start f w (k (w tr _ e)) (tr ++ [noted e (w tr _ e)])
      end
  end.
Proof.
  rewrite start_bind, (start_eq fuel w (invoke e)). cbn.
  destruct fuel; [reflexivity|].
  destruct (halts e); [reflexivity|]. rewrite start_ret. reflexivity.
Qed.

Lemma start_last {X} fuel w (e : startE X) tr :
  start fuel w (invoke e) tr =
  match fuel with
  | O => (Unfinished, tr)
  | S f =>
      match halts e with
      | Some h => (Halted h, tr ++ [noted e (w tr _ e)])
      | None => (Returned (w tr _ e) f, tr ++ [noted e (w tr _ e)])
      end
  end.
Proof.
  rewrite (start_eq fuel w (invoke e)). cbn.
  destruct fuel; [reflexivity|].
  destruct (halts e); [reflexivity|]. apply start_ret.
Qed.

Lemma start_skip {R T} fuel w (r : R) (k : R -> itree startE T) tr :
  start fuel w (ITree.bind (Ret r) k) tr = start fuel w (k r) tr.
Proof. rewrite start_bind, start_ret. reflexivity. Qed.

Lemma start_assoc {R T U} fuel w (t : itree startE R)
    (k : R -> itree startE T) (k' : T -> itree startE U) tr :
  start fuel w (ITree.bind (ITree.bind t k) k') tr =
  start fuel w (ITree.bind t (fun r => ITree.bind (k r) k')) tr.
Proof.
  rewrite (start_bind fuel w (ITree.bind t k)), (start_bind fuel w t),
    (start_bind fuel w t).
  destruct (start fuel w t tr) as [[r more|h|] tr']; try reflexivity.
  rewrite start_bind. reflexivity.
Qed.

(** The loop that starts the goroutines. *)
Lemma start_forRange_Go {T} w mail (k : unit -> itree startE T) l :
  forall fuel tr,
    start fuel w
      (ITree.bind (forRange l (fun i => invoke (Go i mail))) k) tr =
    if (length l <=? fuel)%nat
    then start (fuel - length l) w (k tt)
           (tr ++ map (fun i => EvGo i mail) l)
    else (Unfinished, tr ++ map (fun i => EvGo i mail) (firstn fuel l)).
Proof.
  induction l as [|i l IH]; intros fuel tr.
  - cbn [forRange length Nat.leb map]. rewrite start_skip, Nat.sub_0_r, app_nil_r.
    reflexivity.
  - cbn [forRange]. rewrite start_assoc, start_invoke.
    destruct fuel as [|f].
    + cbn [length Nat.leb firstn map]. rewrite app_nil_r. reflexivity.
    + cbn [halts noted length Nat.leb Nat.sub firstn map].
      rewrite IH. rewrite <- !app_assoc. reflexivity.
Qed.

(* ===================================================================== *)
(** * The start-up *)
(* ===================================================================== *)

Lemma spawned_app tr l : spawned (tr ++ l) = spawned tr ++ spawned l.
Proof. apply flat_map_app. Qed.

Lemma spawned_Go mail l :
  spawned (map (fun i => EvGo i mail) l) = map (fun i => (i, mail)) l.
Proof.
  induction l as [|i l IH]; [reflexivity|].
  unfold spawned in *. cbn [map flat_map app]. rewrite IH. reflexivity.
Qed.

Lemma spawned_cons x tr :
  spawned (x :: tr)
  = match x with
    | EvGo i m => [(i, m)]
    | _ => []
    end ++ spawned tr.
Proof. reflexivity. Qed.

(** Follow the start-up code along every path: one call at a time, on
    every answer, stopping where the steps run out. *)
Ltac boot w :=
  unfold getGmailService, writeTo;
  repeat
    (cbn beta iota zeta;
     first
       [ rewrite start_assoc
       | rewrite start_skip
       | rewrite start_invoke
       | rewrite start_last
       | rewrite start_ret
       | rewrite start_forRange_Go
       | progress cbn [halts noted fatalIf app]
       | match goal with
         | |- context [w ?tr ?X ?e] =>
             let x := fresh "x" in generalize (w tr X e); intros x
         | |- context [fatalIf ?err _] => is_var err; destruct err
         | |- context [match ?x with _ => _ end] =>
             first [ is_var x; destruct x
                   | lazymatch x with
                     | start _ _ _ _ => fail
                     | _ => let E := fresh "E" in destruct x eqn:E
                     end ]
         end ]).

(** The explicit part of a trace, up to where its known calls end. *)
Ltac known l :=
  lazymatch l with
  | ?a :: ?l' => let p := known l' in constr:(a :: p)
  | _ => constr:(@Datatypes.nil startEvent)
  end.

(** When [main] reaches its final [select {}]: it has opened the file
    named by the first argument read-write, decoded a configuration
    with at least one account from it, obtained the Gmail service, and
    closed the file; only then has it started the goroutines, one for
    each account of the configuration, in its order, all with that
    service; the last thing it did was to log the end of the start-up.
    The goroutines are those of [mainTasks]. *)
Theorem main_starts_every_account (w : startWorld) (fuel : nat)
    (tr : startTrace) :
  start fuel w main [] = (Halted BlockForever, tr) ->
  exists name f cfg mail pre closing,
    firstn 4 tr = [EvFlagParse; EvFlagArg 0 name;
                   EvOpenFile name O_RDWR mode0600 (f, None);
                   EvDecode f (Some cfg, None)] /\
    Imap cfg <> [] /\
    tr = pre ++ [EvFileClose f closing]
             ++ map (fun imapCreds => EvGo imapCreds mail) (Imap cfg)
             ++ [EvPrintf StartupComplete; EvSelectForever] /\
    spawned pre = [] /\
    (exists client, In (EvNewService client (mail, None)) pre) /\
    map (fun g => supervise (fst g)) (spawned tr) = mainTasks cfg.
Proof.
  unfold main. boot w.
  all: intros [= <-].
  all: rewrite <- ?app_assoc; cbn [app].
  all: match goal with
       | |- context [EvDecode ?f (Some ?c, None)] =>
           match goal with
           | |- context [EvFlagArg 0 ?x] =>
               match goal with
               | |- context [EvNewService _ (?s, None)] =>
                   match goal with
                   | |- context [EvFileClose _ ?r] =>
                       match goal with
                       | |- context [firstn 4 ?t] =>
                           let p := known t in
                           exists x, f, c, s, (removelast p), r
                       end
                   end
               end
           end
       end.
  all: cbn [removelast firstn].
  all: split; [reflexivity|].
  all: split; [intros H; rewrite H in *; discriminate|].
  all: split; [reflexivity|].
  all: split; [reflexivity|].
  all: split; [eexists; cbn [In]; eauto 20|].
  all: unfold mainTasks.
  all: rewrite !spawned_cons; cbn [app].
  all: rewrite spawned_app, spawned_Go.
  all: cbn [spawned flat_map app]; rewrite app_nil_r, map_map.
  all: reflexivity.
Qed.

Lemma decodedAccounts_cons x tr :
  decodedAccounts (x :: tr)
  = match x with
    | EvDecode _ (Some cfg, _) => Imap cfg
    | _ => []
    end ++ decodedAccounts tr.
Proof. reflexivity. Qed.

Lemma decodedAccounts_Go mail l :
  decodedAccounts (map (fun i => EvGo i mail) l) = [].
Proof. induction l as [|i l IH]; [reflexivity | exact IH]. Qed.

Lemma decodedAccounts_app tr l :
  decodedAccounts (tr ++ l) = decodedAccounts tr ++ decodedAccounts l.
Proof. apply flat_map_app. Qed.

Lemma spawned_Go_nil mail l :
  spawned (map (fun i => EvGo i mail) l) = [] -> l = [].
Proof. rewrite spawned_Go. destruct l; [reflexivity | discriminate]. Qed.

(** [main] never returns, and the start-up always comes to an end: it
    takes at most fourteen calls and one for each account, and then the
    process has exited through [log.Fatalf], has panicked, or sits in
    the final [select {}].  When it exits or panics, no goroutine has
    been started. *)
Theorem main_ends_fatally_or_blocks (w : startWorld) (fuel : nat)
    (e : ending unit) (tr : startTrace) :
  start fuel w main [] = (e, tr) ->
  (forall r more, e <> Returned r more) /\
  (14 + length (decodedAccounts tr) <= fuel -> e <> Unfinished) /\
  (e = Halted ExitFatal \/ e = Halted PanicNil -> spawned tr = []).
Proof.
  unfold main. boot w.
  all: intros [= <- <-].
  all: split; [discriminate|].
  all: rewrite <- ?app_assoc; cbn [app].
  all: rewrite ?decodedAccounts_cons, ?decodedAccounts_app,
         ?decodedAccounts_Go; cbn [app decodedAccounts flat_map length].
  all: rewrite ?app_nil_r.
  all: split;
         [ try discriminate;
           repeat match goal with
                  | H : (_ <=? _)%nat = true |- _ => apply Nat.leb_le in H
                  | H : (_ <=? _)%nat = false |- _ => apply Nat.leb_gt in H
                  end; intros; lia
         | try reflexivity; intros [H|H]; discriminate H ].
Qed.

Lemma existsb_isSetUp_Go mail l :
  existsb isSetUp (map (fun i => EvGo i mail) l) = true -> l <> [].
Proof. destruct l; [discriminate | intros _; discriminate]. Qed.

(** [main] reads the configuration before anything else.  Whatever it
    does beyond that (re-encoding the secrets, OAuth, the token, the
    write-back, the Gmail service, the goroutines) comes after it has
    opened the file named by the first argument read-write and decoded
    from it a configuration with at least one account. *)
Theorem main_reads_configuration_first (w : startWorld) (fuel : nat)
    (e : ending unit) (tr : startTrace) :
  start fuel w main [] = (e, tr) ->
  existsb isSetUp tr = true ->
  exists name f cfg rest,
    tr = [EvFlagParse; EvFlagArg 0 name;
          EvOpenFile name O_RDWR mode0600 (f, None);
          EvDecode f (Some cfg, None)] ++ rest /\
    Imap cfg <> [].
Proof.
  unfold main. boot w.
  all: intros [= <- <-].
  all: rewrite <- ?app_assoc; cbn [app existsb isSetUp orb].
  all: try discriminate.
  all: intros _.
  all: match goal with
       | |- context [EvDecode ?f (Some ?c, None)] =>
           match goal with
           | |- context [EvFlagArg 0 ?x] => exists x, f, c
           end
       end.
  all: eexists; split; [reflexivity|].
  all: intros H; rewrite H in *; discriminate.
Qed.

(** A configuration that cannot be used ends the start-up at once.
    When the file cannot be opened, when it cannot be decoded, or when
    the decoded configuration has no account, [main] exits through
    [log.Fatalf] with the line for that failure; when decoding leaves
    the configuration pointer nil (as the JSON document [null] does)
    [main] panics on reading [cfg.Imap].  In each case nothing else has
    been called. *)
Theorem main_unusable_configuration (w : startWorld) (fuel : nat)
    (e : ending unit) (tr : startTrace) :
  start fuel w main [] = (e, tr) ->
  5 <= fuel ->
  (forall name flag perm f err,
     In (EvOpenFile name flag perm (f, Some err)) tr ->
     e = Halted ExitFatal /\
     tr = [EvFlagParse; EvFlagArg 0 name;
           EvOpenFile name O_RDWR mode0600 (f, Some err);
           EvFatalf (FatalOpen err)]) /\
  (forall f cfg err,
     In (EvDecode f (cfg, Some err)) tr ->
     e = Halted ExitFatal /\
     exists name,
       tr = [EvFlagParse; EvFlagArg 0 name;
             EvOpenFile name O_RDWR mode0600 (f, None);
             EvDecode f (cfg, Some err);
             EvFatalf (FatalParse err)]) /\
  (forall f,
     In (EvDecode f (None, None)) tr ->
     e = Halted PanicNil /\
     exists name,
       tr = [EvFlagParse; EvFlagArg 0 name;
             EvOpenFile name O_RDWR mode0600 (f, None);
             EvDecode f (None, None);
             EvNilDereference]) /\
  (forall f cfg,
     In (EvDecode f (Some cfg, None)) tr -> Imap cfg = [] ->
     e = Halted ExitFatal /\
     exists name,
       tr = [EvFlagParse; EvFlagArg 0 name;
             EvOpenFile name O_RDWR mode0600 (f, None);
             EvDecode f (Some cfg, None);
             EvFatalf FatalNoAccounts]).
Proof.
  unfold main. boot w.
  all: intros [= <- <-] Hfuel; try lia.
  all: rewrite <- ?app_assoc; cbn [app].
  all: repeat split.
  all: intros; subst.
  all: repeat match goal with
              | H : In _ (_ :: _) |- _ => destruct H as [H | H]
              | H : In _ [] |- _ => destruct H
              | H : In _ (_ ++ _) |- _ => apply in_app_or in H; destruct H as [H | H]
              | H : In _ (map _ _) |- _ =>
                  apply in_map_iff in H; destruct H as (? & H & _)
              | H : _ = _ :> startEvent |- _ => first [discriminate H | inversion H; subst; clear H]
              end.
  all: try match goal with H : Imap _ = [] |- _ => rewrite H in *; try discriminate end.
  all: eauto.
Qed.

(** The token of [getGmailService].  With a stored token the function
    asks for no token and never touches the configuration file, and
    the OAuth client can only get the stored token.  Without one, the
    file is only ever written once, after a successful seek to its
    start, with the configuration it was given plus the token just
    obtained, and the OAuth client can only get that token, after the
    write-back has succeeded.  When the function returns, the service
    is the one just created, for a client made with the token. *)
Theorem getGmailService_token (w : startWorld) (cfg : config)
    (cfgFile : File) (fuel : nat) (tr0 : startTrace)
    (e : ending Service) (tr : startTrace) :
  start fuel w (getGmailService cfg cfgFile) tr0 = (e, tr) ->
  exists added,
    tr = tr0 ++ added /\
    match Tokens cfg with
    | Some t =>
        requested added = [] /\ sought added = [] /\ written added = [] /\
        (presented added = [] \/ presented added = [Some t])
    | None =>
        (written added = [] \/
         exists tok n,
           requested added = [tok] /\
           In (EvSeek cfgFile 0 0 (n, None)) added /\
           sought added = [(0, 0)%Z] /\
           written added = [{| Imap := Imap cfg; Secrets := Secrets cfg;
                               Tokens := tok |}]) /\
        (presented added = [] \/
         exists tok,
           requested added = [tok] /\ presented added = [tok] /\
           In (EvEncode cfgFile {| Imap := Imap cfg; Secrets := Secrets cfg;
                                   Tokens := tok |} None) added)
    end /\
    forall srv more,
      e = Returned srv more ->
      exists oauth tok client,
        In (EvOAuthClient oauth tok client) added /\
        In (EvNewService client (srv, None)) added.
Proof.
  unfold getGmailService. boot w.
  all: intros [= <- <-].
  all: rewrite <- ?app_assoc; cbn [app].
  all: first [ exists []; split; [symmetry; apply app_nil_r|]
             | eexists; split; [reflexivity|] ].
  all: cbn [requested sought written presented flat_map app].
  all: split; [|intros ? ? [= <- <-] || (intros ? ? H; discriminate H)].
  all: try solve [repeat split; auto].
  all: try solve [split; [ first [ left; reflexivity
                                | right; do 2 eexists; cbn [In]; eauto 12 ]
                         | first [ left; reflexivity
                                 | right; eexists; cbn [In]; eauto 12 ] ] ].
  all: do 3 eexists; split; repeat (first [left; reflexivity | right]).
Qed.

(** The write-back does not truncate the file.  When [writeTo]
    returns, it has sought to the start of the file and encoded the
    configuration there, and has done nothing else: whatever the file
    held and wherever its offset was, the file now starts with the new
    encoding, and the bytes that the old contents had beyond the length
    of the new encoding are still there, so the file is as long as the
    longer of the two. *)
Theorem writeTo_keeps_the_rest (encoding : config -> bytes) (w : startWorld)
    (c : config) (f : File) (fuel : nat) (tr0 : startTrace) (st : fileState)
    (more : nat) (tr : startTrace) :
  start fuel w (writeTo c f) tr0 = (Returned tt more, tr) ->
  exists n,
    let added := [EvSeek f 0 0 (n, None); EvEncode f c None] in
    tr = tr0 ++ added /\
    data (fileAfter encoding st added)
    = encoding c ++ skipn (length (encoding c)) (data st) /\
    length (data (fileAfter encoding st added))
    = Nat.max (length (encoding c)) (length (data st)) /\
    position (fileAfter encoding st added) = length (encoding c).
Proof.
  unfold writeTo. boot w.
  all: intros [= <- <-] || (intros H; discriminate H).
  rewrite <- ?app_assoc; cbn [app].
  eexists. cbn zeta. split; [reflexivity|].
  assert (data (fileAfter encoding st [EvSeek f 0 0 (z, None); EvEncode f c None])
          = encoding c ++ skipn (length (encoding c)) (data st)) as E
      by reflexivity.
  split; [exact E|]. split; [|reflexivity].
  rewrite E, length_app, length_skipn. lia.
Qed.

(* ===================================================================== *)
(** * The theorems at concrete runs *)
(* ===================================================================== *)

(** C5 at a run: the select counts one message, the fetch finds none. *)
Lemma C5_witness :
  run 3 (serve raced)
    (ITree.iter (fun _ : unit => drainPass importToGmail importingLine account)
       tt) []
  = Done Break
      [EvSelect "INBOX" (inl {| NumMessages := 1 |});
       EvFetch (SeqSetNum 1) wholeBody (inl []);
       EvFetchClose] 0.
Proof.
  exact (proj1 (C5_empty_fetch_is_drained (serve raced) account)
           [] 1%N 0 eq_refl eq_refl eq_refl).
Defined.

(** C7 at a run: the import call for the message of UID 12. *)
Lemma C7_witness :
  let c := importCall (messageOf (letter 12%N)) in
  let r := inl {| HTTPStatusCode := 200 |} in
  let pre := [EvDialTLS (Address account) None;
              EvLogin (Username account) (Password account) None;
              EvSelect "INBOX" (inl {| NumMessages := 1 |});
              EvFetch (SeqSetNum 1) wholeBody (inl [letter 12%N]);
              EvFetchClose;
              EvLog (LogImporting (Username account) 2)] in
  traceOf (run 7 (serve (healthy [letter 12%N])) (doSession account) [])
  = pre ++ EvImport c r :: [] /\
  LabelIds c = ["INBOX"; "UNREAD"] /\
  media c = [Byte.x48; Byte.x69].
Proof.
  cbn zeta.
  match goal with
  | |- ?P /\ _ => assert P as E by (vm_compute; reflexivity)
  end.
  split; [exact E|].
  pose proof (proj2 (C7_import_call (serve (healthy [letter 12%N])) account)
                _ _ _ _ _ E) as H.
  split; [exact (proj1 (proj2 (proj2 H))) | reflexivity].
Defined.

(** C10 at a run: the session ends when leaving IDLE fails. *)
Lemma C10_witness :
  let e := ExternalError "connection reset" in
  exists tr n,
    run 40 (serve (healthy [])) (doSession account) [] = Done (Some e) tr n /\
    Some e <> nil.
Proof.
  cbn zeta. eexists. eexists.
  match goal with
  | |- ?P /\ _ => assert P as E by (vm_compute; reflexivity)
  end.
  split; [exact E|].
  exact (proj1 (C10_no_successful_return (serve (healthy [])) account 40)
           _ _ _ (or_introl E)).
Defined.

(* --------------------------------------------------------------------- *)
(** ** Sessions *)
(* --------------------------------------------------------------------- *)

(** C3 at a run: one message in the inbox. *)
Lemma C3_witness :
  let pre := [EvDialTLS (Address account) None;
              EvLogin (Username account) (Password account) None;
              EvSelect "INBOX" (inl {| NumMessages := 1 |})] in
  traceOf (run 3 (serve (healthy [letter 12%N])) (doSession account) [])
  = pre ++ [] /\
  exists r,
    thenCalls (serve (healthy [letter 12%N])) (doSession account) pre []
      (EvFetch (SeqSet [1%N])
         {| BodySection := [{| Specifier := ""; Peek := false |}] |} r).
Proof.
  cbn zeta.
  match goal with
  | |- ?P /\ _ => assert P as E by (vm_compute; reflexivity)
  end.
  split; [exact E|].
  refine (proj1 (proj2 (proj2 (C3_drain_pass _ _ _ _ _ E))) "INBOX" 1%N _).
  exists [EvDialTLS (Address account) None;
          EvLogin (Username account) (Password account) None].
  reflexivity.
Defined.

(** The fetch command closed, at a run: the fetch of the only message
    is followed by the close. *)
Lemma fetch_is_closed_witness :
  let pre := [EvDialTLS (Address account) None;
              EvLogin (Username account) (Password account) None;
              EvSelect "INBOX" (inl {| NumMessages := 1 |});
              EvFetch (SeqSetNum 1) wholeBody (inl [letter 12%N])] in
  traceOf (run 4 (serve (healthy [letter 12%N])) (doSession account) [])
  = pre ++ [] /\
  thenCalls (serve (healthy [letter 12%N])) (doSession account) pre []
    EvFetchClose.
Proof.
  cbn zeta.
  match goal with
  | |- ?P /\ _ => assert P as E by (vm_compute; reflexivity)
  end.
  split; [exact E|].
  refine (proj1 (proj2 (fetch_is_closed _ _ _ _ _ E)) (SeqSetNum 1) wholeBody
            [letter 12%N] _).
  exists [EvDialTLS (Address account) None;
          EvLogin (Username account) (Password account) None;
          EvSelect "INBOX" (inl {| NumMessages := 1 |})].
  reflexivity.
Defined.

(** The invariant of [main.go] at a run: the import call fails, Gmail
    having answered 503. *)
Lemma delete_iff_import_confirmed_witness :
  let pre := untilImport (LogImporting (Username account) 2)
               (inr unavailable) in
  traceOf (run 7 (serve rejecting) (doSession account) []) = pre ++ [] /\
  returnsWith (serve rejecting) (doSession account)
    (pre ++ [EvLog (LogUpload unavailable); EvClientClose]) unavailable.
Proof.
  cbn zeta.
  match goal with
  | |- ?P /\ _ => assert P as E by (vm_compute; reflexivity)
  end.
  split; [exact E|].
  refine (proj2 (proj2 (proj2 (delete_iff_import_confirmed _ _ _ _ _ E))
            (importCall (messageOf (letter 12%N))) (inr unavailable)
            unavailable _ eq_refl)).
  exists (firstn 6 (untilImport (LogImporting (Username account) 2)
                      (inr unavailable))).
  reflexivity.
Defined.

(** C4 at a run: the inbox is empty, an update ends the wait, and the
    server drops the connection instead of acknowledging the end of
    IDLE. *)
Lemma C4_witness :
  let reset := ExternalError "connection reset" in
  let pre := [EvDialTLS (Address account) None;
              EvLogin (Username account) (Password account) None;
              EvSelect "INBOX" (inl {| NumMessages := 0 |});
              EvIdle None;
              EvAwaitUpdate maxPollTime Notified;
              EvTimerStop;
              EvIdleClose None;
              EvIdleWait (Some reset)] in
  traceOf (run 8 (serve (healthy [])) (doSession account) []) = pre ++ [] /\
  returnsWith (serve (healthy [])) (doSession account)
    (pre ++ [EvLog (LogIdle reset); EvClientClose]) reset.
Proof.
  cbn zeta.
  match goal with
  | |- ?P /\ _ => assert P as E by (vm_compute; reflexivity)
  end.
  split; [exact E|].
  refine (proj2 (proj2 (proj2 (proj2 (proj2 (proj2 (proj2 (proj2 (proj2 (proj2
            (proj2 (proj2 (proj2 (C4_idle_wait _ _ _ _ _ E))))))))))))
            (ExternalError "connection reset") _)).
  right. right.
  exists [EvDialTLS (Address account) None;
          EvLogin (Username account) (Password account) None;
          EvSelect "INBOX" (inl {| NumMessages := 0 |});
          EvIdle None;
          EvAwaitUpdate maxPollTime Notified;
          EvTimerStop;
          EvIdleClose None].
  reflexivity.
Defined.

(** C6 at a run: the session of an account with an empty inbox ends
    when the server drops the connection; the supervisor then pauses. *)
Lemma C6_witness :
  let reset := ExternalError "connection reset" in
  let pre := [EvDialTLS (Address account) None;
              EvLogin (Username account) (Password account) None;
              EvSelect "INBOX" (inl {| NumMessages := 0 |});
              EvIdle None;
              EvAwaitUpdate maxPollTime Notified;
              EvTimerStop;
              EvIdleClose None;
              EvIdleWait (Some reset);
              EvLog (LogIdle reset);
              EvClientClose] in
  traceOf (run 10 (serve (healthy [])) (supervise account) []) = pre ++ [] /\
  thenCalls (serve (healthy [])) (supervise account) pre []
    (EvSleep maxPollTime).
Proof.
  cbn zeta.
  match goal with
  | |- ?P /\ _ => assert P as E by (vm_compute; reflexivity)
  end.
  split; [exact E|].
  refine (proj1 (proj2 (proj2 (proj2 (proj2
            (C6_supervisor _ _ _ _ _ E))))) _).
  left.
  exists [EvDialTLS (Address account) None;
          EvLogin (Username account) (Password account) None;
          EvSelect "INBOX" (inl {| NumMessages := 0 |});
          EvIdle None;
          EvAwaitUpdate maxPollTime Notified;
          EvTimerStop;
          EvIdleClose None;
          EvIdleWait (Some (ExternalError "connection reset"));
          EvLog (LogIdle (ExternalError "connection reset"))].
  reflexivity.
Defined.

(** C9 at a run: the server refuses the store; the session logs, closes
    and returns that error. *)
Lemma C9_witness :
  let e := ExternalError "NO [NOPERM]" in
  let flags :=
    {| Op := StoreFlagsAdd; Silent := true; Flags := ["\Deleted"] |} in
  let pre := untilImport (LogImporting (Username account) 2)
               (inl {| HTTPStatusCode := 200 |})
             ++ [EvStore (UIDSet [12%N]) flags (Some e)] in
  traceOf (run 8 (serve readOnly) (doSession account) []) = pre ++ [] /\
  returnsWith (serve readOnly) (doSession account)
    (pre ++ [EvLog (LogStore e); EvClientClose]) e.
Proof.
  cbn zeta.
  match goal with
  | |- ?P /\ _ => assert P as E by (vm_compute; reflexivity)
  end.
  split; [exact E|].
  refine (proj2 (proj1 (proj2 (proj2 (proj2 (proj2
            (C9_store_before_expunge _ _ _ _ _ E))))) _ _ _ _)).
  exists (untilImport (LogImporting (Username account) 2)
            (inl {| HTTPStatusCode := 200 |})).
  reflexivity.
Defined.

(** C2 at a run: one message, UID 12, and Gmail answers 202.  The
    earlier program's pass goes on to the store; the whole session of
    the earlier program has the message expunged. *)
Lemma C2_witness :
  let flags :=
    {| Op := StoreFlagsAdd; Silent := true; Flags := ["\Deleted"] |} in
  (exists a more,
     traceOf (run 7 (serve accepting202)
                (drainPass Legacy.importToGmail Legacy.importingLine account)
                [])
     = [EvSelect "INBOX" (inl {| NumMessages := 1 |});
        EvFetch (SeqSet [1%N])
          {| BodySection := [{| Specifier := ""; Peek := false |}] |}
          (inl [letter 12%N]);
        EvFetchClose;
        EvLog (LogImportingEmail 2);
        EvImport (importCall (messageOf (letter 12%N)))
          (inl {| HTTPStatusCode := 202 |});
        EvLog (LogStatusCode 202);
        EvStore (UIDSet [12%N]) flags a] ++ more) /\
  run 40 (serve accepting202) (Legacy.doSession account) []
  = Done (Some (ExternalError "connection reset"))
      (untilImport (LogImportingEmail 2) (inl {| HTTPStatusCode := 202 |})
       ++ [EvLog (LogStatusCode 202);
           EvStore (UIDSet [12%N]) flags None;
           EvExpunge None]
       ++ afterDelete) 22.
Proof.
  cbn zeta. split; [|vm_compute; reflexivity].
  refine (proj1 (proj2
            (C2_legacy_import_accepts_other_2xx (serve accepting202) account
               [] 0 {| NumMessages := 1 |} (letter 12%N) []
               {| HTTPStatusCode := 202 |}
               eq_refl _ eq_refl eq_refl eq_refl _ _))).
  - reflexivity.
  - cbn. lia.
  - cbn. discriminate.
Defined.

(* --------------------------------------------------------------------- *)
(** ** Sessions against the server that keeps the mailbox *)
(* --------------------------------------------------------------------- *)

(** C1 at a run: the messages "a", "b" and "c" with UIDs 10, 11 and 12.
    The first pass imports "a" and removes "c"; the whole session
    imports "a" three times, never "b" nor "c", and leaves the mailbox
    empty. *)
Lemma C1_witness :
  let w := imapServer false threeNotes in
  let a := importCall (messageOf (note 10%N Byte.x61)) in
  (imports (traceOf (run 9 w (doSession account) [])) = [a] /\
   map held (mailboxAfter (inbox threeNotes)
               (traceOf (run 9 w (doSession account) [])))
   = [note 10%N Byte.x61; note 11%N Byte.x62]) /\
  imports (traceOf (run 40 w (doSession account) [])) = [a; a; a] /\
  mailboxAfter (inbox threeNotes) (traceOf (run 40 w (doSession account) []))
  = [].
Proof.
  cbn zeta. split; [|split; vm_compute; reflexivity].
  pose proof (C1_delete_names_highest_uid threeNotes account
                (note 10%N Byte.x61) (note 12%N Byte.x63)
                [note 11%N Byte.x62]
                eq_refl eq_refl eq_refl eq_refl eq_refl eq_refl) as H.
  cbn zeta in H.
  destruct H as (Hrun & Himp & Hheld & _).
  - intros b [<- | [<- | []]]; reflexivity.
  - reflexivity.
  - rewrite Hrun. cbn [traceOf]. split; [exact Himp | exact Hheld].
Defined.

(** No message is lost, at a run: three messages, the import of the
    third fails. *)
Lemma no_message_lost_witness :
  let tr := traceOf (run 36 (imapServer true threeMessages)
                       (supervise account) []) in
  (In (note 12%N Byte.x63)
      (map held (mailboxAfter (inbox threeMessages) tr)) \/
   confirmed (note 12%N Byte.x63) tr) /\
  forall pre s f a post, tr = pre ++ EvStore s f a :: post ->
    exists u, s = UIDSet [u] /\ u <> 0%N.
Proof.
  apply (no_message_lost (imapServer true threeMessages) account
           (inbox threeMessages) 36 (note 12%N Byte.x63)).
  - cbn. repeat constructor; cbn; intuition discriminate.
  - cbn. intros b [<- | [<- | [<- | []]]]; discriminate.
  - apply imapServer_fetches_mailbox.
  - cbn. auto.
Defined.

(** Draining at a run: two messages, both accepted. *)
Lemma drain_imports_every_message_witness :
  let sv := healthy [note 10%N Byte.x61; note 11%N Byte.x62] in
  let tr' := drainTrace account (gmail sv) (inbox sv) 0
             ++ [EvSelect "INBOX" (inl {| NumMessages := 0 |})] in
  run (8 * 2 + 1 + 0) (imapServer true sv)
    (ITree.iter
       (fun _ : unit => drainPass importToGmail importingLine account) tt) []
  = Done Break tr' 0 /\
  mailboxAfter (inbox sv) tr' = [].
Proof.
  cbn zeta.
  apply (drain_imports_every_message
           (healthy [note 10%N Byte.x61; note 11%N Byte.x62]) account
           [note 10%N Byte.x61; note 11%N Byte.x62] [] 0).
  - reflexivity.
  - reflexivity.
  - reflexivity.
  - cbn. repeat constructor; cbn; intuition discriminate.
  - repeat constructor; discriminate.
  - reflexivity.
  - repeat constructor.
Defined.

(** A rejected message at a run: the import of the third of three
    messages fails. *)
Lemma drain_stops_at_rejected_message_witness :
  let sv := threeMessages in
  let good := [note 10%N Byte.x61; note 11%N Byte.x62] in
  let bad := note 12%N Byte.x63 in
  let answer := gmail sv (importCall (messageOf bad)) in
  let tr' := drainTrace account (gmail sv) good 1
             ++ importPass account 1 bad answer
             ++ [EvLog (failureLine answer)] in
  run (8 * 2 + 6 + 0) (imapServer true sv)
    (ITree.iter
       (fun _ : unit => drainPass importToGmail importingLine account) tt) []
  = Done (Return (Some unavailable)) tr' 0 /\
  mailboxAfter (inbox sv) tr' = arrived [bad].
Proof.
  cbn zeta.
  apply (drain_stops_at_rejected_message threeMessages account
           [note 10%N Byte.x61; note 11%N Byte.x62] (note 12%N Byte.x63) []
           unavailable [] 0).
  - reflexivity.
  - reflexivity.
  - reflexivity.
  - cbn. repeat constructor; cbn; intuition discriminate.
  - repeat constructor; discriminate.
  - reflexivity.
  - repeat constructor.
  - reflexivity.
Defined.

(** Three sessions against the server that refuses the store and
    answers a fetch without the UID. *)
Lemma failed_delete_imports_again_witness :
  let e := ExternalError "NO [NOPERM]" in
  let session :=
    undeletedSession account 1 (reply false (letter 12%N))
      (gmail readOnly (importCall (messageOf (letter 12%N)))) e in
  let tr := concat (repeat session 3) in
  run (12 * 3) (imapServer false readOnly) (supervise account) []
  = Running tr /\
  confirmedImports tr = 3 /\
  mailboxAfter (inbox readOnly) tr = arrived (inbox readOnly).
Proof.
  cbn zeta.
  apply (failed_delete_imports_again false readOnly account (letter 12%N) []
           (ExternalError "NO [NOPERM]") 3); reflexivity.
Defined.

(** Polling at a run: three turns, each ended by the deadline. *)
Lemma empty_mailbox_polls_witness :
  let sv := {| dialAnswer := None; loginAnswer := None; inbox := [];
               racing := false; gmail := status 200;
               storeAnswer := None; expungeAnswer := None;
               idleAnswer := None; wakeAnswer := TimedOut;
               idleCloseAnswer := None; idleWaitAnswer := None |} in
  run (2 + 3 * 6) (imapServer false sv) (doSession account) []
  = Running ([EvDialTLS (Address account) None;
              EvLogin (Username account) (Password account) None]
             ++ concat (repeat (idleCycle TimedOut) 3)).
Proof.
  cbn zeta.
  apply (empty_mailbox_polls false
           {| dialAnswer := None; loginAnswer := None; inbox := [];
              racing := false; gmail := status 200;
              storeAnswer := None; expungeAnswer := None;
              idleAnswer := None; wakeAnswer := TimedOut;
              idleCloseAnswer := None; idleWaitAnswer := None |}
           account 3); reflexivity.
Defined.

(* --------------------------------------------------------------------- *)
(** ** Runs of the start-up *)
(* --------------------------------------------------------------------- *)

(** The first run reaches the final [select {}] with both accounts
    started. *)
Lemma main_starts_every_account_witness :
  let tr := snd (start 16 (scripted firstRun) main []) in
  exists name f cfg mail pre closing,
    firstn 4 tr = [EvFlagParse; EvFlagArg 0 name;
                   EvOpenFile name O_RDWR mode0600 (f, None);
                   EvDecode f (Some cfg, None)] /\
    Imap cfg <> [] /\
    tr = pre ++ [EvFileClose f closing]
             ++ map (fun imapCreds => EvGo imapCreds mail) (Imap cfg)
             ++ [EvPrintf StartupComplete; EvSelectForever] /\
    spawned pre = [] /\
    (exists client, In (EvNewService client (mail, None)) pre) /\
    map (fun g => supervise (fst g)) (spawned tr) = mainTasks cfg.
Proof.
  apply (main_starts_every_account (scripted firstRun) 16).
  vm_compute. reflexivity.
Defined.

Lemma main_ends_fatally_or_blocks_witness :
  let e := fst (start 5 (scripted noAccounts) main []) in
  let tr := snd (start 5 (scripted noAccounts) main []) in
  (forall r more, e <> Returned r more) /\
  (14 + length (decodedAccounts tr) <= 5 -> e <> Unfinished) /\
  (e = Halted ExitFatal \/ e = Halted PanicNil -> spawned tr = []).
Proof.
  apply (main_ends_fatally_or_blocks (scripted noAccounts) 5).
  vm_compute. reflexivity.
Defined.

Lemma main_reads_configuration_first_witness :
  let tr := snd (start 16 (scripted firstRun) main []) in
  exists name f cfg rest,
    tr = [EvFlagParse; EvFlagArg 0 name;
          EvOpenFile name O_RDWR mode0600 (f, None);
          EvDecode f (Some cfg, None)] ++ rest /\
    Imap cfg <> [].
Proof.
  apply (main_reads_configuration_first (scripted firstRun) 16
           (Halted BlockForever)).
  - vm_compute. reflexivity.
  - vm_compute. reflexivity.
Defined.

(** A configuration without accounts: [main] exits at once. *)
Lemma main_unusable_configuration_witness :
  let e := fst (start 5 (scripted noAccounts) main []) in
  let tr := snd (start 5 (scripted noAccounts) main []) in
  e = Halted ExitFatal /\
  exists name,
    tr = [EvFlagParse; EvFlagArg 0 name;
          EvOpenFile name O_RDWR mode0600 (FileOf 3, None);
          EvDecode (FileOf 3)
            (Some {| Imap := []; Secrets := "{}"; Tokens := None |}, None);
          EvFatalf FatalNoAccounts].
Proof.
  refine (proj2 (proj2 (proj2
            (main_unusable_configuration (scripted noAccounts) 5 _ _ _
               (le_n 5))))
            (FileOf 3) {| Imap := []; Secrets := "{}"; Tokens := None |}
            _ eq_refl).
  - vm_compute. reflexivity.
  - vm_compute. auto 6.
Defined.

(** The first run of [getGmailService]: a token is requested and
    written back. *)
Lemma getGmailService_token_witness :
  exists added,
    snd (start 8 (scripted firstRun) (getGmailService twoAccounts (FileOf 3)) [])
    = [] ++ added /\
    written added = [{| Imap := Imap twoAccounts;
                        Secrets := Secrets twoAccounts;
                        Tokens := Some "ya29.token" |}].
Proof.
  destruct (getGmailService_token (scripted firstRun) twoAccounts (FileOf 3) 8
              [] _ _ eq_refl) as (added & E & H & _).
  exists added. split; [exact E|].
  cbn [app] in E. rewrite <- E. vm_compute. reflexivity.
Defined.

(** The write-back over a longer file: its tail stays. *)
Lemma writeTo_keeps_the_rest_witness :
  let old := {| data := list_byte_of_string "{ old configuration }";
                position := 23 |} in
  exists n,
    let added := [EvSeek (FileOf 3) 0 0 (n, None);
                  EvEncode (FileOf 3) twoAccounts None] in
    data (fileAfter secretsLine old added)
    = secretsLine twoAccounts ++ skipn 3 (data old).
Proof.
  cbn zeta.
  destruct (writeTo_keeps_the_rest secretsLine (scripted firstRun) twoAccounts
              (FileOf 3) 2 []
              {| data := list_byte_of_string "{ old configuration }";
                 position := 23 |} 0
              [EvSeek (FileOf 3) 0 0 (0%Z, None);
               EvEncode (FileOf 3) twoAccounts None] eq_refl)
    as (n & _ & E & _).
  exists n. exact E.
Defined.
